(** * Convergence acceleration in mpmath's [calculus.py]

    A shallow embedding of [richardson], [shanks], [sumem],
    [adaptive_extrapolation] and [nsum] from [src/mpmath/calculus.py],
    and the properties of them that the specification states.

    Numbers are values of an abstract carrier [F] (an [mpf] or [mpc]);
    the arithmetic of [mptypes] and [functions], which rounds to the global
    working precision [mp.prec], is a record of operations [NumOps F], one
    record per precision.  Exceptions are results; the global precision
    register and whatever state the caller's callbacks own are threaded
    explicitly. *)

From Stdlib Require Import List ZArith QArith Qabs Qpower Qreduction Qfield Bool Lia.
From Stdlib Require Import String Ascii.
Import ListNotations.

(* [String] has a [length] of its own; lists are meant throughout. *)
Abbreviation length := List.length.

Set Implicit Arguments.

(* ------------------------------------------------------------------ *)
(** * Exceptions and results *)

Inductive exn : Type :=
| AssertionError
| IndexError
| ZeroDivisionError
| NameError
| UnboundLocalError
| NotImplementedError
| OverflowError
| TypeError
| ValueError
| UserError (code : Z).   (* whatever a caller-supplied callback raises *)

Inductive res (A : Type) : Type :=
| Ret (a : A)
| Raise (e : exn).
Arguments Ret {A} a.
Arguments Raise {A} e.

Definition rbind {A B} (r : res A) (k : A -> res B) : res B :=
  match r with
  | Ret a => k a
  | Raise e => Raise e
  end.

Declare Scope res_scope.
Delimit Scope res_scope with res.
Notation "x <- c ;; k" := (rbind c (fun x => k))
  (at level 61, c at next level, right associativity) : res_scope.
Notation "' pat <- c ;; k" := (rbind c (fun x => match x with pat => k end))
  (at level 61, pat pattern, c at next level, right associativity) : res_scope.

(** [l[n]] for a nonnegative index: Python raises IndexError out of range. *)
Definition index {A} (l : list A) (n : nat) : res A :=
  match nth_error l n with
  | Some x => Ret x
  | None => Raise IndexError
  end.

(** [l[-n]] for n >= 1. *)
Definition index_back {A} (l : list A) (n : nat) : res A :=
  if (length l <? n)%nat then Raise IndexError
  else index l (length l - n).

(** [l[::2]]: the elements at even positions. *)
Fixpoint every_other {A} (l : list A) : list A :=
  match l with
  | [] => []
  | x :: l' =>
    x :: match l' with
         | [] => []
         | _ :: l'' => every_other l''
         end
  end.

(* ------------------------------------------------------------------ *)
(** * The numeric collaborator

    The operations of [mptypes]/[functions] at one working precision.
    [div] is the quotient for a nonzero divisor; a zero divisor raises
    ZeroDivisionError, see [pdiv], which stands for every division except
    those by a nonzero literal. *)

Record NumOps (F : Type) : Type := {
  mpf : Z -> F;              (* mpf(n), rounded to the working precision *)
  lift : Z -> F;             (* a Python int met by an mpf in mixed arithmetic *)
  add : F -> F -> F;
  sub : F -> F -> F;
  mul : F -> F -> F;
  div : F -> F -> F;
  neg : F -> F;
  powi : F -> Z -> F;        (* x ** n for a Python int n *)
  absf : F -> F;
  sign : F -> F;
  is_zero : F -> bool;       (* [not x] *)
  eqb : F -> F -> bool;
  leb : F -> F -> bool;
  ltb : F -> F -> bool;
  ae : F -> F -> bool;       (* x.ae(y): approximate equality *)
  eps : F;                   (* machine epsilon at this precision *)
  uplus : F -> F;            (* +x: round to the working precision *)
  bernoulli : Z -> F;
  factorial : Z -> F;
  int_fac : Z -> Z           (* gammazeta.int_fac: exact integer factorial *)
}.

Section Numeric.
Context {F : Type} (O : NumOps F).

Definition pdiv (x y : F) : res F :=
  if is_zero O y then Raise ZeroDivisionError else Ret (div O x y).

Definition fmax (x y : F) : F :=    (* Python's max(x, y) *)
  if ltb O x y then y else x.
End Numeric.

(* ------------------------------------------------------------------ *)
(** * [richardson] (lines 157-172) *)

Section Richardson.
Context {F : Type} (O : NumOps F).

Local Open Scope res_scope.

(** The body of [for k in xrange(N+1)], on the state (s, maxc, c). *)
Definition richardson_step (seq : list F) (N k : nat) (st : F * F * F)
    : res (F * F * F) :=
  let '(s, maxc, c) := st in
  x <- index seq (N + k) ;;
  let s := add O s (mul O c x) in
  let maxc := fmax O (absf O c) maxc in
  let c := mul O c (mul O (lift O (Z.of_nat k - Z.of_nat N))
                          (powi O (mpf O (Z.of_nat k + Z.of_nat N + 1))
                                  (Z.of_nat N))) in
  c <- pdiv O c (mul O (lift O (1 + Z.of_nat k))
                       (powi O (mpf O (Z.of_nat k + Z.of_nat N))
                               (Z.of_nat N))) ;;
  Ret (s, maxc, c).

Fixpoint richardson_loop (ks : list nat) (seq : list F) (N : nat)
    (st : F * F * F) : res (F * F * F) :=
  match ks with
  | [] => Ret st
  | k :: ks' =>
    st' <- richardson_step seq N k st ;;
    richardson_loop ks' seq N st'
  end.

(** [seq = seq[::2]] when the last two differences disagree in sign. *)
Definition richardson_seq (seq : list F) : res (list F) :=
  x1 <- index_back seq 1 ;;
  x2 <- index_back seq 2 ;;
  y2 <- index_back seq 2 ;;
  y3 <- index_back seq 3 ;;
  if negb (eqb O (sign O (sub O x1 x2)) (sign O (sub O y2 y3)))
  then Ret (every_other seq)
  else Ret seq.

Definition richardson (seq : list F) : res (F * F) :=
  if (length seq <? 3)%nat then Raise AssertionError else
  seq <- richardson_seq seq ;;
  let N := (length seq / 2 - 1)%nat in
  let s := mpf O 0 in
  c <- pdiv O (lift O ((-1) ^ Z.of_nat N * Z.of_nat N ^ Z.of_nat N))
              (mpf O (int_fac O (Z.of_nat N))) ;;
  let maxc := lift O 1 in
  '(s, maxc, _) <- richardson_loop (List.seq 0 (N + 1)) seq N (s, maxc, c) ;;
  Ret (s, maxc).
End Richardson.

(** The pseudorandom generator of Python's [random] module. *)
Record Rng : Type := {
  rng_state : Type;
  seed : Z -> rng_state;
  getrandbits : rng_state -> Z -> Z * rng_state
}.

(* ------------------------------------------------------------------ *)
(** * [shanks] (lines 305-339) *)

Section Shanks.
Context {F : Type} (O : NumOps F) (R : Rng).

Definition table := list (list F).

Local Open Scope res_scope.

(** The numerator shift [a] and the denominator [b] of entry [j] of
    row [i]; [row] holds the entries of row [i] built so far. *)
Definition shanks_ab (seq : list F) (tbl : table) (i j : nat)
    (row : list F) : res (F * F) :=
  if (j =? 0)%nat then
    x1 <- index seq (i + 1) ;;
    x0 <- index seq i ;;
    Ret (lift O 0, sub O x1 x0)
  else
    a <- (if (j =? 1)%nat then index seq i
          else (prev <- index tbl (i - 1) ;; index prev (j - 2))) ;;
    p <- index row (j - 1) ;;
    prev <- index tbl (i - 1) ;;
    q <- index prev (j - 1) ;;
    Ret (a, sub O p q).

(** [for j in xrange(i+1)]: [None] when a zero denominator ends the
    call in deterministic mode. *)
Fixpoint shanks_row (js : list nat) (seq : list F) (tbl : table)
    (randomized : bool) (i : nat) (row : list F) (g : rng_state R)
    : res (option (list F * rng_state R)) :=
  match js with
  | [] => Ret (Some (row, g))
  | j :: js' =>
    '(a, b) <- shanks_ab seq tbl i j row ;;
    if is_zero O b then
      if randomized then
        let '(r, g') := getrandbits R g 10 in
        let b' := mul O (lift O r) (eps O) in
        x <- pdiv O (mpf O 1) b' ;;
        shanks_row js' seq tbl randomized i (row ++ [add O a x]) g'
      else Ret None
    else
      x <- pdiv O (mpf O 1) b ;;
      shanks_row js' seq tbl randomized i (row ++ [add O a x]) g
  end.

(** How the loop over the rows is left. *)
Inductive rows_exit : Type :=
| Fallthrough (tbl : table) (g : rng_state R)
| Returned (tbl : table).

(** [for i in xrange(START, STOP)]. *)
Fixpoint shanks_rows (rows : list nat) (seq : list F)
    (randomized : bool) (tbl : table) (g : rng_state R) : res rows_exit :=
  match rows with
  | [] => Ret (Fallthrough tbl g)
  | i :: rows' =>
    r <- shanks_row (List.seq 0 (i + 1)) seq tbl randomized i [] g ;;
    match r with
    | None => if Nat.odd i then Ret (Returned (removelast tbl))
              else Ret (Returned tbl)
    | Some (row, g') => shanks_rows rows' seq randomized (tbl ++ [row]) g'
    end
  end.

Definition shanks_start (tbl : option table) : nat * table :=
  match tbl with
  | Some (r :: t) => (length (r :: t), r :: t)
  | _ => (0%nat, [])
  end.

Definition shanks_stop (seq : list F) : nat :=
  let STOP := (length seq - 1)%nat in
  if Nat.odd STOP then (STOP - 1)%nat else STOP.

Definition shanks (seq : list F) (tbl : option table) (randomized : bool)
    : res table :=
  if (length seq <? 2)%nat then Raise AssertionError else
  let '(START, tbl) := shanks_start tbl in
  let STOP := shanks_stop seq in
  let g := seed R (Z.of_nat START) in
  e <- shanks_rows (List.seq START (STOP - START)) seq randomized tbl g ;;
  match e with
  | Fallthrough t _ => Ret t
  | Returned t => Ret t
  end.
End Shanks.
Arguments table : clear implicits.
Arguments rows_exit : clear implicits.
Arguments Fallthrough {F R} tbl g.
Arguments Returned {F R} tbl.

(* ------------------------------------------------------------------ *)
(** * The global precision register and effectful code

    [mp.prec] is process-wide state.  Caller-supplied callbacks (term
    functions, derivative iterators, quadrature) may read or write it and
    own state [ext] of their own.  A loop that Python runs until a [break]
    is given fuel; [Hang] is its exhaustion. *)

Record world (E : Type) : Type := { prec : Z; ext : E }.

Inductive outcome (E A : Type) : Type :=
| Done (r : res A) (w : world E)
| Hang.
Arguments Done {E A} r w.
Arguments Hang {E A}.

Definition M (E A : Type) : Type := world E -> outcome E A.

Definition ret {E A} (a : A) : M E A := fun w => Done (Ret a) w.

Definition raise {E A} (e : exn) : M E A := fun w => Done (Raise e) w.

Definition hang {E A} : M E A := fun _ => Hang.

Definition bind {E A B} (c : M E A) (k : A -> M E B) : M E B :=
  fun w =>
    match c w with
    | Done (Ret a) w' => k a w'
    | Done (Raise e) w' => Done (Raise e) w'
    | Hang => Hang
    end.

Definition liftR {E A} (r : res A) : M E A := fun w => Done r w.

Definition get_prec {E} : M E Z := fun w => Done (Ret (prec w)) w.

Definition set_prec {E} (p : Z) : M E unit :=
  fun w => Done (Ret tt) {| prec := p; ext := ext w |}.

(** [try: body finally: fin]. *)
Definition try_finally {E A} (body : M E A) (fin : M E unit) : M E A :=
  fun w =>
    match body w with
    | Done r w' =>
      match fin w' with
      | Done (Ret _) w'' => Done r w''
      | Done (Raise e) w'' => Done (Raise e) w''
      | Hang => Hang
      end
    | Hang => Hang
    end.

Declare Scope M_scope.
Delimit Scope M_scope with M.
Notation "x <- c ;; k" := (bind c (fun x => k))
  (at level 61, c at next level, right associativity) : M_scope.
Notation "' pat <- c ;; k" := (bind c (fun x => match x with pat => k end))
  (at level 61, pat pattern, c at next level, right associativity) : M_scope.
Notation "c ;;; k" := (bind c (fun _ => k))
  (at level 61, right associativity) : M_scope.

(** An mpf argument: finite, or one of the two infinities. *)
Inductive point (A : Type) : Type :=
| NegInf
| Fin (x : A)
| PosInf.
Arguments NegInf {A}.
Arguments Fin {A} x.
Arguments PosInf {A}.

Definition neg_point {A} (ng : A -> A) (x : point A) : point A :=
  match x with
  | NegInf => PosInf
  | Fin a => Fin (ng a)
  | PosInf => NegInf
  end.

Definition is_neginf {A} (x : point A) : bool :=
  match x with NegInf => true | _ => false end.

Definition is_posinf {A} (x : point A) : bool :=
  match x with PosInf => true | _ => false end.

(** A Python iterator: the effect of the n-th call of [next], [None] for
    StopIteration. *)
Definition iterator (E F : Type) : Type := nat -> M E (option F).

(* ------------------------------------------------------------------ *)
(** * [sumem] (lines 405-457) *)

Section Sumem.
Context {E F : Type}.
Variable arith : Z -> NumOps F.            (* the arithmetic at each precision *)
Variable diffs : (point F -> M E F) -> point F -> iterator E F.
Variable quad : (point F -> M E F) -> point F * point F -> M E (F * F).

Local Open Scope M_scope.

(** [(0 for n in xrange(M))] with M = 10000. *)
Definition zeros : iterator E F :=
  fun n => p <- get_prec ;;
           if (Z.of_nat n <? 10000)%Z then ret (Some (lift (arith p) 0))
           else ret None.

(** How the correction loop is left: by exhausting an iterator, by the
    tolerance test or by the rejection test. *)
Inductive em_exit : Type := Exhausted | Accepted | Rejected.

(** The body of the loop for an odd [k], after [da] and [db] are drawn.
    [inl]: break; [inr]: next iteration. *)
Definition sumem_term (O : NumOps F) (tol reject : F) (k : nat)
    (da db : F) (s err prev : F) : res (em_exit * F * F + F * F) :=
  (term <- pdiv O (mul O (sub O db da) (bernoulli O (Z.of_nat k + 1)))
                  (factorial O (Z.of_nat k + 1)) ;;
   let mag := absf O term in
   if (4 <? k)%nat && ltb O mag tol then
     Ret (inl (Accepted, add O s term, err))
   else if (4 <? k)%nat then
     q <- pdiv O (absf O prev) mag ;;
     if ltb O q reject then Ret (inl (Rejected, s, add O err mag))
     else Ret (inr (add O s term, term))
   else Ret (inr (add O s term, term)))%res.

(** [for k, (da, db) in enumerate(izip(adiffs, bdiffs))]. *)
Fixpoint sumem_loop (fuel : nat) (adiffs bdiffs : iterator E F)
    (tol reject : F) (k : nat) (s err prev : F) : M E (em_exit * F * F) :=
  match fuel with
  | O => hang
  | S fuel' =>
    oa <- adiffs k ;;
    match oa with
    | None => ret (Exhausted, s, err)
    | Some da =>
      ob <- bdiffs k ;;
      match ob with
      | None => ret (Exhausted, s, err)
      | Some db =>
        if Nat.odd k then
          p <- get_prec ;;
          r <- liftR (sumem_term (arith p) tol reject k da db s err prev) ;;
          match r with
          | inl out => ret out
          | inr (s', prev') =>
            sumem_loop fuel' adiffs bdiffs tol reject (S k) s' err prev'
          end
        else sumem_loop fuel' adiffs bdiffs tol reject (S k) s err prev
      end
    end
  end.

(** [s += f(x)/2]. *)
Definition add_half (f : point F -> M E F) (x : point F) (s : F) : M E F :=
  y <- f x ;;
  p <- get_prec ;;
  ret (add (arith p) s (div (arith p) y (lift (arith p) 2))).

Inductive sumem_result : Type :=
| Estimate (s : F)
| WithError (s err : F).

Definition sumem (fuel : nat) (f : point F -> M E F)
    (interval : point F * point F) (tol : option F) (reject : F)
    (integral : option F) (adiffs bdiffs : option (iterator E F))
    (error : bool) : M E sumem_result :=
  p0 <- get_prec ;;
  let O0 := arith p0 in
  let tol := match tol with
             | Some t => if is_zero O0 t then uplus O0 (eps O0) else t
             | None => uplus O0 (eps O0)
             end in
  let '(a, b) := interval in
  let err := mpf O0 0 in
  let prev := lift O0 0 in
  let adiffs := if is_neginf a then zeros
                else match adiffs with Some it => it | None => diffs f a end in
  let bdiffs := if is_posinf b then zeros
                else match bdiffs with Some it => it | None => diffs f b end in
  orig <- get_prec ;;
  '(s, err) <-
    try_finally
      (set_prec (orig + 10) ;;;
       p <- get_prec ;;
       let s := mpf (arith p) 0 in
       '(_, s, err) <- sumem_loop fuel adiffs bdiffs tol reject 0 s err prev ;;
       (* Endpoint correction *)
       s <- (if negb (is_neginf a) then add_half f a s else ret s) ;;
       s <- (if negb (is_posinf b) then add_half f b s else ret s) ;;
       (* Tail integral *)
       p <- get_prec ;;
       match integral with
       | Some v =>
         if negb (is_zero (arith p) v) then ret (add (arith p) s v, err)
         else
           '(v, ierr) <- quad f interval ;;
           p <- get_prec ;;
           ret (add (arith p) s v, add (arith p) err ierr)
       | None =>
         '(v, ierr) <- quad f interval ;;
         p <- get_prec ;;
         ret (add (arith p) s v, add (arith p) err ierr)
       end)
      (set_prec orig) ;;
  if error then ret (WithError s err) else ret (Estimate s).
End Sumem.

(* ------------------------------------------------------------------ *)
(** * [adaptive_extrapolation] (lines 459-572) *)

(** [s.split('+')]. *)
Fixpoint split_plus (s cur : String.string) : list String.string :=
  match s with
  | String.EmptyString => [cur]
  | String.String c s' =>
    if Ascii.eqb c "+"%char then cur :: split_plus s' String.EmptyString
    else split_plus s' (String.append cur (String.String c String.EmptyString))
  end.

(** [x in method] for a string [x] and the list [method]. *)
Definition str_in (x : String.string) (method : list String.string) : bool :=
  existsb (String.eqb x) method.

(** [method == x] for the list [method] and a string [x]: a list is never
    equal to a string. *)
Definition list_eq_str (method : list String.string) (x : String.string)
    : bool := false.

(** [method in ('d', 'direct')]. *)
Definition method_in_direct (method : list String.string) : bool :=
  existsb (list_eq_str method) ["d"%string; "direct"%string].

(** The keyword options that the code reads and that change the result;
    [verbose] only prints and [skip] is read and never used. *)
Record kwargs (F : Type) : Type := {
  kw_tol : option F;
  kw_maxterms : option Z;
  kw_method : option String.string;
  kw_steps : option (nat -> option Z)
}.

(** [xrange(10, 10**9, 10)] as an iterator. *)
Definition default_steps (n : nat) : option Z :=
  if (Z.of_nat n <? 10 ^ 8 - 1)%Z then Some (10 * (Z.of_nat n + 1))%Z else None.

(** The variables of the loop. *)
Record ae_state (F : Type) : Type := {
  TRY_RICHARDSON : bool;
  TRY_SHANKS : bool;
  TRY_EULER_MACLAURIN : bool;
  last_richardson_value : F;
  shanks_table : list (list F);
  idx : Z;                      (* [index] *)
  step : Z;
  steps_pos : nat;              (* how many values [steps] has yielded *)
  partial : list F;
  best : F;
  error : F;
  maxc : option F               (* [None] until the name is bound *)
}.

Inductive flow (F A : Type) : Type :=
| Return_ (v : F)               (* a [return] inside the loop *)
| Continue (a : A).
Arguments Return_ {F A} v.
Arguments Continue {F A} a.

Section Orchestrator.
Context {E F : Type}.
Variable arith : Z -> NumOps F.
Variable R : Rng.
Variable dps_of_prec : Z -> Z.             (* [mp.dps] from [mp.prec] *)

Definition set_best_error (st : ae_state F) (b e : F) : ae_state F :=
  {| TRY_RICHARDSON := TRY_RICHARDSON st; TRY_SHANKS := TRY_SHANKS st;
     TRY_EULER_MACLAURIN := TRY_EULER_MACLAURIN st;
     last_richardson_value := last_richardson_value st;
     shanks_table := shanks_table st; idx := idx st; step := step st;
     steps_pos := steps_pos st; partial := partial st;
     best := b; error := e; maxc := maxc st |}.

Definition set_richardson (st : ae_state F) (try : bool) (v mc : F)
    : ae_state F :=
  {| TRY_RICHARDSON := try; TRY_SHANKS := TRY_SHANKS st;
     TRY_EULER_MACLAURIN := TRY_EULER_MACLAURIN st;
     last_richardson_value := v;
     shanks_table := shanks_table st; idx := idx st; step := step st;
     steps_pos := steps_pos st; partial := partial st;
     best := best st; error := error st; maxc := Some mc |}.

Definition set_shanks (st : ae_state F) (try : bool) (t : list (list F))
    (mc : option F) : ae_state F :=
  {| TRY_RICHARDSON := TRY_RICHARDSON st; TRY_SHANKS := try;
     TRY_EULER_MACLAURIN := TRY_EULER_MACLAURIN st;
     last_richardson_value := last_richardson_value st;
     shanks_table := t; idx := idx st; step := step st;
     steps_pos := steps_pos st; partial := partial st;
     best := best st; error := error st; maxc := mc |}.

Definition set_euler_maclaurin (st : ae_state F) (try : bool) : ae_state F :=
  {| TRY_RICHARDSON := TRY_RICHARDSON st; TRY_SHANKS := TRY_SHANKS st;
     TRY_EULER_MACLAURIN := try;
     last_richardson_value := last_richardson_value st;
     shanks_table := shanks_table st; idx := idx st; step := step st;
     steps_pos := steps_pos st; partial := partial st;
     best := best st; error := error st; maxc := maxc st |}.

Definition set_batch (st : ae_state F) (i s : Z) (pos : nat) (p : list F)
    : ae_state F :=
  {| TRY_RICHARDSON := TRY_RICHARDSON st; TRY_SHANKS := TRY_SHANKS st;
     TRY_EULER_MACLAURIN := TRY_EULER_MACLAURIN st;
     last_richardson_value := last_richardson_value st;
     shanks_table := shanks_table st; idx := i; step := s;
     steps_pos := pos; partial := p;
     best := best st; error := error st; maxc := maxc st |}.

(** Lines 504-510: the direct error. *)
Definition direct_check (O : NumOps F) (tol : F) (st : ae_state F)
    : res (flow F (ae_state F)) :=
  (b <- index_back (partial st) 1 ;;
   x <- index_back (partial st) 2 ;;
   let e := absf O (sub O b x) in
   if leb O e tol then Ret (Return_ b)
   else Ret (Continue (set_best_error st b e)))%res.

(** Lines 513-531. *)
Definition richardson_check (O : NumOps F) (tol : F) (st : ae_state F)
    : res (flow F (ae_state F)) :=
  (if TRY_RICHARDSON st then
     '(value, mc) <- richardson O (partial st) ;;
     let richardson_error := absf O (sub O value (last_richardson_value st)) in
     if leb O richardson_error tol then Ret (Return_ value) else
     let try := if ltb O tol (mul O (eps O) mc) then false else true in
     let st := set_richardson st try value mc in
     if ltb O richardson_error (error st)
     then Ret (Continue (set_best_error st value richardson_error))
     else Ret (Continue st)
   else Ret (Continue st))%res.

(** Lines 532-551.  [maxc] keeps the value Richardson gave it when the
    last row has two entries, and is unbound if nothing gave it one. *)
Definition shanks_check (O : NumOps F) (tol : F) (st : ae_state F)
    : res (flow F (ae_state F)) :=
  (if TRY_SHANKS st then
     t <- shanks O R (partial st) (Some (shanks_table st)) true ;;
     row <- index_back t 1 ;;
     '(est1, mc, shanks_error) <-
        (if (length row =? 2)%nat then
           est1 <- index_back row 1 ;;
           Ret (est1, maxc st, lift O 0)
         else
           est1 <- index_back row 1 ;;
           x <- index_back row 2 ;;
           est2 <- index_back row 3 ;;
           Ret (est1, Some (absf O x), absf O (sub O est1 est2))) ;;
     if leb O shanks_error tol then Ret (Return_ est1) else
     match mc with
     | None => Raise UnboundLocalError
     | Some m =>
       let try := if ltb O tol (mul O (eps O) m) then false else true in
       let st := set_shanks st try t mc in
       if ltb O shanks_error (error st)
       then Ret (Continue (set_best_error st est1 shanks_error))
       else Ret (Continue st)
     end
   else Ret (Continue st))%res.

Local Open Scope M_scope.

(** Lines 552-567.  [mpc(x)] only converts; it is inside [ae]. *)
Definition euler_maclaurin_check
    (emfun : option (Z -> F -> M E (F * F))) (tol : F) (st : ae_state F)
    : M E (flow F (ae_state F)) :=
  if TRY_EULER_MACLAURIN st then
    p <- get_prec ;;
    let O := arith p in
    q <- liftR (x1 <- index_back (partial st) 1 ;;
                x2 <- index_back (partial st) 2 ;;
                pdiv O (sign O x1) (sign O x2))%res ;;
    if ae O q (lift O (-1)) then ret (Continue (set_euler_maclaurin st false))
    else
      match emfun with
      | None => raise TypeError
      | Some em =>
        '(value, em_error) <- em (idx st + 1)%Z tol ;;
        p <- get_prec ;;
        let O := arith p in
        x1 <- liftR (index_back (partial st) 1) ;;
        let value := add O value x1 in
        if leb O em_error tol then ret (Return_ value)
        else if ltb O em_error (error st)
             then ret (Continue (set_best_error st value (error st)))
             else ret (Continue st)
      end
  else ret (Continue st).

(** Lines 494-497: the next value of [steps], or the last [step] when the
    iterator is exhausted. *)
Definition next_step (steps : nat -> option Z) (pos : nat) (stp : Z)
    : Z * nat :=
  match steps pos with
  | Some s => (s, S pos)
  | None => (stp, pos)
  end.

(** Lines 504-567: the checks on the extended list of partial sums. *)
Definition ae_checks (emfun : option (Z -> F -> M E (F * F))) (tol : F)
    (st : ae_state F) : M E (flow F (ae_state F)) :=
  p <- get_prec ;;
  let O := arith p in
  (* Check direct error *)
  r <- liftR (direct_check O tol st) ;;
  match r with
  | Return_ v => ret (Return_ v)
  | Continue st =>
    (* Check each extrapolation method *)
    r <- liftR (richardson_check O tol st) ;;
    match r with
    | Return_ v => ret (Return_ v)
    | Continue st =>
      r <- liftR (shanks_check O tol st) ;;
      match r with
      | Return_ v => ret (Return_ v)
      | Continue st => euler_maclaurin_check emfun tol st
      end
    end
  end.

(** One pass of the body of [while 1], after the test of [maxterms]. *)
Definition ae_iteration (update : list F -> Z -> Z -> M E (list F))
    (emfun : option (Z -> F -> M E (F * F))) (steps : nat -> option Z)
    (tol : F) (st : ae_state F) : M E (flow F (ae_state F)) :=
  (* Get new batch of terms *)
  let stp := fst (next_step steps (steps_pos st) (step st)) in
  let pos := snd (next_step steps (steps_pos st) (step st)) in
  part <- update (partial st) (idx st) (idx st + stp)%Z ;;
  ae_checks emfun tol (set_batch st (idx st + stp)%Z stp pos part).

(** [while 1: if index >= maxterms: break ...]; the value is what the
    function returns, by a [return] in the loop or by [return best]. *)
Fixpoint ae_loop (fuel : nat) (update : list F -> Z -> Z -> M E (list F))
    (emfun : option (Z -> F -> M E (F * F))) (steps : nat -> option Z)
    (tol : F) (maxterms : Z) (st : ae_state F) : M E F :=
  match fuel with
  | O => hang
  | S fuel' =>
    if (maxterms <=? idx st)%Z then ret (best st)
    else
      r <- ae_iteration update emfun steps tol st ;;
      match r with
      | Return_ v => ret v
      | Continue st' => ae_loop fuel' update emfun steps tol maxterms st'
      end
  end.

Definition option_default {A} (o : option A) (d : A) : A :=
  match o with Some a => a | None => d end.

(** Lines 472-475: TRY_RICHARDSON, TRY_SHANKS, TRY_EULER_MACLAURIN. *)
Definition method_flags (method : list String.string) : bool * bool * bool :=
  (str_in "r" method || str_in "richardson" method,
   str_in "s" method || str_in "shanks" method,
   str_in "e" method || str_in "euler-maclaurin" method).

(** Lines 468-475. *)
Definition parse_method (method : list String.string)
    : res (bool * bool * bool) :=
  if method_in_direct method then Raise NameError   (* [self] is not defined *)
  else Ret (method_flags method).

Definition ae_init (O : NumOps F) (tr ts te : bool) : ae_state F :=
  {| TRY_RICHARDSON := tr; TRY_SHANKS := ts; TRY_EULER_MACLAURIN := te;
     last_richardson_value := lift O 0;
     shanks_table := []; idx := 0; step := 10; steps_pos := 0;
     partial := []; best := mpf O 0; error := lift O 0; maxc := None |}.

Definition adaptive_extrapolation (fuel : nat)
    (update : list F -> Z -> Z -> M E (list F))
    (emfun : option (Z -> F -> M E (F * F))) (kw : kwargs F) : M E F :=
  p0 <- get_prec ;;
  let O0 := arith p0 in
  let tol := option_default (kw_tol kw) (div O0 (eps O0) (lift O0 (2 ^ 10))) in
  let maxterms := option_default (kw_maxterms kw) (dps_of_prec p0 * 10)%Z in
  let method := split_plus (option_default (kw_method kw) "r+s"%string)
                           String.EmptyString in
  let steps := option_default (kw_steps kw) default_steps in
  '(tr, ts, te) <- liftR (parse_method method) ;;
  let st := ae_init O0 tr ts te in
  orig <- get_prec ;;
  try_finally
    (set_prec (if tr || ts then orig * 4 else orig + 30)%Z ;;;
     ae_loop fuel update emfun steps tol maxterms st)
    (set_prec orig).
End Orchestrator.

(* ------------------------------------------------------------------ *)
(** * [nsum] (lines 820-848) *)

Section Nsum.
Context {E F : Type}.
Variable arith : Z -> NumOps F.
Variable R : Rng.
Variable dps_of_prec : Z -> Z.
Variable diffs : (point F -> M E F) -> point F -> iterator E F.
Variable quad : (point F -> M E F) -> point F * point F -> M E (F * F).

Local Open Scope M_scope.

(** [xrange(lo, hi)]. *)
Definition xrange (lo hi : Z) : list Z :=
  map (fun i => (lo + Z.of_nat i)%Z) (List.seq 0 (Z.to_nat (hi - lo))).

(** The loop of [update]: [psum = psum + f(a + mpf(k))]. *)
Fixpoint update_loop (f : point F -> M E F) (a : Z) (ks : list Z)
    (psum : F) (partial_sums : list F) : M E (list F) :=
  match ks with
  | [] => ret partial_sums
  | k :: ks' =>
    p <- get_prec ;;
    y <- f (Fin (add (arith p) (lift (arith p) a) (mpf (arith p) k))) ;;
    p <- get_prec ;;
    let psum := add (arith p) psum y in
    update_loop f a ks' psum (partial_sums ++ [psum])
  end.

Definition update (f : point F -> M E F) (a : Z) (partial_sums : list F)
    (lo hi : Z) : M E (list F) :=
  p <- get_prec ;;
  let psum := match partial_sums with
              | [] => mpf (arith p) 0
              | _ => last partial_sums (mpf (arith p) 0)
              end in
  update_loop f a (xrange lo hi) psum partial_sums.

Definition emfun (fuel : nat) (f : point F -> M E F) (prec0 : Z)
    (pt : Z) (tol : F) : M E (F * F) :=
  workprec <- get_prec ;;
  set_prec (prec0 + 10) ;;;
  p <- get_prec ;;
  v <- sumem arith diffs quad fuel f (Fin (mpf (arith p) pt), PosInf)
         (Some tol) (lift (arith p) 10) None None None true ;;
  set_prec workprec ;;;
  match v with
  | WithError s err => ret (s, err)
  | Estimate s => raise TypeError      (* a number does not unpack *)
  end.

(** The code below the test [a == -inf] (lines 825-848). *)
Definition nsum_forward (fuel : nat) (f : point F -> M E F)
    (a b : point Z) (kw : kwargs F) : M E F :=
  if negb (is_posinf b) then raise NotImplementedError else
  match a with
  | Fin a =>
    prec0 <- get_prec ;;
    v <- adaptive_extrapolation arith R dps_of_prec fuel
           (update f a) (Some (emfun fuel f prec0)) kw ;;
    p <- get_prec ;;
    ret (uplus (arith p) v)
  | _ => raise ValueError              (* int(a) of an infinity *)
  end.

(** [lambda k: f(-k) + f(k)]. *)
Definition paired (f : point F -> M E F) (k : point F) : M E F :=
  p <- get_prec ;;
  x <- f (neg_point (neg (arith p)) k) ;;
  y <- f k ;;
  p <- get_prec ;;
  ret (add (arith p) x y).

Definition nsum (fuel : nat) (f : point F -> M E F)
    (interval : point Z * point Z) (kw : kwargs F) : M E F :=
  let '(a, b) := interval in
  if is_neginf a then
    if is_posinf b then
      p <- get_prec ;;
      x <- f (Fin (lift (arith p) 0)) ;;
      y <- nsum_forward fuel (paired f) (Fin 1%Z) PosInf kw ;;
      p <- get_prec ;;
      ret (add (arith p) x y)
    else nsum_forward fuel f (neg_point Z.opp b) PosInf kw
  else nsum_forward fuel f a b kw.
End Nsum.

(* ------------------------------------------------------------------ *)
(** * Exact rational arithmetic as an instance of the collaborator *)

Module QNum.
Definition qsign (x : Q) : Q :=
  match x ?= 0 with
  | Lt => (-1 # 1)
  | Eq => 0
  | Gt => 1
  end.

Fixpoint fact (n : nat) : Z :=
  match n with
  | O => 1
  | S m => Z.of_nat (S m) * fact m
  end.

Definition zfact (n : Z) : Z := fact (Z.to_nat n).

(** Bernoulli numbers by B_m = -1/(m+1) * sum_{k<m} C(m+1,k) B_k;
    [bern_upto n] lists B_n, ..., B_0. *)
Fixpoint binom (n k : nat) : Z :=
  match n, k with
  | _, O => 1
  | O, S _ => 0
  | S n', S k' => binom n' k' + binom n' (S k')
  end.

Fixpoint bern_sum (m : nat) (bs : list Q) (k : nat) : Q :=
  (* bs = B_k, B_(k-1), ..., B_0 *)
  match bs with
  | [] => 0
  | b :: bs' => (inject_Z (binom (S m) k) * b + bern_sum m bs' (pred k))%Q
  end.

Fixpoint bern_upto (n : nat) : list Q :=
  match n with
  | O => [1%Q]
  | S m =>
    let bs := bern_upto m in
    Qred (- (bern_sum (S m) bs m) / inject_Z (Z.of_nat (S m) + 1)) :: bs
  end.

Definition qbernoulli (n : Z) : Q :=
  match bern_upto (Z.to_nat n) with
  | b :: _ => b
  | [] => 0
  end.

Definition ops (prec : Z) : NumOps Q := {|
  mpf := inject_Z;
  lift := inject_Z;
  add := fun x y => Qred (x + y);
  sub := fun x y => Qred (x - y);
  mul := fun x y => Qred (x * y);
  div := fun x y => Qred (x / y);
  neg := fun x => Qred (- x);
  powi := fun x n => Qred (x ^ n);
  absf := Qabs;
  sign := qsign;
  is_zero := fun x => Qeq_bool x 0;
  eqb := Qeq_bool;
  leb := Qle_bool;
  ltb := fun x y => negb (Qle_bool y x);
  ae := fun x y => Qle_bool (Qabs (x - y)) (2 ^ (4 - prec));
  eps := Qred (2 ^ (1 - prec));
  uplus := fun x => x;
  bernoulli := qbernoulli;
  factorial := fun n => inject_Z (zfact n);
  int_fac := zfact
|}.

(** [mp.dps] for a precision:
    max(1, int(round(prec / 3.3219280948873626) - 1)). *)
Definition dps (prec : Z) : Z :=
  Z.max 1 ((2 * prec * 10 ^ 16 + 33219280948873626)
           / (2 * 33219280948873626) - 1).

(** A generator that always draws the same value. *)
Definition const_rng (v : Z) : Rng := {|
  rng_state := unit;
  seed := fun _ => tt;
  getrandbits := fun g _ => (v, g)
|}.
End QNum.

(* ------------------------------------------------------------------ *)
(** * Tables of [shanks] *)

Section ShanksTables.
Context {F : Type} {R : Rng}.

(** The table a call ends with. *)
Definition exit_table (e : rows_exit F R) : table F :=
  match e with
  | Fallthrough t _ => t
  | Returned t => t
  end.

Definition result_table (r : res (rows_exit F R)) : res (table F) :=
  match r with
  | Ret e => Ret (exit_table e)
  | Raise x => Raise x
  end.

(** Row k of a table has k+1 entries. *)
Definition wf_table (t : table F) : Prop :=
  forall k row, nth_error t k = Some row -> length row = S k.

(** What the deterministic loop over rows i, ..., i+n-1 ends with. *)
Definition det_exit_ok (i n : nat) (cur : table F) (e : rows_exit F R) : Prop :=
  match e with
  | Fallthrough t _ =>
      length t = (i + n)%nat /\ wf_table t /\ exists rows, t = cur ++ rows
  | Returned t =>
      wf_table t /\ Nat.even (length t) = true /\
      ((exists rows, t = cur ++ rows) \/
       (Nat.odd i = true /\ t = removelast cur))
  end.

End ShanksTables.

Module RichardsonSpec.
(** The weight c_k = (-1)^(k+N) (N+k)^N / (k! (N-k)!) of the specification. *)
Definition weight (N k : nat) : Q :=
  inject_Z ((-1) ^ Z.of_nat (k + N) * Z.of_nat (N + k) ^ Z.of_nat N)
  / inject_Z (QNum.fact k * QNum.fact (N - k)).

(** The sum of c_k * seq[N+k] over k < n. *)
Fixpoint weighted_sum (N : nat) (seq : list Q) (n : nat) : Q :=
  match n with
  | O => 0
  | S k => weighted_sum N seq k + weight N k * nth (N + k) seq 0
  end.

(** What [maxc] is after the weights before [j] have been seen. *)
Definition maxc_inv (N j : nat) (m : Q) : Prop :=
  1 <= m /\
  (forall k, (k < j)%nat -> Qabs (weight N k) <= m) /\
  (m == 1 \/ exists k, (k < j)%nat /\ m == Qabs (weight N k)).
End RichardsonSpec.

(* ------------------------------------------------------------------ *)
(** * Concrete callers

    Term functions over the rationals that log the points at which they
    are evaluated, and collaborators that answer zero; the runs that the
    properties below evaluate are built from them. *)

Module Demo.
Definition log := list Q.

(** A term function with values [g], logging its argument. *)
Definition term (g : Q -> Q) (x : point Q) : M log Q :=
  fun w =>
    match x with
    | Fin q => Done (Ret (g q)) {| prec := prec w; ext := q :: ext w |}
    | _ => Done (Raise (UserError 0)) w
    end.

(** A term function that fails at every point. *)
Definition failing (x : point Q) : M log Q := raise (UserError 1).

(** Derivatives that are all zero. *)
Definition diffs0 (f : point Q -> M log Q) (x : point Q) : iterator log Q :=
  fun _ => ret (Some 0).

(** A quadrature that answers 0 with error 0. *)
Definition quad0 (f : point Q -> M log Q) (i : point Q * point Q)
    : M log (Q * Q) := ret (0, 0).

(** The schedule [steps=[n]]. *)
Definition one_step (n : Z) (i : nat) : option Z :=
  match i with
  | O => Some n
  | S _ => None
  end.

Definition options (tol : Q) (maxterms : option Z) (method : string)
    (steps : nat -> option Z) : kwargs Q :=
  {| kw_tol := Some tol; kw_maxterms := maxterms;
     kw_method := Some method; kw_steps := Some steps |}.

Definition start : world log := {| prec := 53; ext := [] |}.

Definition nsumQ := nsum (E:=log) QNum.ops (QNum.const_rng 1) QNum.dps diffs0 quad0.

Definition sumemQ := sumem (E:=log) QNum.ops diffs0 quad0.

Definition two_pow (q : Q) : Q := 2 ^ Qnum q.

Definition alternating (q : Q) : Q := (-1) ^ Qnum q / (q + 1).
End Demo.

(** An iterator that yields the values of [d] and has no effect. *)
Definition pure_iter {E F} (d : nat -> F) : iterator E F :=
  fun k => ret (Some (d k)).

(** The correction term of order k+1 (line 423), for a nonzero factorial. *)
Definition em_term {F} (O : NumOps F) (da db : nat -> F) (k : nat) : F :=
  div O (mul O (sub O (db k) (da k)) (bernoulli O (Z.of_nat k + 1)))
        (factorial O (Z.of_nat k + 1)).

Module DemoIter.
(** Zero derivatives, logging the order that is asked for. *)
Definition logged_zeros : iterator Demo.log Q :=
  fun k w => Done (Ret (Some 0))
                  {| prec := prec w; ext := inject_Z (Z.of_nat k) :: ext w |}.
End DemoIter.

(** The method tags that [adaptive_extrapolation] looks for. *)
Definition known_tags : list string :=
  ["r"; "richardson"; "s"; "shanks"; "e"; "euler-maclaurin"]%string.

Definition has_known_tag (method : list string) : bool :=
  existsb (fun t => str_in t method) known_tags.

(** The list [method] of line 464. *)
Definition ae_method {F} (kw : kwargs F) : list string :=
  split_plus (option_default (kw_method kw) "r+s"%string) EmptyString.

(** The size of the first batch: the first value of [steps], or the
    initial [step = 10] when [steps] yields nothing. *)
Definition first_step {F} (kw : kwargs F) : Z :=
  fst (next_step (option_default (kw_steps kw) default_steps) 0 10).

(** The precision inside the [try] of line 484. *)
Definition elevated {F} (kw : kwargs F) (p : Z) : Z :=
  let '(tr, ts, _) := method_flags (ae_method kw) in
  if tr || ts then (p * 4)%Z else (p + 30)%Z.

Definition with_method {F} (kw : kwargs F) (m : string) : kwargs F :=
  {| kw_tol := kw_tol kw; kw_maxterms := kw_maxterms kw;
     kw_method := Some m; kw_steps := kw_steps kw |}.

(* ------------------------------------------------------------------ *)
(** * [difference_delta] (lines 1090-1095) and [polyval] (lines 1450-1461) *)

Section Polynomials.
Context {F : Type} (O : NumOps F).

(** The body of [for k in xrange(n+1)], on the state (d, b); [b] is a
    Python int and [//] is floor division. *)
Definition difference_delta_step (s : list F) (n k : nat) (st : F * Z)
    : res (F * Z) :=
  let '(d, b) := st in
  (x <- index s k ;;
   Ret (add O d (mul O (lift O b) x),
        (b * (Z.of_nat k - Z.of_nat n)) / (Z.of_nat k + 1))%Z)%res.

Fixpoint difference_delta_loop (ks : list nat) (s : list F) (n : nat)
    (st : F * Z) : res (F * Z) :=
  match ks with
  | [] => Ret st
  | k :: ks' =>
    (st' <- difference_delta_step s n k st ;;
     difference_delta_loop ks' s n st')%res
  end.

(** [n] is the order of the difference, a natural number. *)
Definition difference_delta (s : list F) (n : nat) : res F :=
  let d := mpf O 0 in
  let b := ((-1) ^ Z.land (Z.of_nat n) 1)%Z in
  ('(d, _) <- difference_delta_loop (List.seq 0 (n + 1)) s n (d, b) ;;
   Ret d)%res.

(** The same loop with the weights (-1)^(k+n) C(n,k) written out. *)
Fixpoint delta_fold (ks : list nat) (s : list F) (n : nat) (d : F) : res F :=
  match ks with
  | [] => Ret d
  | k :: ks' =>
    (x <- index s k ;;
     delta_fold ks' s n
       (add O d (mul O (lift O ((-1) ^ Z.of_nat (k + n) * QNum.binom n k)) x)))%res
  end.

(** What [polyval] returns: a number, or the pair (P(x), P'(x)). *)
Inductive polyval_result : Type :=
| Value (p : F)
| ValueAndDerivative (p q : F).

(** [for c in coeffs[1:]], on the state (p, q). *)
Fixpoint polyval_loop (cs : list F) (x : F) (derivative : bool) (p q : F)
    : F * F :=
  match cs with
  | [] => (p, q)
  | c :: cs' =>
    let q := if derivative then add O p (mul O x q) else q in
    let p := add O c (mul O x p) in
    polyval_loop cs' x derivative p q
  end.

(** The coefficients are numbers of the carrier already, on which
    [mpnumeric] is the identity. *)
Definition polyval (coeffs : list F) (x : F) (derivative : bool)
    : polyval_result :=
  match coeffs with
  | [] => Value (mpf O 0)
  | c0 :: rest =>
    let '(p, q) := polyval_loop rest x derivative c0 (mpf O 0) in
    if derivative then ValueAndDerivative p q else Value p
  end.
End Polynomials.
Arguments polyval_result : clear implicits.
Arguments Value {F} p.
Arguments ValueAndDerivative {F} p q.

Module PolySpec.
(** x^n. *)
Fixpoint qpow (x : Q) (n : nat) : Q :=
  match n with
  | O => 1
  | S m => x * qpow x m
  end.

(** n x^(n-1), the derivative of x^n. *)
Definition qdpow (x : Q) (n : nat) : Q :=
  match n with
  | O => 0
  | S m => inject_Z (Z.of_nat (S m)) * qpow x m
  end.

(** c_n x^n + ... + c_1 x + c_0 for the coefficients [c_n; ...; c_0]. *)
Fixpoint poly_sum (cs : list Q) (x : Q) : Q :=
  match cs with
  | [] => 0
  | c :: cs' => c * qpow x (length cs') + poly_sum cs' x
  end.

(** The derivative n c_n x^(n-1) + ... + c_1 of that polynomial. *)
Fixpoint poly_dsum (cs : list Q) (x : Q) : Q :=
  match cs with
  | [] => 0
  | c :: cs' => c * qdpow x (length cs') + poly_dsum cs' x
  end.

(** The sum over k < j of (-1)^(k+n) C(n,k) s_k. *)
Fixpoint delta_sum (n : nat) (s : list Q) (j : nat) : Q :=
  match j with
  | O => 0
  | S k => delta_sum n s k
           + inject_Z ((-1) ^ Z.of_nat (k + n) * QNum.binom n k) * nth k s 0
  end.
End PolySpec.

(* ------------------------------------------------------------------ *)
(** * The ODE solvers (lines 1612-1675) *)

Section Vectors.
Context {F : Type} (O : NumOps F).

(** [smul(a, x)]. *)
Definition smul (a : F) (x : list F) : list F := map (mul O a) x.

(** [s = args[0][i]; for x in rest: s += x[i]]. *)
Fixpoint vadd_entry (rest : list (list F)) (i : nat) (s : F) : res F :=
  match rest with
  | [] => Ret s
  | x :: rest' =>
    (xi <- index x i ;; vadd_entry rest' i (add O s xi))%res
  end.

(** [for i in range(n)]. *)
Fixpoint vadd_entries (ixs : list nat) (first : list F)
    (rest : list (list F)) : res (list F) :=
  match ixs with
  | [] => Ret []
  | i :: ixs' =>
    (s0 <- index first i ;;
     s <- vadd_entry rest i s0 ;;
     R <- vadd_entries ixs' first rest ;;
     Ret (s :: R))%res
  end.

(** [vadd], given the list of its arguments. *)
Definition vadd (args : list (list F)) : res (list F) :=
  if (length args <? 2)%nat then Raise AssertionError else
  match args with
  | [] => Raise IndexError
  | first :: rest =>
    let n := length first in
    if forallb (fun x => (length x =? n)%nat) args
    then vadd_entries (List.seq 0 n) first rest
    else Raise AssertionError
  end.
End Vectors.

Section ODE.
Context {E F : Type}.
Variable arith : Z -> NumOps F.
Variable ldexp : F -> Z -> F.   (* functions.ldexp(x, n): x * 2**n, exact *)
Variable half : F.              (* the module constant [half = mpf(0.5)] *)

Local Open Scope M_scope.

(** [derivs(y, x)]: the state is passed first. *)
Definition derivs_fun : Type := list F -> F -> M E (list F).

Definition ODE_step_euler (x : F) (y : list F) (h : F) (derivs : derivs_fun)
    : M E (list F) :=
  X <- derivs y x ;;
  p <- get_prec ;;
  liftR (vadd (arith p) [y; smul (arith p) h X]).

(** The last loop of [ODE_step_rk4]. *)
Fixpoint rk4_combine (O : NumOps F) (ixs : list nat) (third : F)
    (y k1 k2 k3 k4 : list F) : res (list F) :=
  match ixs with
  | [] => Ret []
  | i :: ixs' =>
    (yi <- index y i ;;
     a2 <- index k2 i ;;
     a3 <- index k3 i ;;
     a1 <- index k1 i ;;
     a4 <- index k4 i ;;
     v <- rk4_combine O ixs' third y k1 k2 k3 k4 ;;
     Ret (add O yi (mul O third (add O (add O a2 a3)
                                       (mul O half (add O a1 a4)))) :: v))%res
  end.

Definition ODE_step_rk4 (x : F) (y : list F) (h : F) (derivs : derivs_fun)
    : M E (list F) :=
  let h2 := ldexp h (-1) in
  p <- get_prec ;;
  let third := div (arith p) (mpf (arith p) 1) (lift (arith p) 3) in
  d1 <- derivs y x ;;
  p <- get_prec ;;
  let k1 := smul (arith p) h d1 in
  y2 <- liftR (vadd (arith p) [y; smul (arith p) half k1]) ;;
  d2 <- derivs y2 (add (arith p) x h2) ;;
  p <- get_prec ;;
  let k2 := smul (arith p) h d2 in
  y3 <- liftR (vadd (arith p) [y; smul (arith p) half k2]) ;;
  d3 <- derivs y3 (add (arith p) x h2) ;;
  p <- get_prec ;;
  let k3 := smul (arith p) h d3 in
  y4 <- liftR (vadd (arith p) [y; k3]) ;;
  d4 <- derivs y4 (add (arith p) x h) ;;
  p <- get_prec ;;
  let k4 := smul (arith p) h d4 in
  liftR (rk4_combine (arith p) (List.seq 0 (length y)) third y k1 k2 k3 k4).

(** [for i in range(len(t_list)-1)], on the state (x, result), with
    [step] already given [derivs]. *)
Fixpoint odeint_loop (step : F -> list F -> F -> M E (list F))
    (ixs : list nat) (t_list : list F) (x : list F)
    (result : list (list F)) : M E (list F * list (list F)) :=
  match ixs with
  | [] => ret (x, result)
  | i :: ixs' =>
    p <- get_prec ;;
    t1 <- liftR (index t_list (i + 1)) ;;
    t0 <- liftR (index t_list i) ;;
    let dt := sub (arith p) t1 t0 in
    ti <- liftR (index t_list i) ;;
    x' <- step ti x dt ;;
    odeint_loop step ixs' t_list x' (result ++ [x'])
  end.

Definition odeint (step : F -> list F -> F -> M E (list F))
    (x0 : list F) (t_list : list F) : M E (list (list F)) :=
  xr <- odeint_loop step (List.seq 0 (length t_list - 1)) t_list x0 [x0] ;;
  ret (snd xr).
End ODE.

Module QOde.
(** [ldexp] on the rationals. *)
Definition qldexp (x : Q) (n : Z) : Q := Qred (x * 2 ^ n).

Definition rk4 := ODE_step_rk4 (E:=Demo.log) QNum.ops qldexp (1 # 2).

Definition euler := ODE_step_euler (E:=Demo.log) QNum.ops.

(** The derivative function of y' = g(x). *)
Definition quadrature_rhs (g : Q -> Q) : derivs_fun (E:=Demo.log) (F:=Q) :=
  fun y x => ret [g x].

(** The derivative function of y' = lam * y. *)
Definition linear_rhs (lam : Q) : derivs_fun (E:=Demo.log) (F:=Q) :=
  fun y x => ret (map (Qmult lam) y).
End QOde.

(* ------------------------------------------------------------------ *)
(** * [fsum], [fprod] (lines 40-89) and [diff] (lines 1192-1225) *)

Section FiniteSums.
Context {E F : Type}.
Variable arith : Z -> NumOps F.

Local Open Scope M_scope.

(** The one- and two-argument forms of [fsum] and [fprod]:
    an iterable of numbers, or a function with the pair of the integers
    [int(a)], [int(b)].  Any other number of arguments raises ValueError,
    which is not modelled. *)
Inductive fargs : Type :=
| Terms (xs : list F)
| Range (f : F -> M E F) (a b : Z).

(** [sum(xs, start)] and [for p in xs: v *= p]. *)
Fixpoint fold_terms (op : NumOps F -> F -> F -> F) (xs : list F) (v : F)
    : M E F :=
  match xs with
  | [] => ret v
  | x :: xs' =>
    p <- get_prec ;;
    fold_terms op xs' (op (arith p) v x)
  end.

(** The same over [f(mpf(k)) for k in ks]. *)
Fixpoint fold_range (op : NumOps F -> F -> F -> F) (f : F -> M E F)
    (ks : list Z) (v : F) : M E F :=
  match ks with
  | [] => ret v
  | k :: ks' =>
    p <- get_prec ;;
    y <- f (mpf (arith p) k) ;;
    p <- get_prec ;;
    fold_range op f ks' (op (arith p) v y)
  end.

Definition fold_args (op : NumOps F -> F -> F -> F) (unit : Z)
    (args : fargs) : M E F :=
  orig <- get_prec ;;
  v <- try_finally
         (set_prec (orig + 10) ;;;
          p <- get_prec ;;
          match args with
          | Terms xs => fold_terms op xs (mpf (arith p) unit)
          | Range f a b =>
            fold_range op f (xrange a (b + 1)) (mpf (arith p) unit)
          end)
         (set_prec orig) ;;
  p <- get_prec ;;
  ret (uplus (arith p) v).

Definition fsum : fargs -> M E F := fold_args (fun O => add O) 0.

Definition fprod : fargs -> M E F := fold_args (fun O => mul O) 1.
End FiniteSums.
Arguments Terms {E F} xs.
Arguments Range {E F} f a b.

Section Diff.
Context {E F : Type}.
Variable arith : Z -> NumOps F.
Variable ldexp : F -> Z -> F.   (* functions.ldexp(x, n): x * 2**n, exact *)

Local Open Scope M_scope.

(** [[f(x+k*h) for k in steps]]. *)
Fixpoint diff_samples (f : F -> M E F) (x h : F) (steps : list Z)
    : M E (list F) :=
  match steps with
  | [] => ret []
  | k :: steps' =>
    p <- get_prec ;;
    y <- f (add (arith p) x (mul (arith p) (lift (arith p) k) h)) ;;
    ys <- diff_samples f x h steps' ;;
    ret (y :: ys)
  end.

(** [xrange(-n, n+1, 2)]. *)
Definition central_steps (n : nat) : list Z :=
  map (fun i => (2 * Z.of_nat i - Z.of_nat n)%Z) (List.seq 0 (S n)).

(** [diff(f, x, n, method='step', scale, direction)] for an order
    n >= 0; the methods 'quad' and the ValueError of any other method are
    not modelled. *)
Definition diff (f : F -> M E F) (x : F) (n : nat) (scale direction : F)
    : M E F :=
  if (n =? 0)%nat then f x else
  orig <- get_prec ;;
  v <- try_finally
         (set_prec ((orig + 20) * (Z.of_nat n + 1)) ;;;
          p <- get_prec ;;
          let O := arith p in
          let h := ldexp scale (- orig - 10) in
          (* Directed: steps x, x+h, ... x+n*h *)
          let directed := negb (is_zero O direction) in
          let h := if directed then mul O h (sign O direction) else h in
          let steps := if directed then xrange 0 (Z.of_nat n + 1)
                       (* Central: steps x-n*h, x-(n-2)*h ..., x+n*h *)
                       else central_steps n in
          let norm := if directed then powi O h (Z.of_nat n)
                      else powi O (mul O (lift O 2) h) (Z.of_nat n) in
          ys <- diff_samples f x h steps ;;
          p <- get_prec ;;
          v <- liftR (difference_delta (arith p) ys n) ;;
          liftR (pdiv (arith p) v norm))
         (set_prec orig) ;;
  p <- get_prec ;;
  ret (uplus (arith p) v).
End Diff.

Module QDiff.
(** [diff] in exact arithmetic, for a function without effects. *)
Definition pure (g : Q -> Q) : Q -> M Demo.log Q := fun t => ret (g t).

Definition diffQ := diff (E:=Demo.log) QNum.ops QOde.qldexp.

(** The step of [diff] at precision [p]: scale * 2^(-p-10). *)
Definition step_size (scale : Q) (p : Z) : Q := QOde.qldexp scale (- p - 10).

Definition quadratic (a b c : Q) (t : Q) : Q := a * t * t + b * t + c.

Definition cubic (a b c d : Q) (t : Q) : Q :=
  a * t * t * t + b * t * t + c * t + d.
End QDiff.

(* ------------------------------------------------------------------ *)
(** * [chebT] (lines 1699-1709) *)

(** [l[i] = v]: Python raises IndexError out of range. *)
Definition set_item {A} (l : list A) (i : nat) (v : A) : res (list A) :=
  if (i <? length l)%nat then Ret (firstn i l ++ v :: skipn (S i) l)
  else Raise IndexError.

(** [enumerate(l)]. *)
Definition enumerate {A} (l : list A) : list (nat * A) :=
  combine (List.seq 0 (length l)) l.

Section ChebT.
Context {F : Type} (O : NumOps F).

Local Open Scope res_scope.

(** [for i, c in ics: Tmp[i] = op(Tmp[i], c)]. *)
Fixpoint accumulate (op : F -> F -> F) (Tmp : list F) (ics : list (nat * F))
    : res (list F) :=
  match ics with
  | [] => Ret Tmp
  | (i, c) :: ics' =>
    t <- index Tmp i ;;
    Tmp <- set_item Tmp i (op t c) ;;
    accumulate op Tmp ics'
  end.

(** The body of [while 1] after the [yield], on the state (Ta, Tb). *)
Definition chebT_next (a b : F) (st : list F * list F)
    : res (list F * list F) :=
  let '(Ta, Tb) := st in
  (* Recurrence: T[n+1](ax+b) = 2*(ax+b)*T[n](ax+b) - T[n-1](ax+b) *)
  let Tmp := lift O 0 :: map (fun t => mul O (mul O (lift O 2) a) t) Ta in
  Tmp <- accumulate (fun t c => add O t (mul O (mul O (lift O 2) b) c))
                    Tmp (enumerate Ta) ;;
  Tmp <- accumulate (fun t c => sub O t c) Tmp (enumerate Tb) ;;
  Ret (Tmp, Ta).

(** The state (Ta, Tb) when [Ta] is yielded for the n-th time, n >= 0. *)
Fixpoint chebT_state (a b : F) (n : nat) : res (list F * list F) :=
  match n with
  | 0%nat => Ret ([b; a], [lift O 1])
  | S m => st <- chebT_state a b m ;; chebT_next a b st
  end.

(** What the n-th call of [next] yields, counting from 0: [Tb] first,
    then [Ta] in each pass of the loop. *)
Definition chebT (a b : F) (n : nat) : res (list F) :=
  match n with
  | 0%nat => Ret [lift O 1]
  | S m => '(Ta, _) <- chebT_state a b m ;; Ret Ta
  end.
End ChebT.

Section ZipPrefix.
Context {F : Type}.

(** What the loops over [enumerate] compute: the operation applied to a
    prefix of [Tmp], entry by entry. *)
Fixpoint zip_prefix (op : F -> F -> F) (tmp cs : list F) {struct cs}
    : list F :=
  match cs, tmp with
  | c :: cs', t :: tmp' => op t c :: zip_prefix op tmp' cs'
  | _, _ => tmp
  end.
End ZipPrefix.

Module ChebSpec.
(** The Chebyshev polynomials: T_0 = 1, T_1 = y,
    T_(n+2) = 2 y T_(n+1) - T_n; the pair (T_n(y), T_(n+1)(y)). *)
Fixpoint cheb_pair (y : Q) (n : nat) : Q * Q :=
  match n with
  | O => (1, y)
  | S m => let '(t0, t1) := cheb_pair y m in (t1, 2 * y * t1 - t0)
  end.

Definition cheb (n : nat) (y : Q) : Q := fst (cheb_pair y n).

(** c_0 + c_1 x + c_2 x^2 + ... for the coefficients [c_0; c_1; ...]. *)
Fixpoint eval_asc (cs : list Q) (x : Q) : Q :=
  match cs with
  | [] => 0
  | c :: cs' => c + x * eval_asc cs' x
  end.
End ChebSpec.

(* ------------------------------------------------------------------ *)
(** * [chebcoeff] (lines 1690-1696) and [chebyfit] (lines 1786-1810) *)

(** The local variables of [chebyfit] that its [finally] clause reads;
    [None] for a name that is not bound yet. *)
Record cheb_locals (F : Type) : Type := {
  loc_d : option (list F);
  loc_err : option F
}.

Section Chebyfit.
Context {E F : Type}.
Variable arith : Z -> NumOps F.
Variable cos : Z -> F -> F.     (* functions.cos at a working precision *)
Variable pi : Z -> F.           (* the constant pi at a working precision *)
Variable half : F.              (* mpf(0.5) *)

Local Open Scope M_scope.

(** [for k in range(1, N+1)] of [chebcoeff], on [s]; the divisor [N] is
    a Python int that is at least 1 inside the loop. *)
Fixpoint chebcoeff_loop (f : F -> M E F) (a b : F) (j N : nat)
    (ks : list nat) (s : F) : M E F :=
  match ks with
  | [] => ret s
  | k :: ks' =>
    p <- get_prec ;;
    let O := arith p in
    let h := half in
    let t := cos p (div O (mul O (pi p) (sub O (lift O (Z.of_nat k)) h))
                          (lift O (Z.of_nat N))) in
    y <- f (add O (mul O (mul O t (sub O b a)) h) (mul O (add O b a) h)) ;;
    p <- get_prec ;;
    let O := arith p in
    let c := cos p (div O (mul O (mul O (pi p) (lift O (Z.of_nat j)))
                                 (sub O (lift O (Z.of_nat k)) h))
                          (lift O (Z.of_nat N))) in
    chebcoeff_loop f a b j N ks' (add O s (mul O y c))
  end.

Definition chebcoeff (f : F -> M E F) (a b : F) (j N : nat) : M E F :=
  p <- get_prec ;;
  s <- chebcoeff_loop f a b j N (List.seq 1 N) (mpf (arith p) 0) ;;
  p <- get_prec ;;
  if (N =? 0)%nat then raise ZeroDivisionError
  else ret (div (arith p) (mul (arith p) (lift (arith p) 2) s)
                (lift (arith p) (Z.of_nat N))).

(** [[chebcoeff(f,a,b,k,N) for k in ks]]. *)
Fixpoint chebcoeffs (f : F -> M E F) (a b : F) (N : nat) (ks : list nat)
    : M E (list F) :=
  match ks with
  | [] => ret []
  | k :: ks' =>
    c <- chebcoeff f a b k N ;;
    cs <- chebcoeffs f a b N ks' ;;
    ret (c :: cs)
  end.

(** [for i in range(len(Tk)): d[i] += c[k]*Tk[i]]; the list [d] is
    updated in place, so that an exception leaves it partly updated: the
    result is [d] and the pending exception, if any. *)
Fixpoint cheb_add_row (O : NumOps F) (c : list F) (k : nat) (Tk : list F)
    (ixs : list nat) (d : list F) : list F * option exn :=
  match ixs with
  | [] => (d, None)
  | i :: ixs' =>
    match (di <- index d i ;;
           ck <- index c k ;;
           t <- index Tk i ;;
           set_item d i (add O di (mul O ck t)))%res with
    | Ret d' => cheb_add_row O c k Tk ixs' d'
    | Raise e => (d, Some e)
    end
  end.

(** [for k in range(N): Tk = T.next(); ...]. *)
Fixpoint cheb_rows (O : NumOps F) (c : list F) (A B : F) (ks : list nat)
    (d : list F) : list F * option exn :=
  match ks with
  | [] => (d, None)
  | k :: ks' =>
    match chebT O A B k with
    | Raise e => (d, Some e)
    | Ret Tk =>
      match cheb_add_row O c k Tk (List.seq 0 (length Tk)) d with
      | (d', None) => cheb_rows O c A B ks' d'
      | (d', Some e) => (d', Some e)
      end
    end
  end.

(** The loop that estimates the maximum error, on [err]; the result is
    [err] and the pending exception, if any. *)
Fixpoint cheb_error_loop (f : F -> M E F) (a b : F) (N : nat)
    (ks : list nat) (d : list F) (err : F) : M E (F * option exn) :=
  match ks with
  | [] => ret (err, None)
  | k :: ks' =>
    p <- get_prec ;;
    let O := arith p in
    let h := half in
    let x := add O (mul O (mul O (cos p (div O (mul O (pi p)
                                                      (lift O (Z.of_nat k)))
                                               (lift O (Z.of_nat N))))
                                 (sub O b a)) h)
                   (mul O (add O b a) h) in
    fun w =>
      match f x w with
      | Done (Ret y) w' =>
        (p <- get_prec ;;
         let O := arith p in
         match polyval O d x false with
         | Value v =>
           cheb_error_loop f a b N ks' d (fmax O err (absf O (sub O y v)))
         | ValueAndDerivative _ _ => ret (err, Some TypeError)
         end) w'
      | Done (Raise e) w' => Done (Ret (err, Some e)) w'
      | Hang => Hang
      end
  end.

(** Run [c] inside the [try] block: an exception leaves the block with
    the local variables [loc]. *)
Definition attempt {A} (c : M E A) (loc : cheb_locals F)
    (k : A -> M E (cheb_locals F * option exn))
    : M E (cheb_locals F * option exn) :=
  fun w =>
    match c w with
    | Done (Ret a) w' => k a w'
    | Done (Raise e) w' => Done (Ret (loc, Some e)) w'
    | Hang => Hang
    end.

(** The [try] block of [chebyfit], after the precision is raised: the
    local variables at its exit and the exception that left it, if
    any. *)
Definition chebyfit_body (f : F -> M E F) (a b : F) (N : nat)
    : M E (cheb_locals F * option exn) :=
  attempt (chebcoeffs f a b N (List.seq 0 N))
    {| loc_d := None; loc_err := None |}
    (fun c =>
  p <- get_prec ;;
  let O := arith p in
  let d := repeat (mpf O 0) N in
  attempt (liftR (c0 <- index c 0 ;;
                  set_item d 0 (div O (neg O c0) (lift O 2)))%res)
    {| loc_d := Some d; loc_err := None |}
    (fun d =>
  attempt (liftR (A <- pdiv O (mpf O 2) (sub O b a) ;;
                  B <- pdiv O (mul O (mpf O (-1)) (add O b a)) (sub O b a) ;;
                  Ret (A, B))%res)
    {| loc_d := Some d; loc_err := None |}
    (fun AB =>
  match cheb_rows O c (fst AB) (snd AB) (List.seq 0 N) d with
  | (d, Some e) => ret ({| loc_d := Some d; loc_err := None |}, Some e)
  | (d, None) =>
    let d := rev d in
    (* Estimate maximum error *)
    let err := mpf O 0 in
    r <- cheb_error_loop f a b N (List.seq 0 N) d err ;;
    ret ({| loc_d := Some d; loc_err := Some (fst r) |}, snd r)
  end))).

(** [chebyfit(f, [a, b], N, error)] for N >= 0 (below 2^52, where
    [int(N**0.5)] is the integer square root).  Both branches of the
    [finally] clause end in a [return], which discards the exception
    that left the [try] block; reading a name that is not bound raises
    UnboundLocalError.  The second component is the error estimate. *)
Definition chebyfit (f : F -> M E F) (a b : F) (N : nat) (error : bool)
    : M E (list F * option F) :=
  orig <- get_prec ;;
  set_prec (orig + Z.sqrt (Z.of_nat N) + 20) ;;;
  r <- chebyfit_body f a b N ;;
  set_prec orig ;;;
  match loc_d (fst r) with
  | None => raise UnboundLocalError
  | Some d =>
    if error then
      match loc_err (fst r) with
      | None => raise UnboundLocalError
      | Some err => p <- get_prec ;; ret (d, Some (uplus (arith p) err))
      end
    else ret (d, None)
  end.
End Chebyfit.

Module QCheb.
(** Rational stand-ins for [cos] and [pi], to run [chebyfit] on: the
    Taylor polynomial 1 - x^2/2 and 22/7. *)
Definition cosq (p : Z) (x : Q) : Q := Qred (1 - x * x / 2).

Definition piq (p : Z) : Q := 22 # 7.

Definition fit := chebyfit (E:=Demo.log) QNum.ops cosq piq (1 # 2).
End QCheb.

(* ------------------------------------------------------------------ *)
(** * [pade] (lines 1396-1422) *)

Section Pade.
Context {F : Type} (O : NumOps F).
(** [linalg.lu_solve(A, v)], on a matrix given by its rows and a column
    given by its entries. *)
Variable lu_solve : list (list F) -> list F -> res (list F).

Local Open Scope res_scope.

(** [matrix(n)]: the n x n matrix of zeros. *)
Definition matrix_zero (n : nat) : list (list F) :=
  repeat (repeat (mpf O 0) n) n.

(** [A[j, i] = v]. *)
Definition matrix_set (A : list (list F)) (j i : nat) (v : F)
    : res (list (list F)) :=
  row <- index A j ;;
  row' <- set_item row i v ;;
  set_item A j row'.

(** [for i in range(min(M, L+j+1)): A[j, i] = a[L+j-i]]. *)
Fixpoint pade_fill_row (a : list F) (L j : nat) (ixs : list nat)
    (A : list (list F)) : res (list (list F)) :=
  match ixs with
  | [] => Ret A
  | i :: ixs' =>
    v <- index a (L + j - i) ;;
    A' <- matrix_set A j i v ;;
    pade_fill_row a L j ixs' A'
  end.

(** [for j in range(M)]. *)
Fixpoint pade_fill (a : list F) (L M : nat) (js : list nat)
    (A : list (list F)) : res (list (list F)) :=
  match js with
  | [] => Ret A
  | j :: js' =>
    A' <- pade_fill_row a L j (List.seq 0 (Nat.min M (L + j + 1))) A ;;
    pade_fill a L M js' A'
  end.

(** [for j in range(1, min(M,i) + 1): s += q[j]*a[i-j]]. *)
Fixpoint pade_num_inner (a q : list F) (i : nat) (js : list nat) (s : F)
    : res F :=
  match js with
  | [] => Ret s
  | j :: js' =>
    qj <- index q j ;;
    x <- index a (i - j) ;;
    pade_num_inner a q i js' (add O s (mul O qj x))
  end.

(** [for i in range(L+1)]. *)
Fixpoint pade_num (a q : list F) (M : nat) (ixs : list nat) (p : list F)
    : res (list F) :=
  match ixs with
  | [] => Ret p
  | i :: ixs' =>
    s <- index a i ;;
    s <- pade_num_inner a q i (List.seq 1 (Nat.min M i)) s ;;
    p' <- set_item p i s ;;
    pade_num a q M ixs' p'
  end.

(** [pade(a, L, M)] for L, M >= 0. *)
Definition pade (a : list F) (L M : nat) : res (list F * list F) :=
  (* To determine L+1 coefficients of P and M coefficients of Q
     L+M+1 coefficients of A must be provided *)
  if (length a <? L + M + 1)%nat then Raise AssertionError else
  if (M =? 0)%nat then
    if (L =? 0)%nat then Ret ([mpf O 1], [mpf O 1])
    else Ret (firstn (L + 1) a, [mpf O 1])
  else
    A <- pade_fill a L M (List.seq 0 M) (matrix_zero M) ;;
    let v := map (neg O) (firstn M (skipn (L + 1) a)) in
    x <- lu_solve A v ;;
    let q := mpf O 1 :: x in
    (* compute p *)
    p <- pade_num a q M (List.seq 0 (L + 1)) (repeat (lift O 0) (L + 1)) ;;
    Ret (p, q).
End Pade.

Module PadeSpec.
(** The sum over k < n of q_k a_(i-k). *)
Fixpoint conv_sum (a q : list Q) (i n : nat) : Q :=
  match n with
  | O => 0
  | S k => conv_sum a q i k + nth k q 0 * nth (i - k) a 0
  end.

(** The coefficient of x^i in A(x) Q(x), for Q of degree M. *)
Definition product_coeff (a q : list Q) (M i : nat) : Q :=
  conv_sum a q i (S (Nat.min M i)).

(** The sum over i < n of row_i x_i. *)
Fixpoint dot (row x : list Q) (n : nat) : Q :=
  match n with
  | O => 0
  | S i => dot row x i + nth i row 0 * nth i x 0
  end.

(** [x] solves the square system [A x = v]. *)
Definition solves (A : list (list Q)) (x v : list Q) : Prop :=
  length x = length A /\
  forall j, (j < length A)%nat ->
    dot (nth j A []) x (length A) == nth j v 0.

(** A solver for systems of one equation. *)
Definition solve1 (A : list (list Q)) (v : list Q) : res (list Q) :=
  match A, v with
  | [[a]], [b] => if Qeq_bool a 0 then Raise ZeroDivisionError
                  else Ret [Qred (b / a)]
  | _, _ => Raise ZeroDivisionError
  end.
End PadeSpec.

(* ------------------------------------------------------------------ *)
(** * Arithmetic that rounds to the working precision *)

Module RNum.
(** [q] rounded to [prec] significant bits, to nearest with ties to
    even: with 2^fl <= |q| < 2^(fl+1), the result is an integer multiple
    of 2^(fl - prec + 1). *)
Definition round (prec : Z) (q : Q) : Q :=
  let n := Qnum q in
  let d := Zpos (Qden q) in
  if (n =? 0)%Z then 0 else
  let a := Z.abs n in
  let k := (Z.log2 a - Z.log2 d)%Z in
  let fl := if (if 0 <=? k then d * 2 ^ k <=? a
                else d <=? a * 2 ^ (- k))%Z
            then k else (k - 1)%Z in
  let e := (fl - prec + 1)%Z in
  let '(num, den) := if (0 <=? e)%Z then (a, (d * 2 ^ e)%Z)
                     else ((a * 2 ^ (- e))%Z, d) in
  let m := (num / den)%Z in
  let r := (num mod den)%Z in
  let m := match (2 * r ?= den)%Z with
           | Gt => (m + 1)%Z
           | Eq => if Z.odd m then (m + 1)%Z else m
           | Lt => m
           end in
  Qred (inject_Z (Z.sgn n * m) * 2 ^ e).

(** Modelled from the spec: the arbitrary-precision value type at a
    working precision of [prec] bits, whose implementation (mpmath's
    libmpf) is not among the sources.  Every operation returns its exact
    result rounded to [prec] significant bits, to nearest with ties to
    even, which is mpmath's default rounding; a Python int that meets an
    mpf is converted exactly; a negative integer power is the rounded
    reciprocal of the power taken with 5 more bits. *)
Definition ops (prec : Z) : NumOps Q := {|
  mpf := fun n => round prec (inject_Z n);
  lift := inject_Z;
  add := fun x y => round prec (x + y);
  sub := fun x y => round prec (x - y);
  mul := fun x y => round prec (x * y);
  div := fun x y => round prec (x / y);
  neg := fun x => round prec (- x);
  powi := fun x n =>
    if (n <? 0)%Z then round prec (1 / round (prec + 5) (x ^ (- n)))
    else round prec (x ^ n);
  absf := fun x => round prec (Qabs x);
  sign := QNum.qsign;
  is_zero := fun x => Qeq_bool x 0;
  eqb := Qeq_bool;
  leb := Qle_bool;
  ltb := fun x y => negb (Qle_bool y x);
  ae := fun x y =>
    let diff := round prec (Qabs (round prec (x - y))) in
    let m := if Qle_bool (Qabs y) (Qabs x) then Qabs x else Qabs y in
    Qle_bool diff (2 ^ (4 - prec)) ||
    Qle_bool (round prec (diff / m)) (2 ^ (4 - prec));
  eps := Qred (2 ^ (1 - prec));
  uplus := round prec;
  bernoulli := fun n => round prec (QNum.qbernoulli n);
  factorial := fun n => round prec (inject_Z (QNum.zfact n));
  int_fac := QNum.zfact
|}.
End RNum.

(* ------------------------------------------------------------------ *)
(** * The generator of Python's [random.Random]

    CPython's [random.Random] is the Mersenne Twister MT19937: [seed(n)]
    for an int [n] is [init_by_array] on the 32-bit words of |n|, and
    [getrandbits(k)] for k <= 32 is the top [k] bits of the next 32-bit
    output. *)

Module MT.
Definition N : nat := 624.
Definition M : nat := 397.
Definition MATRIX_A : Z := 0x9908b0df.
Definition UPPER_MASK : Z := 0x80000000.
Definition LOWER_MASK : Z := 0x7fffffff.

(** A value as a C [uint32_t]. *)
Definition u32 (x : Z) : Z := (x mod 2 ^ 32)%Z.

(** [mt[i]] and [mt[i] = v] on the state vector. *)
Definition get (mt : list Z) (i : nat) : Z := nth i mt 0%Z.

Definition set (mt : list Z) (i : nat) (v : Z) : list Z :=
  firstn i mt ++ v :: skipn (S i) mt.

(** The state: the vector [mt] and the position [index] in it. *)
Definition state : Type := list Z * nat.

(** [init_genrand(s)]: mt[0] = s, mt[i] = 1812433253 * (mt[i-1] ^
    (mt[i-1] >> 30)) + i. *)
Fixpoint init_genrand_loop (n : nat) (mti : Z) (prev : Z) : list Z :=
  match n with
  | O => []
  | S n' =>
    let x := u32 (1812433253 * Z.lxor prev (Z.shiftr prev 30) + mti) in
    x :: init_genrand_loop n' (mti + 1) x
  end.

Definition init_genrand (s : Z) : list Z :=
  u32 s :: init_genrand_loop (N - 1) 1 (u32 s).

(** [if (i >= N) { mt[0] = mt[N-1]; i = 1; }]. *)
Definition wrap (mt : list Z) (i : nat) : list Z * nat :=
  if (N <=? i)%nat then (set mt 0 (get mt (N - 1)), 1%nat) else (mt, i).

(** The first loop of [init_by_array], [k] more passes. *)
Fixpoint key_loop (k : nat) (key : list Z) (mt : list Z) (i j : nat)
    : list Z * nat :=
  match k with
  | O => (mt, i)
  | S k' =>
    let p := get mt (i - 1) in
    let v := u32 (Z.lxor (get mt i)
                         (u32 (Z.lxor p (Z.shiftr p 30) * 1664525))
                  + get key j + Z.of_nat j) in
    let mt := set mt i v in
    let '(mt, i) := wrap mt (S i) in
    let j := if (length key <=? S j)%nat then 0%nat else S j in
    key_loop k' key mt i j
  end.

(** The second loop of [init_by_array], [k] more passes. *)
Fixpoint mix_loop (k : nat) (mt : list Z) (i : nat) : list Z :=
  match k with
  | O => mt
  | S k' =>
    let p := get mt (i - 1) in
    let v := u32 (Z.lxor (get mt i)
                         (u32 (Z.lxor p (Z.shiftr p 30) * 1566083941))
                  - Z.of_nat i) in
    let mt := set mt i v in
    let '(mt, i) := wrap mt (S i) in
    mix_loop k' mt i
  end.

Definition init_by_array (key : list Z) : state :=
  let mt := init_genrand 19650218 in
  let '(mt, i) := key_loop (Nat.max N (length key)) key mt 1 0 in
  let mt := mix_loop (N - 1) mt i in
  (set mt 0 0x80000000%Z, N).

(** The 32-bit words of a nonnegative int, lowest first. *)
Fixpoint key_words (words : nat) (n : Z) : list Z :=
  match words with
  | O => []
  | S w => (n mod 2 ^ 32)%Z :: key_words w (n / 2 ^ 32)%Z
  end.

(** [random_seed] for an int argument: the key is |n|, one word for 0. *)
Definition random_seed (n : Z) : state :=
  let a := Z.abs n in
  let bits := if (a =? 0)%Z then 0%Z else (Z.log2 a + 1)%Z in
  let keyused := if (bits =? 0)%Z then 1%Z else ((bits - 1) / 32 + 1)%Z in
  init_by_array (key_words (Z.to_nat keyused) a).

(** One pass of the loops that generate [N] words at a time: the word at
    [kk] from those at [kk], [next] and [far]. *)
Definition twist_at (next far : nat -> nat) (mt : list Z) (kk : nat)
    : list Z :=
  let y := Z.lor (Z.land (get mt kk) UPPER_MASK)
                 (Z.land (get mt (next kk)) LOWER_MASK) in
  set mt kk (Z.lxor (Z.lxor (get mt (far kk)) (Z.shiftr y 1))
                    (if Z.odd y then MATRIX_A else 0%Z)).

Definition twist (mt : list Z) : list Z :=
  let mt := fold_left (twist_at S (fun kk => kk + M)%nat)
                      (List.seq 0 (N - M)) mt in
  let mt := fold_left (twist_at S (fun kk => kk + M - N)%nat)
                      (List.seq (N - M) (M - 1)) mt in
  twist_at (fun _ => 0%nat) (fun _ => (M - 1)%nat) mt (N - 1).

(** [genrand_uint32]. *)
Definition genrand_uint32 (g : state) : Z * state :=
  let '(mt, index) := g in
  let '(mt, index) := if (N <=? index)%nat then (twist mt, 0%nat)
                      else (mt, index) in
  let y := get mt index in
  let y := Z.lxor y (Z.shiftr y 11) in
  let y := Z.lxor y (Z.land (Z.shiftl y 7) 0x9d2c5680) in
  let y := Z.lxor y (Z.land (Z.shiftl y 15) 0xefc60000) in
  let y := Z.lxor y (Z.shiftr y 18) in
  (y, (mt, S index)).

(** The words of [getrandbits(k)] for k > 32, lowest first. *)
Fixpoint getrandbits_words (words : nat) (k : Z) (g : state) : Z * state :=
  match words with
  | O => (0%Z, g)
  | S w =>
    let '(r, g) := genrand_uint32 g in
    let r := if (k <? 32)%Z then Z.shiftr r (32 - k) else r in
    let '(hi, g) := getrandbits_words w (k - 32) g in
    ((r + 2 ^ 32 * hi)%Z, g)
  end.

(** [getrandbits(k)] for k >= 0 (a negative [k] raises ValueError in
    Python; [shanks] asks for 10 bits). *)
Definition random_getrandbits (g : state) (k : Z) : Z * state :=
  if (k <=? 0)%Z then (0%Z, g)
  else if (k <=? 32)%Z then
    let '(r, g) := genrand_uint32 g in (Z.shiftr r (32 - k), g)
  else getrandbits_words (Z.to_nat ((k - 1) / 32 + 1)) k g.

Definition rng : Rng := {|
  rng_state := state;
  seed := random_seed;
  getrandbits := random_getrandbits
|}.

(** The first [n] draws of [getrandbits(k)] after [seed(s)]. *)
Fixpoint draws (n : nat) (k : Z) (g : state) : list Z :=
  match n with
  | O => []
  | S n' => let '(r, g) := random_getrandbits g k in r :: draws n' k g
  end.
End MT.
Module Harmonic.
(** The harmonic number H_n = 1 + 1/2 + ... + 1/n. *)
Fixpoint H (n : nat) : Q :=
  match n with
  | O => 0
  | S m => Qred (H m + (1 # Pos.of_nat (S m)))
  end.

(** H_1, ..., H_6 as 53-bit numbers. *)
Definition floats : list Q := map (fun n => RNum.round 53 (H n)) (List.seq 1 6).
End Harmonic.

(* ------------------------------------------------------------------ *)
(** * Properties of [shanks] *)

Section ShanksFacts.
Context {F : Type} (O : NumOps F) (R : Rng).

Lemma index_app_l {A} (p t : list A) (n : nat) :
  (n < length p)%nat -> index (p ++ t) n = index p n.
Proof.
  intros H. unfold index. now rewrite nth_error_app1.
Qed.

Lemma index_some {A} (l : list A) (n : nat) :
  (n < length l)%nat -> exists x, index l n = Ret x /\ nth_error l n = Some x.
Proof.
  intros H. unfold index.
  destruct (nth_error l n) as [x|] eqn:Hn.
  - now exists x.
  - apply nth_error_None in Hn. lia.
Qed.

(** A row only reads the sequence up to position i+1. *)
Lemma shanks_ab_prefix (p t : list F) tbl i j row :
  (i + 1 < length p)%nat ->
  shanks_ab O (p ++ t) tbl i j row = shanks_ab O p tbl i j row.
Proof.
  intros H. unfold shanks_ab.
  rewrite !index_app_l by lia. reflexivity.
Qed.

Lemma shanks_row_prefix (p t : list F) tbl rz i js :
  (i + 1 < length p)%nat ->
  forall row g,
    shanks_row O R js (p ++ t) tbl rz i row g
    = shanks_row O R js p tbl rz i row g.
Proof.
  intros H. induction js as [|j js IH]; intros row g; simpl.
  - reflexivity.
  - rewrite shanks_ab_prefix by assumption.
    destruct (shanks_ab O p tbl i j row) as [[a b]|e]; simpl; [|reflexivity].
    destruct (is_zero O b).
    + destruct rz; [|reflexivity].
      destruct (getrandbits R g 10) as [r g'].
      destruct (pdiv O (mpf O 1) (mul O (lift O r) (eps O))); simpl;
        [apply IH | reflexivity].
    + destruct (pdiv O (mpf O 1) b); simpl; [apply IH | reflexivity].
Qed.

Lemma shanks_rows_prefix (p t : list F) rz rows :
  (forall i, In i rows -> (i + 1 < length p)%nat) ->
  forall tbl g,
    shanks_rows O R rows (p ++ t) rz tbl g = shanks_rows O R rows p rz tbl g.
Proof.
  induction rows as [|i rows IH]; intros Hb tbl g; simpl.
  - reflexivity.
  - rewrite shanks_row_prefix by (apply Hb; now left).
    destruct (shanks_row O R (List.seq 0 (i + 1)) p tbl rz i [] g)
      as [[[row g']|]|e]; simpl; try reflexivity.
    apply IH. intros k Hk. apply Hb. now right.
Qed.

(** Running the loop over a concatenation. *)
Lemma shanks_rows_app (l1 l2 : list nat) seq rz :
  forall tbl g,
    shanks_rows O R (l1 ++ l2) seq rz tbl g
    = match shanks_rows O R l1 seq rz tbl g with
      | Ret (Fallthrough t g') => shanks_rows O R l2 seq rz t g'
      | r => r
      end.
Proof.
  induction l1 as [|i l1 IH]; intros tbl g; simpl.
  - reflexivity.
  - destruct (shanks_row O R (List.seq 0 (i + 1)) seq tbl rz i [] g)
      as [[[row g']|]|e]; simpl.
    + apply IH.
    + destruct (Nat.odd i); reflexivity.
    + reflexivity.
Qed.

Lemma shanks_unfold seq tbl rz :
  (2 <= length seq)%nat ->
  shanks O R seq tbl rz
  = result_table
      (shanks_rows O R
         (List.seq (fst (shanks_start tbl))
                   (shanks_stop seq - fst (shanks_start tbl)))
         seq rz (snd (shanks_start tbl))
         (seed R (Z.of_nat (fst (shanks_start tbl))))).
Proof.
  intros H. unfold shanks.
  destruct (Nat.ltb_spec (length seq) 2); [lia|].
  destruct (shanks_start tbl) as [START t]; simpl.
  destruct (shanks_rows _ _ _ _ _ _ _) as [[?|?]|?]; reflexivity.
Qed.

Lemma shanks_start_some (t : table F) :
  shanks_start (Some t) = (length t, t).
Proof. destruct t; reflexivity. Qed.

(** In deterministic mode the generator is never consulted. *)
Lemma shanks_row_det_rng js seq tbl i :
  forall row g1 g2,
    match shanks_row O R js seq tbl false i row g1,
          shanks_row O R js seq tbl false i row g2 with
    | Ret (Some (r1, g1')), Ret (Some (r2, g2')) =>
        r1 = r2 /\ g1' = g1 /\ g2' = g2
    | Ret None, Ret None => True
    | Raise e1, Raise e2 => e1 = e2
    | _, _ => False
    end.
Proof.
  induction js as [|j js IH]; intros row g1 g2; simpl.
  - auto.
  - destruct (shanks_ab O seq tbl i j row) as [[a b]|e]; simpl; [|reflexivity].
    destruct (is_zero O b); [exact I|].
    destruct (pdiv O (mpf O 1) b); simpl; [apply IH | reflexivity].
Qed.

Lemma shanks_rows_det_rng rows seq :
  forall tbl g1 g2,
    result_table (shanks_rows O R rows seq false tbl g1)
    = result_table (shanks_rows O R rows seq false tbl g2).
Proof.
  induction rows as [|i rows IH]; intros tbl g1 g2; simpl.
  - reflexivity.
  - pose proof (shanks_row_det_rng (List.seq 0 (i + 1)) seq tbl i [] g1 g2) as H.
    destruct (shanks_row O R (List.seq 0 (i + 1)) seq tbl false i [] g1)
      as [[[r1 g1']|]|e1];
    destruct (shanks_row O R (List.seq 0 (i + 1)) seq tbl false i [] g2)
      as [[[r2 g2']|]|e2]; simpl; try contradiction.
    + destruct H as [-> _]. apply IH.
    + destruct (Nat.odd i); reflexivity.
    + now subst.
Qed.

Lemma wf_table_nil : wf_table (@nil (list F)).
Proof. intros k row H. destruct k; discriminate. Qed.

Lemma wf_table_snoc (t : table F) row :
  wf_table t -> length row = S (length t) -> wf_table (t ++ [row]).
Proof.
  intros Hw Hr k r Hk.
  destruct (Nat.lt_ge_cases k (length t)) as [Hlt|Hge].
  - rewrite nth_error_app1 in Hk by assumption. now apply Hw.
  - rewrite nth_error_app2 in Hk by assumption.
    destruct (k - length t)%nat as [|m] eqn:Hm; simpl in Hk.
    + injection Hk as <-. rewrite Hr. f_equal. lia.
    + destruct m; discriminate.
Qed.

Lemma wf_table_removelast (t : table F) : wf_table t -> wf_table (removelast t).
Proof.
  destruct t as [|x t'] using rev_ind; [trivial|].
  intros Hw k r Hk. rewrite removelast_last in Hk. apply Hw.
  rewrite nth_error_app1; [assumption|].
  apply nth_error_Some. congruence.
Qed.

Lemma shanks_ab_ok (seq : list F) tbl i j row :
  (i + 1 < length seq)%nat -> length tbl = i -> wf_table tbl ->
  length row = j -> (j <= i)%nat ->
  exists ab, shanks_ab O seq tbl i j row = Ret ab.
Proof.
  intros Hs Ht Hw Hr Hj. unfold shanks_ab.
  destruct (Nat.eqb_spec j 0) as [->|Hj0].
  - destruct (@index_some _ seq (i + 1)) as [x1 [-> _]]; [lia|].
    destruct (@index_some _ seq i) as [x0 [-> _]]; [lia|].
    simpl. eauto.
  - destruct (@index_some _ tbl (i - 1)) as [prev [Hp Hn]]; [lia|].
    assert (Hlen : length prev = i).
    { apply Hw in Hn. lia. }
    destruct (@index_some _ row (j - 1)) as [x [Hx _]]; [lia|].
    destruct (@index_some _ prev (j - 1)) as [q [Hq _]]; [lia|].
    destruct (Nat.eqb_spec j 1) as [->|Hj1].
    + destruct (@index_some _ seq i) as [a [-> _]]; [lia|].
      cbv beta iota delta [rbind]. rewrite Hx, Hp, Hq. eauto.
    + destruct (@index_some _ prev (j - 2)) as [a [Ha _]]; [lia|].
      rewrite Hp. cbv beta iota delta [rbind]. rewrite Ha, Hx, Hq. eauto.
Qed.

(** In deterministic mode a row of a well-formed table is computed
    without an exception, and is complete unless a denominator is zero. *)
Lemma shanks_row_det_ok (seq : list F) tbl i g :
  (i + 1 < length seq)%nat -> length tbl = i -> wf_table tbl ->
  forall n j row,
    length row = j -> (j + n = i + 1)%nat ->
    exists r, shanks_row O R (List.seq j n) seq tbl false i row g = Ret r
           /\ forall row' g', r = Some (row', g') -> length row' = S i.
Proof.
  intros Hs Ht Hw. induction n as [|n IH]; intros j row Hr Hn; simpl.
  - eexists. split; [reflexivity|]. intros row' g' [= <- _]. lia.
  - destruct (@shanks_ab_ok seq tbl i j row) as [[a b] ->]; try assumption;
      [lia|]. simpl.
    destruct (is_zero O b) eqn:Hz.
    + eexists. split; [reflexivity|]. discriminate.
    + unfold pdiv. rewrite Hz. simpl.
      apply IH; [rewrite length_app; simpl; lia | lia].
Qed.

Lemma shanks_rows_fallthrough_length seq rz :
  forall n i cur g t g',
    shanks_rows O R (List.seq i n) seq rz cur g = Ret (Fallthrough t g') ->
    length t = (length cur + n)%nat.
Proof.
  induction n as [|n IH]; intros i cur g t g'; simpl.
  - intros [= <- _]. lia.
  - destruct (shanks_row O R _ seq cur rz i [] g) as [[[row g1]|]|e]; simpl.
    + intros H. apply IH in H. rewrite length_app in H. simpl in H. lia.
    + destruct (Nat.odd i); discriminate.
    + discriminate.
Qed.

Lemma shanks_rows_det_spec (seq : list F) :
  forall n i cur g,
    length cur = i -> wf_table cur -> (i + n < length seq)%nat ->
    exists e, shanks_rows O R (List.seq i n) seq false cur g = Ret e
           /\ det_exit_ok i n cur e.
Proof.
  induction n as [|n IH]; intros i cur g Hl Hw Hb; simpl.
  - eexists. split; [reflexivity|]. simpl.
    repeat split; [lia | assumption | exists []; now rewrite app_nil_r].
  - destruct (@shanks_row_det_ok seq cur i g) with (n := (i + 1)%nat)
      (j := 0%nat) (row := @nil F) as [r [Hr Hlen]];
      try assumption; try reflexivity; [lia|].
    rewrite Hr. simpl. destruct r as [[row g']|].
    + destruct (IH (S i) (cur ++ [row]) g') as [e [He Hok]].
      * rewrite length_app. simpl. lia.
      * apply wf_table_snoc; [assumption|]. rewrite Hl. eapply Hlen. reflexivity.
      * lia.
      * exists e. split; [assumption|].
        destruct e as [t g2|t]; simpl in *.
        -- destruct Hok as [H1 [H2 [rows ->]]].
           repeat split; [lia | assumption |].
           exists (row :: rows). now rewrite <- app_assoc.
        -- destruct Hok as [H1 [H2 H3]]. repeat split; try assumption.
           left. destruct H3 as [[rows ->]|[_ ->]].
           ++ exists (row :: rows). now rewrite <- app_assoc.
           ++ exists []. now rewrite removelast_last, app_nil_r.
    + destruct (Nat.odd i) eqn:Hodd.
      * eexists. split; [reflexivity|]. simpl.
        split; [now apply wf_table_removelast|]. split; [|now right].
        destruct cur as [|x cur'] using rev_ind.
        -- simpl in Hl. subst i. discriminate.
        -- rewrite removelast_last. rewrite length_app in Hl. simpl in Hl.
           subst i. rewrite Nat.add_1_r, Nat.odd_succ in Hodd. exact Hodd.
      * eexists. split; [reflexivity|]. simpl.
        split; [assumption|]. split.
        -- rewrite Hl. rewrite <- Nat.negb_odd, Hodd. reflexivity.
        -- left. exists []. now rewrite app_nil_r.
Qed.

(** Restarting from the table of a call gives what one call gives. *)
Lemma shanks_restart (seq : list F) g :
  forall n e,
    shanks_rows O R (List.seq 0 n) seq false [] g = Ret e ->
    forall n' g2, (n <= n')%nat ->
      result_table
        (shanks_rows O R
           (List.seq (length (exit_table e)) (n' - length (exit_table e)))
           seq false (exit_table e) g2)
      = result_table (shanks_rows O R (List.seq 0 n') seq false [] g).
Proof.
  induction n as [|n IH]; intros e He n' g2 Hn.
  - simpl in He. injection He as <-. simpl. rewrite Nat.sub_0_r.
    apply shanks_rows_det_rng.
  - rewrite seq_S, shanks_rows_app in He. simpl in He.
    destruct (shanks_rows O R (List.seq 0 n) seq false [] g)
      as [[t0 g0|t0]|x] eqn:H0; try discriminate.
    + assert (Hlen := H0). apply shanks_rows_fallthrough_length in Hlen.
      simpl in Hlen.
      destruct (shanks_row O R (List.seq 0 (n + 1)) seq t0 false n [] g0)
        as [[[row g1]|]|x] eqn:Hrow; simpl in He; try discriminate.
      * injection He as <-. simpl. rewrite length_app. simpl.
        replace (List.seq 0 n') with
          (List.seq 0 (S n) ++ List.seq (S n) (n' - S n))
          by (rewrite <- seq_app; f_equal; lia).
        rewrite shanks_rows_app.
        rewrite seq_S, shanks_rows_app, H0. simpl. rewrite Hrow. simpl.
        rewrite Hlen, Nat.add_1_r. apply shanks_rows_det_rng.
      * destruct (Nat.odd n) eqn:Hodd; injection He as <-; simpl.
        -- destruct n as [|n1]; [discriminate|].
           rewrite seq_S, shanks_rows_app in H0. simpl in H0.
           destruct (shanks_rows O R (List.seq 0 n1) seq false [] g)
             as [[t1 g1|t1]|x] eqn:H1; try discriminate.
           assert (Hl1 := H1). apply shanks_rows_fallthrough_length in Hl1.
           simpl in Hl1.
           destruct (shanks_row O R (List.seq 0 (n1 + 1)) seq t1 false n1 [] g1)
             as [[[row g3]|]|x]; simpl in H0; try discriminate;
             [|destruct (Nat.odd n1); discriminate].
           injection H0 as <- <-. rewrite removelast_last.
           replace (List.seq 0 n') with
             (List.seq 0 n1 ++ List.seq n1 (n' - n1))
             by (rewrite <- seq_app; f_equal; lia).
           rewrite shanks_rows_app, H1, Hl1. apply shanks_rows_det_rng.
        -- replace (List.seq 0 n') with
             (List.seq 0 n ++ List.seq n (n' - n))
             by (rewrite <- seq_app; f_equal; lia).
           rewrite shanks_rows_app, H0, Hlen. apply shanks_rows_det_rng.
    + injection He as <-. apply (IH _ eq_refl). lia.
Qed.

Lemma shanks_stop_bound (seq : list F) :
  (2 <= length seq)%nat ->
  (shanks_stop seq < length seq)%nat /\ Nat.even (shanks_stop seq) = true.
Proof.
  intros H. unfold shanks_stop.
  destruct (Nat.odd (length seq - 1)) eqn:Ho.
  - split; [lia|].
    destruct (length seq - 1)%nat as [|m] eqn:Hm; [discriminate|].
    simpl. rewrite Nat.sub_0_r. rewrite Nat.odd_succ in Ho. exact Ho.
  - split; [lia|]. now rewrite <- Nat.negb_odd, Ho.
Qed.

Lemma shanks_stop_mono (p t : list F) :
  (2 <= length p)%nat -> (shanks_stop p <= shanks_stop (p ++ t))%nat.
Proof.
  intros H. unfold shanks_stop. rewrite length_app.
  destruct (Nat.odd (length p - 1)) eqn:Hp;
  destruct (Nat.odd (length p + length t - 1)) eqn:Hs; try lia.
  destruct (length t) as [|k]; [|lia].
  rewrite Nat.add_0_r in Hs. congruence.
Qed.

Lemma shanks_det_scratch (seq : list F) :
  (2 <= length seq)%nat ->
  exists e,
    shanks_rows O R (List.seq 0 (shanks_stop seq)) seq false []
                (seed R 0) = Ret e
    /\ det_exit_ok 0 (shanks_stop seq) [] e
    /\ shanks O R seq None false = Ret (exit_table e).
Proof.
  intros H. destruct (shanks_stop_bound seq H) as [Hb _].
  destruct (@shanks_rows_det_spec seq (shanks_stop seq) 0%nat [] (seed R 0))
    as [e [He Hok]]; [reflexivity | apply wf_table_nil | lia |].
  exists e. repeat split; try assumption.
  rewrite shanks_unfold by assumption. simpl.
  rewrite Nat.sub_0_r, He. reflexivity.
Qed.

(** Incremental extension in deterministic mode: [shanks(p)] returns a
    table [Tp]; [shanks(p ++ t, Tp)] and [shanks(p ++ t)] return the same
    table [T]; and [T] is [Tp] followed by new rows. *)
Lemma shanks_det_extension (p t : list F) :
  (2 <= length p)%nat ->
  exists Tp T rows,
    shanks O R p None false = Ret Tp /\
    shanks O R (p ++ t) (Some Tp) false = Ret T /\
    shanks O R (p ++ t) None false = Ret T /\
    T = Tp ++ rows.
Proof.
  intros Hp.
  assert (Hs : (2 <= length (p ++ t))%nat) by (rewrite length_app; lia).
  destruct (shanks_stop_bound p Hp) as [Hbp Hev].
  destruct (shanks_stop_bound (p ++ t) Hs) as [Hbs _].
  pose proof (shanks_stop_mono p t Hp) as Hmono.
  set (m := shanks_stop p) in *. set (n := shanks_stop (p ++ t)) in *.
  (* the call on the prefix, read as a run on the whole sequence *)
  destruct (@shanks_rows_det_spec (p ++ t) m 0%nat [] (seed R 0))
    as [e [He Hok]]; [reflexivity | apply wf_table_nil | lia |].
  assert (Hpre : shanks O R p None false = Ret (exit_table e)).
  { rewrite shanks_unfold by assumption. simpl. fold m.
    rewrite Nat.sub_0_r, <- (shanks_rows_prefix p t), He; [reflexivity|].
    intros i Hi. apply in_seq in Hi. lia. }
  destruct (shanks_det_scratch (p ++ t) Hs) as [e' [He' [Hok' Hfull]]].
  fold n in He', Hok'.
  assert (Hinc : shanks O R (p ++ t) (Some (exit_table e)) false
                 = Ret (exit_table e')).
  { rewrite shanks_unfold by assumption.
    rewrite shanks_start_some. simpl. fold n.
    rewrite (@shanks_restart _ _ _ _ He) by assumption.
    rewrite He'. reflexivity. }
  assert (Hext : exists rows, exit_table e' = exit_table e ++ rows).
  { replace (List.seq 0 n) with (List.seq 0 m ++ List.seq m (n - m)) in He'
      by (rewrite <- seq_app; f_equal; lia).
    rewrite shanks_rows_app, He in He'.
    destruct e as [Tp g'|Tp]; simpl in *.
    - destruct Hok as [Hlen [Hw _]].
      destruct (@shanks_rows_det_spec (p ++ t) (n - m) m Tp g')
        as [e2 [He2 Hok2]]; [assumption | assumption | lia |].
      rewrite He2 in He'. injection He' as <-.
      destruct e2 as [T g2|T]; simpl in *.
      + tauto.
      + destruct Hok2 as [_ [_ [Hx|[Hodd _]]]]; [assumption|].
        rewrite <- Nat.negb_even, Hev in Hodd. discriminate.
    - injection He' as <-. exists []. simpl. now rewrite app_nil_r. }
  destruct Hext as [rows Hrows].
  exists (exit_table e), (exit_table e'), rows. auto.
Qed.

(** In randomized mode a zero denominator is replaced, so that a row
    that does not raise is completed. *)
Lemma shanks_row_randomized_some js seq tbl i :
  forall row g r,
    shanks_row O R js seq tbl true i row g = Ret r ->
    exists row' g', r = Some (row', g').
Proof.
  induction js as [|j js IH]; intros row g r H; simpl in H.
  - injection H as <-. eauto.
  - destruct (shanks_ab O seq tbl i j row) as [[a b]|e]; simpl in H;
      [|discriminate].
    destruct (is_zero O b).
    + destruct (getrandbits R g 10) as [d g'].
      destruct (pdiv O (mpf O 1) (mul O (lift O d) (eps O))) as [x|e];
        simpl in H; [|discriminate].
      exact (IH _ _ _ H).
    + destruct (pdiv O (mpf O 1) b) as [x|e]; simpl in H; [|discriminate].
      exact (IH _ _ _ H).
Qed.

(** In randomized mode the loop over the rows never returns early: it
    leaves the table it was given in place and appends to it. *)
Lemma shanks_rows_randomized_appends rows seq :
  forall tbl g e,
    shanks_rows O R rows seq true tbl g = Ret e ->
    exists new g', e = Fallthrough (tbl ++ new) g'.
Proof.
  induction rows as [|i rows IH]; intros tbl g e H; simpl in H.
  - injection H as <-. exists [], g. now rewrite app_nil_r.
  - destruct (shanks_row O R (List.seq 0 (i + 1)) seq tbl true i [] g)
      as [r|e'] eqn:Hr; simpl in H; [|discriminate].
    destruct (shanks_row_randomized_some _ _ _ _ _ _ Hr) as [row [g' ->]].
    destruct (IH _ _ _ H) as [new [g'' ->]].
    exists (row :: new), g''. now rewrite <- app_assoc.
Qed.


(** C4, as amended.  In deterministic mode, for a sequence of at least two
    elements, [shanks] returns a table that is empty or whose last row has
    an even number of entries, so that the last entry of the last row is in
    an odd column; row k has k+1 entries and the number of rows is even. *)
Theorem shanks_last_row_even (seq : list F) :
  (2 <= length seq)%nat ->
  exists T,
    shanks O R seq None false = Ret T /\
    wf_table T /\
    Nat.even (length T) = true /\
    (T = [] \/
     exists row, index_back T 1 = Ret row /\ length row = length T /\
                 Nat.even (length row) = true).
Proof.
  intros H. destruct (shanks_det_scratch seq H) as [e [_ [Hok Hr]]].
  exists (exit_table e). split; [assumption|].
  assert (Hw : wf_table (exit_table e) /\ Nat.even (length (exit_table e)) = true).
  { destruct e as [T g|T]; simpl in *.
    - destruct Hok as [Hl [Hw _]]. split; [assumption|].
      rewrite Hl. apply (shanks_stop_bound seq H).
    - tauto. }
  destruct Hw as [Hw Hev]. repeat split; try assumption.
  destruct (exit_table e) as [|r T'] eqn:ET; [now left|]. right.
  rewrite <- ET in *.
  assert (Hpos : (0 < length (exit_table e))%nat) by (rewrite ET; simpl; lia).
  unfold index_back.
  destruct (Nat.ltb_spec (length (exit_table e)) 1); [lia|].
  destruct (@index_some _ (exit_table e) (length (exit_table e) - 1))
    as [row [Hi Hn]]; [lia|].
  exists row. split; [assumption|].
  apply Hw in Hn.
  assert (Hl : length row = length (exit_table e)) by lia.
  split; [assumption | now rewrite Hl].
Qed.

(** C5, what the code does.  In randomized mode, when the first row to
    compute starts with a zero denominator and the generator, seeded with
    the starting row index, draws 0, the substitute [0*eps] is zero and
    [shanks] raises ZeroDivisionError. *)
Theorem shanks_randomized_zero_draw (seq : list F) (tbl : option (table F))
    (x0 x1 : F) :
  let START := fst (shanks_start tbl) in
  (2 <= length seq)%nat ->
  (START < shanks_stop seq)%nat ->
  nth_error seq START = Some x0 ->
  nth_error seq (START + 1) = Some x1 ->
  is_zero O (sub O x1 x0) = true ->
  fst (getrandbits R (seed R (Z.of_nat START)) 10) = 0%Z ->
  is_zero O (mul O (lift O 0) (eps O)) = true ->
  shanks O R seq tbl true = Raise ZeroDivisionError.
Proof.
  intros START Hlen Hlt H0 H1 Hz Hdraw Hmul.
  rewrite shanks_unfold by assumption. fold START.
  destruct (shanks_stop seq - START)%nat as [|k] eqn:Hk; [lia|].
  simpl. replace (START + 1)%nat with (S START) by lia. simpl.
  unfold shanks_ab. simpl. unfold index.
  replace (S START) with (START + 1)%nat by lia.
  rewrite H1, H0. simpl. rewrite Hz.
  destruct (getrandbits R (seed R (Z.of_nat START)) 10) as [r g'].
  simpl in Hdraw. subst r. unfold pdiv. rewrite Hmul. reflexivity.
Qed.
End ShanksFacts.


(* ------------------------------------------------------------------ *)
(** * Properties of [richardson], in exact rational arithmetic *)

Module RichardsonFacts.
Import RichardsonSpec.

Lemma fact_pos n : (0 < QNum.fact n)%Z.
Proof.
  induction n as [|n IH]; [reflexivity|].
  change (QNum.fact (S n)) with (Z.of_nat (S n) * QNum.fact n)%Z.
  apply Z.mul_pos_pos; lia.
Qed.

Lemma fact_le_pow n : (QNum.fact n <= Z.of_nat n ^ Z.of_nat n)%Z.
Proof.
  induction n as [|n IH].
  - simpl. lia.
  - change (QNum.fact (S n)) with (Z.of_nat (S n) * QNum.fact n)%Z.
    rewrite (Nat2Z.inj_succ n) at 3. rewrite Z.pow_succ_r by lia.
    apply Z.mul_le_mono_nonneg_l; [lia|].
    etransitivity; [exact IH|].
    apply Z.pow_le_mono_l. lia.
Qed.

Lemma inject_Z_nonzero z : z <> 0%Z -> ~ inject_Z z == 0.
Proof.
  intros H E. apply H. unfold Qeq in E. simpl in E. lia.
Qed.

Lemma pow_nonzero (k N : nat) :
  (N = 0 \/ 0 < k + N)%nat -> (Z.of_nat (k + N) ^ Z.of_nat N <> 0)%Z.
Proof.
  intros [->|H].
  - simpl. lia.
  - apply Z.pow_nonzero; lia.
Qed.

(** The quotient of successive weights is the factor of the recurrence. *)
Lemma weight_succ (N k : nat) :
  (k < N)%nat ->
  weight N (S k) ==
  weight N k
  * (inject_Z (Z.of_nat k - Z.of_nat N)
     * inject_Z (Z.of_nat k + Z.of_nat N + 1) ^ Z.of_nat N)
  / (inject_Z (1 + Z.of_nat k)
     * inject_Z (Z.of_nat k + Z.of_nat N) ^ Z.of_nat N).
Proof.
  intros Hk. unfold weight.
  rewrite <- !Zpower_Qpower by lia.
  replace (N - k)%nat with (S (N - S k)) by lia.
  change (QNum.fact (S (N - S k)))
    with (Z.of_nat (S (N - S k)) * QNum.fact (N - S k))%Z.
  change (QNum.fact (S k)) with (Z.of_nat (S k) * QNum.fact k)%Z.
  replace (Z.of_nat (S (N - S k))) with (Z.of_nat N - Z.of_nat k)%Z by lia.
  replace (Z.of_nat (S k + N)) with (Z.succ (Z.of_nat (k + N))) by lia.
  rewrite Z.pow_succ_r by lia.
  replace (Z.of_nat (N + S k)) with (Z.of_nat k + Z.of_nat N + 1)%Z by lia.
  replace (Z.of_nat (N + k)) with (Z.of_nat k + Z.of_nat N)%Z by lia.
  replace (Z.of_nat (S k)) with (1 + Z.of_nat k)%Z by lia.
  pose proof (fact_pos k) as Ha. pose proof (fact_pos (N - S k)) as Hb.
  assert (HP : ((Z.of_nat k + Z.of_nat N) ^ Z.of_nat N <> 0)%Z).
  { apply Z.pow_nonzero; lia. }
  generalize dependent ((Z.of_nat k + Z.of_nat N) ^ Z.of_nat N)%Z.
  generalize ((Z.of_nat k + Z.of_nat N + 1) ^ Z.of_nat N)%Z.
  generalize dependent (QNum.fact k). generalize dependent (QNum.fact (N - S k)).
  generalize ((-1) ^ Z.of_nat (k + N))%Z.
  intros A b Hb a Ha P' P HP.
  rewrite !inject_Z_mult.
  assert (H1 : ~ inject_Z (1 + Z.of_nat k) == 0) by (apply inject_Z_nonzero; lia).
  assert (H2 : ~ inject_Z (Z.of_nat N - Z.of_nat k) == 0)
    by (apply inject_Z_nonzero; lia).
  assert (H3 : ~ inject_Z a == 0) by (apply inject_Z_nonzero; lia).
  assert (H4 : ~ inject_Z b == 0) by (apply inject_Z_nonzero; lia).
  assert (H5 : ~ inject_Z P == 0) by (apply inject_Z_nonzero; lia).
  replace (Z.of_nat k - Z.of_nat N)%Z with (- (Z.of_nat N - Z.of_nat k))%Z by lia.
  rewrite inject_Z_opp.
  change (inject_Z (-1)) with (- (1))%Q.
  field. repeat split; assumption.
Qed.

Lemma weight_zero (N : nat) :
  weight N 0 ==
  inject_Z ((-1) ^ Z.of_nat N * Z.of_nat N ^ Z.of_nat N)
  / inject_Z (QNum.fact N).
Proof.
  unfold weight. simpl plus. rewrite Nat.add_0_r, Nat.sub_0_r.
  change (QNum.fact 0) with 1%Z. rewrite Z.mul_1_l. reflexivity.
Qed.

Lemma weight_top_ge_1 (N : nat) : 1 <= Qabs (weight N N).
Proof.
  eapply Qle_trans; [|apply Qle_Qabs].
  unfold weight. rewrite Nat.sub_diag.
  change (QNum.fact 0) with 1%Z. rewrite Z.mul_1_r.
  rewrite Nat2Z.inj_add, Z.pow_add_r, <- Z.pow_mul_l by lia.
  change (-1 * -1)%Z with 1%Z. rewrite Z.pow_1_l, Z.mul_1_l by lia.
  apply Qle_shift_div_l.
  - change 0 with (inject_Z 0). rewrite <- Zlt_Qlt. apply fact_pos.
  - rewrite Qmult_1_l. rewrite <- Zle_Qle.
    etransitivity; [apply fact_le_pow|].
    apply Z.pow_le_mono_l. lia.
Qed.

Section Loop.
Variable p : Z.
Variable seq : list Q.
Variable N : nat.
Hypothesis Hlen : (2 * N + 1 < length seq)%nat.

Lemma richardson_step_Q (k : nat) (s m c : Q) :
  (k <= N)%nat ->
  exists s' m' c',
    richardson_step (QNum.ops p) seq N k (s, m, c) = Ret (s', m', c') /\
    s' == s + c * nth (N + k) seq 0 /\
    m' = (if Qle_bool m (Qabs c) then Qabs c else m) /\
    c' == c * (inject_Z (Z.of_nat k - Z.of_nat N)
               * inject_Z (Z.of_nat k + Z.of_nat N + 1) ^ Z.of_nat N)
          / (inject_Z (1 + Z.of_nat k)
             * inject_Z (Z.of_nat k + Z.of_nat N) ^ Z.of_nat N).
Proof.
  intros Hk. unfold richardson_step, index.
  destruct (nth_error seq (N + k)) as [x|] eqn:Hx.
  2:{ apply nth_error_None in Hx. lia. }
  rewrite (nth_error_nth _ _ 0 Hx).
  cbv beta iota delta [rbind]. unfold pdiv, fmax.
  cbn [QNum.ops is_zero div mul add lift mpf powi absf ltb].
  assert (Hnz : ~ inject_Z (1 + Z.of_nat k)
                  * inject_Z (Z.of_nat k + Z.of_nat N) ^ Z.of_nat N == 0).
  { intros E. apply Qmult_integral in E. destruct E as [E|E].
    - revert E. apply inject_Z_nonzero. lia.
    - rewrite <- Zpower_Qpower in E by lia. revert E.
      apply inject_Z_nonzero. rewrite <- Nat2Z.inj_add.
      apply pow_nonzero. lia. }
  destruct (Qeq_bool _ 0) eqn:Hz.
  { apply Qeq_bool_iff in Hz. rewrite !Qred_correct in Hz. contradiction. }
  do 3 eexists. split; [reflexivity|]. split; [|split].
  - rewrite !Qred_correct. reflexivity.
  - destruct (Qle_bool m (Qabs c)); reflexivity.
  - rewrite !Qred_correct. reflexivity.
Qed.

Lemma richardson_loop_Q :
  forall n j s m c,
    (j + n = N + 1)%nat ->
    s == weighted_sum N seq j ->
    (n <> 0%nat -> c == weight N j) ->
    maxc_inv N j m ->
    exists s' m' c',
      richardson_loop (QNum.ops p) (List.seq j n) seq N (s, m, c)
      = Ret (s', m', c') /\
      s' == weighted_sum N seq (N + 1) /\
      maxc_inv N (N + 1) m'.
Proof.
  induction n as [|n IH]; intros j s m c Hj Hs Hc Hm.
  - simpl. do 3 eexists. split; [reflexivity|].
    replace (N + 1)%nat with j by lia. split; assumption.
  - cbn [richardson_loop List.seq].
    destruct (@richardson_step_Q j s m c) as [s' [m' [c' [Hstep [Hs' [Hm' Hc']]]]]];
      [lia|].
    rewrite Hstep. cbv beta iota delta [rbind].
    specialize (Hc (Nat.neq_succ_0 n)).
    apply IH.
    + lia.
    + simpl. rewrite Hs', Hs, Hc. reflexivity.
    + intros Hn. rewrite Hc', Hc. symmetry. apply weight_succ. lia.
    + destruct Hm as [H1 [H2 H3]]. subst m'.
      destruct (Qle_bool m (Qabs c)) eqn:Hle.
      * apply Qle_bool_iff in Hle. split; [|split].
        -- eapply Qle_trans; eassumption.
        -- intros k Hk. destruct (Nat.eq_dec k j) as [->|Hne].
           ++ rewrite Hc. apply Qle_refl.
           ++ eapply Qle_trans; [apply H2; lia | assumption].
        -- right. exists j. split; [lia|]. rewrite Hc. reflexivity.
      * assert (Hlt : Qabs c < m).
        { apply Qnot_le_lt. intros H. apply Qle_bool_iff in H. congruence. }
        split; [assumption|]. split.
        -- intros k Hk. destruct (Nat.eq_dec k j) as [->|Hne].
           ++ rewrite <- Hc. apply Qlt_le_weak. assumption.
           ++ apply H2. lia.
        -- destruct H3 as [H3|[k [Hk H3]]]; [now left|].
           right. exists k. split; [lia | assumption].
Qed.
End Loop.

Lemma every_other_length {A} (l : list A) :
  (3 <= length l)%nat -> (2 <= length (every_other l))%nat.
Proof.
  destruct l as [|a [|b [|c l]]]; simpl; try lia.
Qed.

Lemma index_back_some {A} (l : list A) (n : nat) :
  (1 <= n <= length l)%nat -> exists x, index_back l n = Ret x.
Proof.
  intros H. unfold index_back.
  destruct (Nat.ltb_spec (length l) n); [lia|].
  destruct (@index_some _ l (length l - n)) as [x [Hx _]]; [lia|]. eauto.
Qed.

Lemma richardson_seq_Q p (seq : list Q) :
  (3 <= length seq)%nat ->
  exists seq', richardson_seq (QNum.ops p) seq = Ret seq' /\
               (seq' = seq \/ seq' = every_other seq) /\
               (2 <= length seq')%nat.
Proof.
  intros H. unfold richardson_seq.
  destruct (@index_back_some _ seq 1) as [x1 ->]; [lia|].
  destruct (@index_back_some _ seq 2) as [x2 ->]; [lia|].
  destruct (@index_back_some _ seq 3) as [x3 ->]; [lia|].
  cbv beta iota delta [rbind].
  destruct (negb _).
  - eexists. split; [reflexivity|]. split; [now right|].
    now apply every_other_length.
  - eexists. split; [reflexivity|]. split; [now left | lia].
Qed.

(** C6, as amended.  In exact rational arithmetic, where no operation is
    rounded, for a sequence of at least three elements, with [seq'] the
    sequence itself or its even-indexed part and N = len(seq')//2 - 1,
    [richardson] returns the sum over k = 0..N of c_k * seq'[N+k] for the
    weights c_k = (-1)^(k+N) (N+k)^N / (k! (N-k)!), which start at
    (-1)^N N^N / N! and follow the recurrence of the code, and [maxc] is
    the largest of the |c_k|. *)
Theorem richardson_weighted_sum (p : Z) (seq : list Q) :
  (3 <= length seq)%nat ->
  exists seq' v maxc,
    richardson_seq (QNum.ops p) seq = Ret seq' /\
    (seq' = seq \/ seq' = every_other seq) /\
    let N := (length seq' / 2 - 1)%nat in
    richardson (QNum.ops p) seq = Ret (v, maxc) /\
    v == weighted_sum N seq' (N + 1) /\
    (forall k, (k <= N)%nat -> Qabs (weight N k) <= maxc) /\
    (exists k, (k <= N)%nat /\ maxc == Qabs (weight N k)) /\
    weight N 0 == inject_Z ((-1) ^ Z.of_nat N * Z.of_nat N ^ Z.of_nat N)
                  / inject_Z (QNum.fact N) /\
    (forall k, (k < N)%nat ->
       weight N (S k) ==
       weight N k
       * (inject_Z (Z.of_nat k - Z.of_nat N)
          * inject_Z (Z.of_nat k + Z.of_nat N + 1) ^ Z.of_nat N)
       / (inject_Z (1 + Z.of_nat k)
          * inject_Z (Z.of_nat k + Z.of_nat N) ^ Z.of_nat N)).
Proof.
  intros H.
  destruct (@richardson_seq_Q p seq H) as [seq' [Hseq [Hor Hlen']]].
  set (N := (length seq' / 2 - 1)%nat).
  assert (HN : (2 * N + 1 < length seq')%nat).
  { subst N. pose proof (Nat.div_mod_eq (length seq') 2) as Hd.
    pose proof (Nat.mod_upper_bound (length seq') 2).
    assert (1 <= length seq' / 2)%nat; [|lia].
    apply Nat.div_le_lower_bound; lia. }
  set (c0 := Qred (inject_Z ((-1) ^ Z.of_nat N * Z.of_nat N ^ Z.of_nat N)
                   / inject_Z (QNum.zfact (Z.of_nat N)))).
  destruct (@richardson_loop_Q p seq' N HN (N + 1) 0 (inject_Z 0) (inject_Z 1) c0)
    as [v [maxc [c' [Hloop [Hv Hm]]]]].
  - lia.
  - reflexivity.
  - intros _. unfold c0, QNum.zfact. rewrite Qred_correct, Nat2Z.id.
    symmetry. apply weight_zero.
  - split; [apply Qle_refl|]. split; [intros k Hk; lia | now left].
  - exists seq', v, maxc. split; [assumption|]. split; [assumption|].
    fold N. split; [|split; [assumption|]].
    + unfold richardson.
      destruct (Nat.ltb_spec (length seq) 3); [lia|].
      rewrite Hseq. cbv beta iota delta [rbind]. fold N.
      unfold pdiv. cbn [QNum.ops is_zero mpf lift int_fac div].
      destruct (Qeq_bool (inject_Z (QNum.zfact (Z.of_nat N))) 0) eqn:Hz.
      { apply Qeq_bool_iff in Hz. exfalso. revert Hz.
        apply inject_Z_nonzero. unfold QNum.zfact. rewrite Nat2Z.id.
        pose proof (fact_pos N). lia. }
      fold c0. rewrite Hloop. reflexivity.
    + destruct Hm as [H1 [H2 H3]]. split; [|split; [|split]].
      * intros k Hk. apply H2. lia.
      * destruct H3 as [H3|[k [Hk H3]]].
        -- exists N. split; [lia|]. apply Qle_antisym.
           ++ rewrite H3. apply weight_top_ge_1.
           ++ apply H2. lia.
        -- exists k. split; [lia | assumption].
      * apply weight_zero.
      * intros k Hk. now apply weight_succ.
Qed.
End RichardsonFacts.

Lemma richardson_weighted_sum_witness :
  (3 <= length [1#1; 3#2; 11#6; 25#12; 137#60; 49#20; 363#140])%nat /\
  exists seq' v maxc,
    richardson_seq (QNum.ops 53) [1#1; 3#2; 11#6; 25#12; 137#60; 49#20; 363#140]
      = Ret seq' /\
    richardson (QNum.ops 53) [1#1; 3#2; 11#6; 25#12; 137#60; 49#20; 363#140]
      = Ret (v, maxc).
Proof.
  split; [simpl; lia|].
  destruct (@RichardsonFacts.richardson_weighted_sum 53
              [1#1; 3#2; 11#6; 25#12; 137#60; 49#20; 363#140])
    as [seq' [v [maxc [H1 [_ [H2 _]]]]]]; [simpl; lia|].
  exists seq', v, maxc. split; assumption.
Defined.

(* ------------------------------------------------------------------ *)
(** * The precision register *)

Section Precision.
Context {E F : Type}.
Variable arith : Z -> NumOps F.

Lemma try_finally_prec {A} (body : M E A) (orig : Z) (w w' : world E)
    (r : res A) :
  try_finally body (set_prec orig) w = Done r w' -> prec w' = orig.
Proof.
  unfold try_finally, set_prec.
  destruct (body w) as [r0 w0|]; [|discriminate].
  intros [= _ <-]. reflexivity.
Qed.

Lemma adaptive_extrapolation_prec (R : Rng) (dps_of_prec : Z -> Z)
    (fuel : nat) (update : list F -> Z -> Z -> M E (list F))
    (emfun : option (Z -> F -> M E (F * F))) (kw : kwargs F)
    (w w' : world E) (r : res F) :
  adaptive_extrapolation arith R dps_of_prec fuel update emfun kw w
    = Done r w' ->
  prec w' = prec w.
Proof.
  unfold adaptive_extrapolation, bind, get_prec, liftR.
  destruct (parse_method _) as [[[tr ts] te]|e].
  - apply try_finally_prec.
  - intros [= _ <-]. reflexivity.
Qed.

Lemma sumem_prec
    (diffs : (point F -> M E F) -> point F -> iterator E F)
    (quad : (point F -> M E F) -> point F * point F -> M E (F * F))
    (fuel : nat) (f : point F -> M E F) (interval : point F * point F)
    (tol : option F) (reject : F) (integral : option F)
    (adiffs bdiffs : option (iterator E F)) (error : bool)
    (w w' : world E) (r : res (sumem_result (F:=F))) :
  sumem arith diffs quad fuel f interval tol reject integral adiffs bdiffs
        error w = Done r w' ->
  prec w' = prec w.
Proof.
  unfold sumem. destruct interval as [a b].
  unfold bind at 1. unfold get_prec at 1.
  unfold bind at 1. unfold get_prec at 1.
  unfold bind at 1.
  match goal with
  | |- context [try_finally ?b ?f w] =>
      destruct (try_finally b f w) as [[[s err]|e] w1|] eqn:Ht
  end; try discriminate.
  - apply try_finally_prec in Ht.
    destruct error; unfold ret; intros [= _ <-]; assumption.
  - apply try_finally_prec in Ht. intros [= _ <-]. assumption.
Qed.

(** C3.  Whenever [adaptive_extrapolation] or [sumem] returns a value or
    propagates an exception, whatever the callbacks did, the precision
    register holds the value it had at entry. *)
Theorem precision_restored :
  (forall (R : Rng) (dps_of_prec : Z -> Z) (fuel : nat)
          (update : list F -> Z -> Z -> M E (list F))
          (emfun : option (Z -> F -> M E (F * F))) (kw : kwargs F)
          (w w' : world E) (r : res F),
      adaptive_extrapolation arith R dps_of_prec fuel update emfun kw w
        = Done r w' ->
      prec w' = prec w) /\
  (forall (diffs : (point F -> M E F) -> point F -> iterator E F)
          (quad : (point F -> M E F) -> point F * point F -> M E (F * F))
          (fuel : nat) (f : point F -> M E F)
          (interval : point F * point F) (tol : option F) (reject : F)
          (integral : option F) (adiffs bdiffs : option (iterator E F))
          (error : bool) (w w' : world E) (r : res (sumem_result (F:=F))),
      sumem arith diffs quad fuel f interval tol reject integral adiffs
            bdiffs error w = Done r w' ->
      prec w' = prec w).
Proof.
  split.
  - intros. eapply adaptive_extrapolation_prec. eassumption.
  - intros. eapply sumem_prec. eassumption.
Qed.
End Precision.

Lemma precision_restored_witness :
  (exists r w',
     adaptive_extrapolation QNum.ops (QNum.const_rng 1) QNum.dps 10
       (update QNum.ops (Demo.term Demo.two_pow) 0)
       None (Demo.options 100 None "r+s" (Demo.one_step 3)) Demo.start
     = Done (Ret r) w' /\ prec w' = 53%Z) /\
  (exists w',
     adaptive_extrapolation QNum.ops (QNum.const_rng 1) QNum.dps 10
       (update QNum.ops Demo.failing 0)
       None (Demo.options 100 None "r+s" (Demo.one_step 3)) Demo.start
     = Done (Raise (UserError 1)) w' /\ prec w' = 53%Z) /\
  (exists r w',
     Demo.sumemQ 20 (Demo.term Demo.two_pow) (Fin 0, PosInf) None 10
                 None None None true Demo.start
     = Done (Ret r) w' /\ prec w' = 53%Z).
Proof.
  split; [|split].
  - eexists. eexists. split; [vm_compute; reflexivity|].
    apply (proj1 (@precision_restored Demo.log Q QNum.ops)
             (QNum.const_rng 1) QNum.dps 10%nat
             (update QNum.ops (Demo.term Demo.two_pow) 0)
             None (Demo.options 100 None "r+s" (Demo.one_step 3))
             Demo.start _ (Ret 7)).
    vm_compute. reflexivity.
  - eexists. split; [vm_compute; reflexivity|].
    apply (proj1 (@precision_restored Demo.log Q QNum.ops)
             (QNum.const_rng 1) QNum.dps 10%nat
             (update QNum.ops Demo.failing 0)
             None (Demo.options 100 None "r+s" (Demo.one_step 3))
             Demo.start _ (Raise (UserError 1))).
    vm_compute. reflexivity.
  - eexists. eexists. split; [vm_compute; reflexivity|].
    eapply (proj2 (@precision_restored Demo.log Q QNum.ops)
             Demo.diffs0 Demo.quad0 20%nat (Demo.term Demo.two_pow)
             (Fin 0, PosInf) None 10 None None None true Demo.start).
    vm_compute. reflexivity.
Defined.

(* ------------------------------------------------------------------ *)
(** * The correction series of [sumem] *)

Section Corrections.
Context {E F : Type}.
Variable arith : Z -> NumOps F.
Variables da db : nat -> F.
Variables tol reject : F.

Local Abbreviation loop fuel k s err prev :=
  (sumem_loop (E:=E) arith fuel (pure_iter da) (pure_iter db) tol reject
              k s err prev).

Lemma sumem_loop_even (fuel k : nat) (s err prev : F) (w : world E) :
  Nat.odd k = false ->
  loop (S fuel) k s err prev w = loop fuel (S k) s err prev w.
Proof.
  intros Hk. cbn [sumem_loop]. unfold pure_iter, bind, ret.
  rewrite Hk. reflexivity.
Qed.

Lemma sumem_loop_odd (fuel k : nat) (s err prev : F) (w : world E) :
  Nat.odd k = true ->
  loop (S fuel) k s err prev w =
  match sumem_term (arith (prec w)) tol reject k (da k) (db k) s err prev with
  | Ret (inl out) => Done (Ret out) w
  | Ret (inr (s', prev')) => loop fuel (S k) s' err prev' w
  | Raise e => Done (Raise e) w
  end.
Proof.
  intros Hk. cbn [sumem_loop]. unfold pure_iter, bind, ret, get_prec, liftR.
  rewrite Hk.
  destruct (sumem_term _ _ _ _ _ _ _ _ _) as [[out|[s' prev']]|e];
    reflexivity.
Qed.

End Corrections.



(* ------------------------------------------------------------------ *)
(** * The orchestrator *)

Section OrchestratorFacts.
Context {E F : Type}.
Variable arith : Z -> NumOps F.
Variable R : Rng.
Variable dps_of_prec : Z -> Z.

Lemma parse_method_total (method : list string) :
  parse_method method = Ret (method_flags method).
Proof. reflexivity. Qed.

Lemma has_known_tag_flags (method : list string) :
  has_known_tag method = false -> method_flags method = (false, false, false).
Proof.
  unfold has_known_tag, known_tags, method_flags. cbn [existsb].
  intros H. repeat (apply orb_false_elim in H; destruct H as [? H]).
  repeat match goal with Hx : str_in _ method = false |- _ => rewrite Hx; clear Hx end.
  reflexivity.
Qed.


Lemma direct_check_short (O : NumOps F) (tol : F) (st : ae_state F) :
  (length (partial st) < 2)%nat -> direct_check O tol st = Raise IndexError.
Proof.
  intros H. unfold direct_check, index_back.
  destruct (partial st) as [|x [|y l]]; simpl in *; try reflexivity. lia.
Qed.

Lemma direct_check_long (O : NumOps F) (tol : F) (st : ae_state F)
    (r : flow F (ae_state F)) :
  direct_check O tol st = Ret r -> (2 <= length (partial st))%nat.
Proof.
  intros H. destruct (Nat.lt_ge_cases (length (partial st)) 2) as [Hl|Hl];
    [|assumption].
  rewrite direct_check_short in H by assumption. discriminate.
Qed.

Lemma adaptive_extrapolation_unfold (fuel : nat)
    (update : list F -> Z -> Z -> M E (list F))
    (emfun : option (Z -> F -> M E (F * F))) (kw : kwargs F) (w : world E) :
  adaptive_extrapolation arith R dps_of_prec fuel update emfun kw w
  = let O0 := arith (prec w) in
    let fl := method_flags (ae_method kw) in
    try_finally
      (bind (set_prec (elevated kw (prec w)))
         (fun _ =>
            ae_loop arith R fuel update emfun
              (option_default (kw_steps kw) default_steps)
              (option_default (kw_tol kw) (div O0 (eps O0) (lift O0 (2 ^ 10))))
              (option_default (kw_maxterms kw) (dps_of_prec (prec w) * 10)%Z)
              (ae_init O0 (fst (fst fl)) (snd (fst fl)) (snd fl))))
      (set_prec (prec w)) w.
Proof.
  unfold adaptive_extrapolation, elevated, ae_method.
  unfold bind at 1. unfold get_prec at 1.
  rewrite parse_method_total.
  destruct (method_flags _) as [[tr ts] te].
  reflexivity.
Qed.

(** The alternating-series detector reads the last two entries of
    [partial], the partial sums, and nothing else. *)
Lemma euler_maclaurin_check_decision
    (emfun : option (Z -> F -> M E (F * F))) (tol : F) (st : ae_state F)
    (x1 x2 : F) (w : world E) :
  TRY_EULER_MACLAURIN st = true ->
  index_back (partial st) 1 = Ret x1 ->
  index_back (partial st) 2 = Ret x2 ->
  let O := arith (prec w) in
  is_zero O (sign O x2) = false ->
  ae O (div O (sign O x1) (sign O x2)) (lift O (-1)) = true ->
  euler_maclaurin_check arith emfun tol st w
  = Done (Ret (Continue (set_euler_maclaurin st false))) w.
Proof.
  intros Ht H1 H2 O Hz Hae.
  unfold euler_maclaurin_check. rewrite Ht.
  unfold bind at 1, get_prec at 1. fold O.
  unfold bind at 1, liftR at 1. rewrite H1, H2.
  cbv beta iota delta [rbind]. unfold pdiv. rewrite Hz, Hae. reflexivity.
Qed.

Lemma euler_maclaurin_check_estimate
    (em : Z -> F -> M E (F * F)) (tol : F) (st : ae_state F)
    (x1 x2 : F) (w : world E) :
  TRY_EULER_MACLAURIN st = true ->
  index_back (partial st) 1 = Ret x1 ->
  index_back (partial st) 2 = Ret x2 ->
  let O := arith (prec w) in
  is_zero O (sign O x2) = false ->
  ae O (div O (sign O x1) (sign O x2)) (lift O (-1)) = false ->
  euler_maclaurin_check arith (Some em) tol st w
  = bind (em (idx st + 1)%Z tol)
      (fun ve =>
         bind get_prec (fun p =>
           let value := add (arith p) (fst ve) x1 in
           if leb (arith p) (snd ve) tol then ret (Return_ value)
           else if ltb (arith p) (snd ve) (error st)
                then ret (Continue (set_best_error st value (error st)))
                else ret (Continue st))) w.
Proof.
  intros Ht H1 H2 O Hz Hae.
  unfold euler_maclaurin_check. rewrite Ht.
  unfold bind at 1, get_prec at 1. fold O.
  unfold bind at 1, liftR at 1. rewrite H1, H2.
  cbv beta iota delta [rbind]. unfold pdiv. rewrite Hz, Hae.
  unfold bind, get_prec, liftR.
  destruct (em (idx st + 1)%Z tol w) as [[[value em_error]|e] w'|];
    reflexivity.
Qed.

(** C10, as amended.  When at least one batch is asked for (0 < maxterms):
    if the first call of [update] leaves fewer than two partial sums, the
    direct-error check raises IndexError, which leaves the function with
    the precision restored; and a run that returns a value had a first
    batch of at least two partial sums. *)
Theorem first_batch_too_short (fuel : nat)
    (update : list F -> Z -> Z -> M E (list F))
    (emfun : option (Z -> F -> M E (F * F))) (kw : kwargs F) (w : world E) :
  let maxterms :=
    option_default (kw_maxterms kw) (dps_of_prec (prec w) * 10)%Z in
  let w1 := {| prec := elevated kw (prec w); ext := ext w |} in
  (0 < maxterms)%Z ->
  (forall part w2,
     update [] 0%Z (first_step kw) w1 = Done (Ret part) w2 ->
     (length part < 2)%nat ->
     adaptive_extrapolation arith R dps_of_prec (S fuel) update emfun kw w
     = Done (Raise IndexError) {| prec := prec w; ext := ext w2 |}) /\
  (forall v w',
     adaptive_extrapolation arith R dps_of_prec fuel update emfun kw w
     = Done (Ret v) w' ->
     exists part w2,
       update [] 0%Z (first_step kw) w1 = Done (Ret part) w2 /\
       (2 <= length part)%nat).
Proof.
  intros maxterms w1 Hmax.
  assert (Hstep : forall fuel',
    ae_loop arith R (S fuel') update emfun
      (option_default (kw_steps kw) default_steps)
      (option_default (kw_tol kw)
         (div (arith (prec w)) (eps (arith (prec w)))
              (lift (arith (prec w)) (2 ^ 10))))
      maxterms
      (ae_init (arith (prec w))
         (fst (fst (method_flags (ae_method kw))))
         (snd (fst (method_flags (ae_method kw))))
         (snd (method_flags (ae_method kw)))) w1
    = match update [] 0%Z (first_step kw) w1 with
      | Done (Ret part) w2 =>
          match
            direct_check (arith (prec w2))
              (option_default (kw_tol kw)
                 (div (arith (prec w)) (eps (arith (prec w)))
                      (lift (arith (prec w)) (2 ^ 10))))
              (set_batch
                 (ae_init (arith (prec w))
                    (fst (fst (method_flags (ae_method kw))))
                    (snd (fst (method_flags (ae_method kw))))
                    (snd (method_flags (ae_method kw))))
                 (first_step kw) (first_step kw)
                 (snd (next_step (option_default (kw_steps kw) default_steps)
                                 0 10))
                 part)
          with
          | Raise e => Done (Raise e) w2
          | Ret _ =>
              ae_loop arith R (S fuel') update emfun
                (option_default (kw_steps kw) default_steps)
                (option_default (kw_tol kw)
                   (div (arith (prec w)) (eps (arith (prec w)))
                        (lift (arith (prec w)) (2 ^ 10))))
                maxterms
                (ae_init (arith (prec w))
                   (fst (fst (method_flags (ae_method kw))))
                   (snd (fst (method_flags (ae_method kw))))
                   (snd (method_flags (ae_method kw)))) w1
          end
      | Done (Raise e) w2 => Done (Raise e) w2
      | Hang => Hang
      end).
  { intros fuel'.
    destruct (update [] 0%Z (first_step kw) w1) as [[part|e] w2|] eqn:Hup.
    - destruct (direct_check _ _ _) as [r|e] eqn:Hd; [reflexivity|].
      cbn [ae_loop ae_init idx].
      destruct (Z.leb_spec maxterms 0); [lia|].
      unfold bind at 1, ae_iteration.
      cbn [ae_init idx partial Z.add steps_pos step].
      fold (first_step kw).
      unfold bind at 1. rewrite Hup.
      unfold ae_checks, bind at 1, get_prec at 1.
      unfold bind at 1, liftR at 1.
      cbn [ae_init] in Hd. rewrite Hd. reflexivity.
    - cbn [ae_loop ae_init idx].
      destruct (Z.leb_spec maxterms 0); [lia|].
      unfold bind at 1, ae_iteration.
      cbn [ae_init idx partial Z.add steps_pos step].
      fold (first_step kw).
      unfold bind at 1. rewrite Hup. reflexivity.
    - cbn [ae_loop ae_init idx].
      destruct (Z.leb_spec maxterms 0); [lia|].
      unfold bind at 1, ae_iteration.
      cbn [ae_init idx partial Z.add steps_pos step].
      fold (first_step kw).
      unfold bind at 1. rewrite Hup. reflexivity. }
  split.
  - intros part w2 Hup Hlen.
    rewrite adaptive_extrapolation_unfold. cbv zeta.
    unfold try_finally, bind at 1, set_prec at 1. fold w1.
    fold maxterms. rewrite Hstep, Hup.
    rewrite direct_check_short by (cbn; assumption).
    reflexivity.
  - intros v w' Hrun.
    rewrite adaptive_extrapolation_unfold in Hrun. cbv zeta in Hrun.
    unfold try_finally, bind at 1, set_prec at 1 in Hrun. fold w1 in Hrun.
    fold maxterms in Hrun.
    destruct fuel as [|fuel']; [discriminate|].
    rewrite Hstep in Hrun.
    destruct (update [] 0%Z (first_step kw) w1) as [[part|e] w2|];
      [|discriminate..].
    exists part, w2. split; [reflexivity|].
    destruct (direct_check _ _ _) as [r|e] eqn:Hd; [|discriminate].
    apply direct_check_long in Hd. exact Hd.
Qed.
End OrchestratorFacts.

(* ------------------------------------------------------------------ *)
(** * Runs on concrete inputs *)

(** The example of the docstring of [shanks]. *)
Example shanks_geometric :
  shanks (QNum.ops 53) (QNum.const_rng 1)
    [1#2; 3#4; 7#8; 15#16; 31#32] None false = Ret [[4#1]; [8#1; 1#1]].
Proof. vm_compute. reflexivity. Qed.

(** C4, as stated, fails: on the geometric sequence of the docstring the
    last row of the returned table has two entries. *)
Lemma shanks_last_row_not_odd :
  ~ (forall (seq : list Q) (T : table Q) (row : list Q),
       (2 <= length seq)%nat ->
       shanks (QNum.ops 53) (QNum.const_rng 1) seq None false = Ret T ->
       index_back T 1 = Ret row ->
       Nat.odd (length row) = true).
Proof.
  intros H.
  specialize (H [1#2; 3#4; 7#8; 15#16; 31#32] [[4#1]; [8#1; 1#1]] [8#1; 1#1]).
  assert (Hodd : Nat.odd (length [8#1; 1#1]) = true).
  { apply H; [simpl; lia | apply shanks_geometric | reflexivity]. }
  discriminate Hodd.
Qed.

Lemma shanks_last_row_even_witness :
  (2 <= length [1#2; 3#4; 7#8; 15#16; 31#32])%nat /\
  exists T,
    shanks (QNum.ops 53) (QNum.const_rng 1)
           [1#2; 3#4; 7#8; 15#16; 31#32] None false = Ret T /\
    wf_table T /\
    Nat.even (length T) = true /\
    (T = [] \/
     exists row, index_back T 1 = Ret row /\ length row = length T /\
                 Nat.even (length row) = true).
Proof.
  split; [simpl; lia|].
  apply (shanks_last_row_even (QNum.ops 53) (QNum.const_rng 1)
           [1#2; 3#4; 7#8; 15#16; 31#32]).
  simpl; lia.
Defined.

Lemma shanks_randomized_zero_draw_witness :
  shanks (QNum.ops 53) (QNum.const_rng 0) [1#1; 1#1; 1#1] None true
  = Raise ZeroDivisionError.
Proof.
  apply (@shanks_randomized_zero_draw Q (QNum.ops 53) (QNum.const_rng 0)
           [1#1; 1#1; 1#1] None (1#1) (1#1));
    [simpl; lia | vm_compute; lia | reflexivity ..].
Defined.

(** C2, what the code does.  A sum over [-inf, b] is handed on as the sum
    over [-b, inf] of the same [f], so the terms are f(-b), f(-b+1), ...;
    for f(k) = 2^k and b = -1 the code evaluates f at 1, 2, 3 and returns
    2 + 4 + 8, where the terms asked for are f(-1), f(-2), f(-3).  A sum
    over [-inf, inf] is f(0) plus the sum over [1, inf] of f(-k) + f(k). *)
Theorem nsum_left_infinite_reindexing :
  (forall fuel f b kw,
     Demo.nsumQ fuel f (NegInf, Fin b) kw
     = nsum_forward QNum.ops (QNum.const_rng 1) QNum.dps Demo.diffs0
                    Demo.quad0 fuel f (Fin (- b)%Z) PosInf kw) /\
  Demo.nsumQ 10 (Demo.term Demo.two_pow) (NegInf, Fin (-1)%Z)
             (Demo.options 100 None "d" (Demo.one_step 3)) Demo.start
  = Done (Ret 14) {| prec := 53; ext := [3#1; 2#1; 1#1] |} /\
  (forall fuel f kw,
     Demo.nsumQ fuel f (NegInf, PosInf) kw
     = bind get_prec (fun p =>
       bind (f (Fin (lift (QNum.ops p) 0))) (fun x =>
       bind (nsum_forward QNum.ops (QNum.const_rng 1) QNum.dps Demo.diffs0
               Demo.quad0 fuel (paired QNum.ops f) (Fin 1%Z) PosInf kw)
            (fun y =>
       bind get_prec (fun p => ret (add (QNum.ops p) x y)))))).
Proof.
  split; [|split].
  - reflexivity.
  - vm_compute. reflexivity.
  - reflexivity.
Qed.

(** C8, what the code does.  For the terms (-1)^k / (k+1) the last two
    terms of the first batch of three have sign ratio -1, yet
    Euler-Maclaurin stays enabled: the partial sums 1/2 and 5/6 have the
    same sign, the tail estimate is computed (f is evaluated at 4) and
    its value is returned. *)
Theorem euler_maclaurin_detector_reads_partial_sums :
  QNum.qsign (Demo.alternating (2#1)) / QNum.qsign (Demo.alternating (1#1))
    == -1 /\
  Demo.nsumQ 10 (Demo.term Demo.alternating) (Fin 0%Z, PosInf)
             (Demo.options (1#1000) None "e" (Demo.one_step 3)) Demo.start
  = Done (Ret (14#15)) {| prec := 53; ext := [4#1; 2#1; 1#1; 0#1] |}.
Proof.
  split; [reflexivity | vm_compute; reflexivity].
Qed.



(** C10, as stated, fails: with [maxterms=0] and [steps=[1]] the run
    returns mpf(0) and no batch was generated. *)
Lemma no_batch_returns :
  Demo.nsumQ 10 (Demo.term Demo.two_pow) (Fin 0%Z, PosInf)
             (Demo.options 100 (Some 0%Z) "r+s" (Demo.one_step 1)) Demo.start
  = Done (Ret 0) {| prec := 53; ext := [] |}.
Proof. vm_compute. reflexivity. Qed.

Lemma first_batch_too_short_witness :
  adaptive_extrapolation QNum.ops (QNum.const_rng 1) QNum.dps 10
    (update QNum.ops (Demo.term Demo.two_pow) 0) None
    (Demo.options 100 None "r+s" (Demo.one_step 1)) Demo.start
  = Done (Raise IndexError) {| prec := 53; ext := [0#1] |}.
Proof.
  apply (proj1 (@first_batch_too_short Demo.log Q QNum.ops
                  (QNum.const_rng 1) QNum.dps 9%nat
                  (update QNum.ops (Demo.term Demo.two_pow) 0) None
                  (Demo.options 100 None "r+s" (Demo.one_step 1)) Demo.start
                  eq_refl)
           [1#1] {| prec := 212; ext := [0#1] |}).
  - vm_compute. reflexivity.
  - simpl. lia.
Defined.

(* ------------------------------------------------------------------ *)
(** * Properties of [difference_delta] and [polyval] *)

Module PolyFacts.
Import PolySpec.

Lemma binom_0_r (n : nat) : QNum.binom n 0 = 1%Z.
Proof. destruct n; reflexivity. Qed.

Lemma binom_succ_r (n k : nat) :
  ((Z.of_nat k + 1) * QNum.binom n (S k)
   = (Z.of_nat n - Z.of_nat k) * QNum.binom n k)%Z.
Proof.
  assert (H0 : forall m, QNum.binom m 0 = 1%Z) by (intros [|m]; reflexivity).
  revert k. induction n as [|n IH]; intros k.
  - destruct k; simpl; lia.
  - destruct k as [|j].
    + specialize (IH 0%nat).
      change (QNum.binom (S n) 1) with (QNum.binom n 0 + QNum.binom n 1)%Z.
      rewrite !H0 in *. rewrite Nat2Z.inj_succ. simpl Z.of_nat in *. lia.
    + pose proof (IH j) as H1. pose proof (IH (S j)) as H2.
      change (QNum.binom (S n) (S (S j)))
        with (QNum.binom n (S j) + QNum.binom n (S (S j)))%Z.
      change (QNum.binom (S n) (S j))
        with (QNum.binom n j + QNum.binom n (S j))%Z.
      rewrite !Nat2Z.inj_succ in *. nia.
Qed.

Lemma minus_one_land (n : nat) :
  ((-1) ^ Z.land (Z.of_nat n) 1 = (-1) ^ Z.of_nat n)%Z.
Proof.
  change 1%Z with (Z.ones 1). rewrite Z.land_ones by lia.
  change (2 ^ 1)%Z with 2%Z.
  assert (Hq : (0 <= Z.of_nat n / 2)%Z) by (apply Z.div_pos; lia).
  assert (Hr : (0 <= Z.of_nat n mod 2 < 2)%Z) by (apply Z.mod_pos_bound; lia).
  rewrite (Z.div_mod (Z.of_nat n) 2) at 2 by lia.
  rewrite Z.pow_add_r by lia. rewrite Z.pow_mul_r by lia.
  change ((-1) ^ 2)%Z with 1%Z. rewrite Z.pow_1_l by lia.
  rewrite Z.mul_1_l. reflexivity.
Qed.

(** The integer recurrence of the code produces the signed binomials. *)
Lemma delta_weight_succ (n k : nat) :
  (((-1) ^ Z.of_nat (k + n) * QNum.binom n k)
     * (Z.of_nat k - Z.of_nat n) / (Z.of_nat k + 1)
   = (-1) ^ Z.of_nat (S k + n) * QNum.binom n (S k))%Z.
Proof.
  replace (Z.of_nat (S k + n)) with (Z.succ (Z.of_nat (k + n))) by lia.
  rewrite Z.pow_succ_r by lia.
  replace ((-1) ^ Z.of_nat (k + n) * QNum.binom n k
           * (Z.of_nat k - Z.of_nat n))%Z
    with ((-1 * (-1) ^ Z.of_nat (k + n) * QNum.binom n (S k))
          * (Z.of_nat k + 1))%Z.
  - apply Z.div_mul. lia.
  - transitivity (-1 * (-1) ^ Z.of_nat (k + n)
                  * ((Z.of_nat k + 1) * QNum.binom n (S k)))%Z; [ring|].
    rewrite binom_succ_r. ring.
Qed.

Section Delta.
Context {F : Type} (O : NumOps F).

Lemma difference_delta_loop_weights (s : list F) (n : nat) :
  forall m j d,
    difference_delta_loop O (List.seq j m) s n
      (d, ((-1) ^ Z.of_nat (j + n) * QNum.binom n j)%Z)
    = match delta_fold O (List.seq j m) s n d with
      | Ret d' =>
          Ret (d', ((-1) ^ Z.of_nat (j + m + n) * QNum.binom n (j + m))%Z)
      | Raise e => Raise e
      end.
Proof.
  induction m as [|m IH]; intros j d.
  - simpl. rewrite Nat.add_0_r. reflexivity.
  - cbn [List.seq difference_delta_loop delta_fold].
    unfold difference_delta_step.
    destruct (index s j) as [x|e]; [|reflexivity].
    cbv beta iota delta [rbind].
    rewrite delta_weight_succ, IH.
    replace (S j + m)%nat with (j + S m)%nat by lia. reflexivity.
Qed.

Lemma difference_delta_weights (s : list F) (n : nat) :
  difference_delta O s n = delta_fold O (List.seq 0 (n + 1)) s n (mpf O 0).
Proof.
  unfold difference_delta. rewrite minus_one_land.
  pose proof (difference_delta_loop_weights s n (n + 1) 0 (mpf O 0)) as H.
  simpl plus in H. rewrite binom_0_r, Z.mul_1_r in H. rewrite H.
  destruct (delta_fold _ _ _ _); reflexivity.
Qed.

Lemma delta_fold_short (s : list F) (n : nat) :
  forall m j d,
    (j <= length s < j + m)%nat ->
    delta_fold O (List.seq j m) s n d = Raise IndexError.
Proof.
  induction m as [|m IH]; intros j d H; [lia|].
  cbn [List.seq delta_fold]. unfold index.
  destruct (nth_error s j) as [x|] eqn:Hx.
  - cbv beta iota delta [rbind]. apply IH.
    assert (j < length s)%nat by (apply nth_error_Some; congruence). lia.
  - reflexivity.
Qed.

Lemma delta_fold_firstn (s : list F) (n : nat) :
  forall m j d,
    (j + m <= length s)%nat ->
    delta_fold O (List.seq j m) (firstn (j + m) s) n d
    = delta_fold O (List.seq j m) s n d
    /\ exists v, delta_fold O (List.seq j m) s n d = Ret v.
Proof.
  induction m as [|m IH]; intros j d H.
  - simpl. eauto.
  - cbn [List.seq delta_fold]. unfold index.
    rewrite nth_error_firstn.
    destruct (Nat.ltb_spec j (j + S m)) as [_|]; [|lia].
    destruct (nth_error s j) as [x|] eqn:Hx.
    2:{ apply nth_error_None in Hx. lia. }
    cbv beta iota delta [rbind].
    replace (j + S m)%nat with (S j + m)%nat by lia.
    apply IH. lia.
Qed.

(** X2.  [difference_delta(s, n)] raises IndexError exactly when [s] has
    fewer than n+1 items; otherwise it returns a value that depends on
    the first n+1 items only. *)
Theorem difference_delta_bounds (s : list F) (n : nat) :
  ((length s <= n)%nat -> difference_delta O s n = Raise IndexError) /\
  ((n < length s)%nat ->
     (exists v, difference_delta O s n = Ret v) /\
     difference_delta O (firstn (n + 1) s) n = difference_delta O s n).
Proof.
  rewrite !difference_delta_weights. split; intros H.
  - apply delta_fold_short. lia.
  - destruct (@delta_fold_firstn s n (n + 1)%nat 0%nat (mpf O 0)) as [H1 H2];
      [lia|].
    split; assumption.
Qed.
End Delta.

Lemma delta_fold_Q (p : Z) (s : list Q) (n : nat) :
  forall m j d,
    (j + m <= length s)%nat ->
    d == delta_sum n s j ->
    exists v, delta_fold (QNum.ops p) (List.seq j m) s n d = Ret v /\
              v == delta_sum n s (j + m).
Proof.
  induction m as [|m IH]; intros j d H Hd.
  - simpl. exists d. split; [reflexivity|]. now rewrite Nat.add_0_r.
  - cbn [List.seq delta_fold]. unfold index.
    destruct (nth_error s j) as [x|] eqn:Hx.
    2:{ apply nth_error_None in Hx. lia. }
    cbv beta iota delta [rbind].
    replace (j + S m)%nat with (S j + m)%nat by lia.
    apply IH; [lia|].
    cbn [QNum.ops add mul lift delta_sum].
    rewrite !Qred_correct, Hd, (nth_error_nth _ _ 0 Hx). reflexivity.
Qed.

(** X1.  In exact rational arithmetic, for a sequence of at least n+1
    items, [difference_delta(s, n)] is the n-th forward difference
    sum_{k=0..n} (-1)^(k+n) C(n,k) s_k: the integer recurrence
    b <- b*(k-n) // (k+1) divides exactly. *)
Theorem difference_delta_binomial (p : Z) (s : list Q) (n : nat) :
  (n < length s)%nat ->
  exists v, difference_delta (QNum.ops p) s n = Ret v /\
            v == delta_sum n s (n + 1).
Proof.
  intros H. rewrite difference_delta_weights.
  apply (@delta_fold_Q p s n (n + 1)%nat 0%nat); [lia | reflexivity].
Qed.

Lemma qdpow_shift (x : Q) (m : nat) :
  x * qdpow x m == inject_Z (Z.of_nat m) * qpow x m.
Proof.
  destruct m as [|k]; cbn [qdpow qpow].
  - change (inject_Z (Z.of_nat 0)) with 0. ring.
  - ring.
Qed.

Lemma polyval_loop_Q (p : Z) (x : Q) (der : bool) :
  forall cs a b,
    let r := polyval_loop (QNum.ops p) cs x der a b in
    fst r == a * qpow x (length cs) + poly_sum cs x /\
    (der = true ->
     snd r == b * qpow x (length cs) + a * qdpow x (length cs)
              + poly_dsum cs x).
Proof.
  induction cs as [|c cs IH]; intros a b.
  - simpl. split; [ring | intros _; ring].
  - cbn [polyval_loop]. cbv zeta.
    destruct (IH (add (QNum.ops p) c (mul (QNum.ops p) x a))
                 (if der then add (QNum.ops p) a (mul (QNum.ops p) x b) else b))
      as [H1 H2].
    split.
    + rewrite H1. cbn [QNum.ops add mul length qpow poly_sum].
      rewrite !Qred_correct. ring.
    + intros Hd. rewrite (H2 Hd). subst der.
      cbn [QNum.ops add mul length poly_dsum].
      rewrite !Qred_correct.
      change (qdpow x (S (length cs)))
        with (inject_Z (Z.of_nat (S (length cs))) * qpow x (length cs)).
      rewrite Nat2Z.inj_succ. unfold Z.succ. rewrite inject_Z_plus.
      cbn [qpow].
      transitivity (b * (x * qpow x (length cs))
                    + a * qpow x (length cs)
                    + a * (x * qdpow x (length cs))
                    + c * qdpow x (length cs) + poly_dsum cs x); [ring|].
      rewrite qdpow_shift. change (inject_Z 1) with 1. ring.
Qed.

(** X3.  In exact rational arithmetic [polyval] evaluates the polynomial
    whose coefficients are given highest degree first, and with
    [derivative=True] and at least one coefficient it returns the pair of
    the value and of the derivative of the polynomial; for no coefficient
    it returns the single number 0 whatever [derivative] is. *)
Theorem polyval_horner (p : Z) (cs : list Q) (x : Q) :
  (exists v, polyval (QNum.ops p) cs x false = Value v /\
             v == poly_sum cs x) /\
  (cs <> [] ->
   exists v d, polyval (QNum.ops p) cs x true = ValueAndDerivative v d /\
               v == poly_sum cs x /\ d == poly_dsum cs x) /\
  polyval (QNum.ops p) [] x true = Value 0.
Proof.
  split; [|split].
  - destruct cs as [|c cs].
    + exists 0. split; reflexivity.
    + unfold polyval.
      pose proof (@polyval_loop_Q p x false cs c (mpf (QNum.ops p) 0)) as H.
      destruct (polyval_loop _ _ _ _ _ _) as [v q]. cbv zeta in H.
      destruct H as [H _]. exists v. split; [reflexivity|].
      cbn [fst] in H. rewrite H. cbn [poly_sum]. ring.
  - intros Hne. destruct cs as [|c cs]; [contradiction|].
    unfold polyval.
    pose proof (@polyval_loop_Q p x true cs c (mpf (QNum.ops p) 0)) as H.
    destruct (polyval_loop _ _ _ _ _ _) as [v q]. cbv zeta in H.
    destruct H as [H1 H2]. specialize (H2 eq_refl). cbn [fst snd] in *.
    exists v, q. split; [reflexivity|]. split.
    + rewrite H1. cbn [poly_sum]. ring.
    + rewrite H2. cbn [poly_dsum QNum.ops mpf].
      change (inject_Z 0) with 0. ring.
  - reflexivity.
Qed.
End PolyFacts.

Lemma difference_delta_binomial_witness :
  exists v, difference_delta (QNum.ops 53) [1#1; 4#1; 9#1; 16#1] 2 = Ret v /\
            v == PolySpec.delta_sum 2 [1#1; 4#1; 9#1; 16#1] (2 + 1).
Proof.
  apply (@PolyFacts.difference_delta_binomial 53 [1#1; 4#1; 9#1; 16#1] 2).
  simpl; lia.
Defined.

Lemma difference_delta_bounds_witness :
  difference_delta (QNum.ops 53) [1#1; 4#1] 2 = Raise IndexError /\
  difference_delta (QNum.ops 53) (firstn (2 + 1) [1#1; 4#1; 9#1; 16#1]) 2
  = difference_delta (QNum.ops 53) [1#1; 4#1; 9#1; 16#1] 2.
Proof.
  split.
  - apply (proj1 (@PolyFacts.difference_delta_bounds Q (QNum.ops 53)
                    [1#1; 4#1] 2)).
    simpl; lia.
  - apply (proj2 (@PolyFacts.difference_delta_bounds Q (QNum.ops 53)
                    [1#1; 4#1; 9#1; 16#1] 2)).
    simpl; lia.
Defined.

Lemma polyval_horner_witness :
  exists v d, polyval (QNum.ops 53) [3#1; 0#1; 2#1] (1#2) true
              = ValueAndDerivative v d /\
              v == PolySpec.poly_sum [3#1; 0#1; 2#1] (1#2) /\
              d == PolySpec.poly_dsum [3#1; 0#1; 2#1] (1#2).
Proof.
  apply (proj1 (proj2 (@PolyFacts.polyval_horner 53 [3#1; 0#1; 2#1] (1#2)))).
  discriminate.
Defined.

(* ------------------------------------------------------------------ *)
(** * Properties of the ODE solvers *)

Section VectorFacts.
Context {F : Type} (O : NumOps F).

Lemma vadd_entry_ok (rest : list (list F)) (i : nat) :
  (forall x, In x rest -> (i < length x)%nat) ->
  forall s, exists v, vadd_entry O rest i s = Ret v.
Proof.
  induction rest as [|x rest IH]; intros H s; simpl.
  - eauto.
  - destruct (@index_some _ x i) as [xi [-> _]]; [apply H; now left|].
    simpl. apply IH. intros y Hy. apply H. now right.
Qed.

Lemma vadd_entries_ok (first : list F) (rest : list (list F)) :
  forall ixs,
    (forall i, In i ixs -> (i < length first)%nat) ->
    (forall x, In x rest -> length x = length first) ->
    exists v, vadd_entries O ixs first rest = Ret v /\ length v = length ixs.
Proof.
  induction ixs as [|i ixs IH]; intros Hi Hr; simpl.
  - eauto.
  - destruct (@index_some _ first i) as [s0 [-> _]]; [apply Hi; now left|].
    simpl.
    destruct (@vadd_entry_ok rest i) with (s := s0) as [s ->].
    { intros x Hx. rewrite (Hr x Hx). apply Hi. now left. }
    simpl.
    destruct IH as [v [-> Hv]]; [intros j Hj; apply Hi; now right | assumption|].
    simpl. eexists. split; [reflexivity|]. simpl. now rewrite Hv.
Qed.

(** X4.  [vadd] raises AssertionError when it is given fewer than two
    vectors or a vector whose length differs from that of the first, and
    only then; otherwise it returns a vector of the length of the first. *)
Theorem vadd_assertions (args : list (list F)) :
  let n := length (hd [] args) in
  let bad := (length args < 2)%nat \/
             exists x, In x args /\ length x <> n in
  (bad -> vadd O args = Raise AssertionError) /\
  (~ bad -> exists v, vadd O args = Ret v /\ length v = n).
Proof.
  intros n bad. unfold vadd. split.
  - intros [Hlen|[x [Hin Hx]]].
    + destruct (Nat.ltb_spec (length args) 2); [reflexivity | lia].
    + destruct (Nat.ltb_spec (length args) 2); [reflexivity|].
      destruct args as [|first rest]; [contradiction|].
      destruct (forallb _ _) eqn:Hf; [|reflexivity].
      rewrite forallb_forall in Hf. specialize (Hf x Hin).
      apply Nat.eqb_eq in Hf. contradiction.
  - intros Hgood.
    destruct (Nat.ltb_spec (length args) 2) as [Hl|Hl].
    { exfalso. apply Hgood. now left. }
    destruct args as [|first rest]; [simpl in Hl; lia|].
    assert (Hall : forall x, In x (first :: rest) -> length x = length first).
    { intros x Hx.
      destruct (Nat.eq_dec (length x) (length first)) as [He|Hne];
        [assumption|].
      exfalso. apply Hgood. right. exists x. split; assumption. }
    destruct (forallb _ _) eqn:Hf.
    + destruct (@vadd_entries_ok first rest (List.seq 0 (length first)))
        as [v [Hv Hlv]].
      * intros i Hi. apply in_seq in Hi. lia.
      * intros x Hx. apply Hall. now right.
      * exists v. split; [assumption|]. rewrite Hlv, length_seq. reflexivity.
    + exfalso.
      assert (Hf' : forallb (fun x => (length x =? length first)%nat)
                      (first :: rest) = true).
      { apply forallb_forall. intros x Hx. apply Nat.eqb_eq. now apply Hall. }
      congruence.
Qed.
End VectorFacts.


Section OdeintFacts.
Context {E F : Type}.
Variable arith : Z -> NumOps F.
Variable step : F -> list F -> F -> M E (list F).

Lemma odeint_loop_app (t_list : list F) :
  forall ixs1 ixs2 x result w,
    odeint_loop arith step (ixs1 ++ ixs2) t_list x result w
    = bind (odeint_loop arith step ixs1 t_list x result)
        (fun xr => odeint_loop arith step ixs2 t_list (fst xr) (snd xr)) w.
Proof.
  induction ixs1 as [|i ixs1 IH]; intros ixs2 x result w.
  - reflexivity.
  - cbn [app odeint_loop]. unfold bind, get_prec, liftR.
    destruct (index t_list (i + 1)) as [t1|e]; [|reflexivity].
    destruct (index t_list i) as [t0|e]; [|reflexivity].
    destruct (step t0 x (sub (arith (prec w)) t1 t0) w) as [[x'|e] w'|];
      [|reflexivity..].
    rewrite IH. reflexivity.
Qed.

Lemma odeint_loop_prefix (ts : list F) (t : F) :
  forall ixs x result w,
    (forall i, In i ixs -> (i + 1 < length ts)%nat) ->
    odeint_loop arith step ixs (ts ++ [t]) x result w
    = odeint_loop arith step ixs ts x result w.
Proof.
  induction ixs as [|i ixs IH]; intros x result w H.
  - reflexivity.
  - cbn [odeint_loop].
    assert (Hi : (i + 1 < length ts)%nat) by (apply H; now left).
    rewrite !index_app_l by lia.
    unfold bind, get_prec, liftR.
    destruct (index ts (i + 1)) as [t1|e]; [|reflexivity].
    destruct (index ts i) as [t0|e]; [|reflexivity].
    destruct (step t0 x (sub (arith (prec w)) t1 t0) w) as [[x'|e] w'|];
      [|reflexivity..].
    apply IH. intros j Hj. apply H. now right.
Qed.

Lemma odeint_loop_state (t_list : list F) (d : list F) :
  forall ixs x result w x' r' w',
    x = last result d ->
    odeint_loop arith step ixs t_list x result w = Done (Ret (x', r')) w' ->
    x' = last r' d /\ length r' = (length result + length ixs)%nat /\
    exists rows, r' = result ++ rows.
Proof.
  induction ixs as [|i ixs IH]; intros x result w x' r' w' Hx.
  - cbn [odeint_loop]. unfold ret. intros [= <- <- _].
    repeat split; [assumption | simpl; lia | exists []; now rewrite app_nil_r].
  - cbn [odeint_loop]. unfold bind at 1, get_prec at 1.
    unfold bind at 1, liftR at 1.
    destruct (index t_list (i + 1)) as [t1|e]; [|discriminate].
    unfold bind at 1, liftR at 1.
    destruct (index t_list i) as [t0|e]; [|discriminate].
    unfold bind at 1, liftR at 1. unfold bind at 1.
    destruct (step t0 x (sub (arith (prec w)) t1 t0) w) as [[x1|e] w1|];
      [|discriminate..].
    intros H. apply IH in H; [|now rewrite last_last].
    destruct H as [H1 [H2 [rows H3]]]. rewrite length_app in H2. simpl in H2.
    repeat split; [assumption | simpl; lia |].
    exists (x1 :: rows). now rewrite H3, <- app_assoc.
Qed.

Lemma odeint_loop_returns (t_list : list F) :
  (forall t x dt w, exists x' w', step t x dt w = Done (Ret x') w') ->
  forall ixs x result w,
    (forall i, In i ixs -> (i + 1 < length t_list)%nat) ->
    exists xr w', odeint_loop arith step ixs t_list x result w
                  = Done (Ret xr) w'.
Proof.
  intros Hstep.
  induction ixs as [|i ixs IH]; intros x result w H.
  - cbn [odeint_loop]. unfold ret. eauto.
  - cbn [odeint_loop]. unfold bind, get_prec, liftR.
    assert (Hi : (i + 1 < length t_list)%nat) by (apply H; now left).
    destruct (@index_some _ t_list (i + 1)) as [t1 [-> _]]; [lia|].
    destruct (@index_some _ t_list i) as [t0 [-> _]]; [lia|].
    destruct (Hstep t0 x (sub (arith (prec w)) t1 t0) w) as [x' [w' ->]].
    apply IH. intros j Hj. apply H. now right.
Qed.

(** X5.  [odeint] returns the initial state followed by one state for
    each further point of [t_list]: a result has max(1, len(t_list))
    entries and the first one is [x0]; and when [step] returns at every
    point, [odeint] returns such a result. *)
Theorem odeint_length (x0 : list F) (t_list : list F) (w : world E) :
  (forall r w',
     odeint arith step x0 t_list w = Done (Ret r) w' ->
     length r = Nat.max 1 (length t_list) /\ nth_error r 0 = Some x0) /\
  ((forall t x dt w, exists x' w', step t x dt w = Done (Ret x') w') ->
   exists r w', odeint arith step x0 t_list w = Done (Ret r) w').
Proof.
  split.
  - intros r w'. unfold odeint, bind, ret.
    destruct (odeint_loop _ _ _ _ _ _ w) as [[[x' r']|e] w1|] eqn:H;
      try discriminate.
    intros [= <- _]. simpl snd.
    apply (@odeint_loop_state t_list x0) in H; [|reflexivity].
    destruct H as [_ [Hl [rows ->]]].
    rewrite Hl, length_seq. split; [cbn [length]; lia | reflexivity].
  - intros Hstep. unfold odeint, bind, ret.
    destruct (@odeint_loop_returns t_list Hstep
                (List.seq 0 (length t_list - 1)) x0 [x0] w) as [xr [w' ->]].
    + intros i Hi. apply in_seq in Hi. lia.
    + eauto.
Qed.

(** X6.  Appending a point to a nonempty [t_list] appends one step to the
    solution: [odeint] on [ts ++ [t]] is [odeint] on [ts] followed by one
    call of [step] from the last point and the last state, over the
    difference of the two points. *)
Theorem odeint_extend (x0 : list F) (ts : list F) (t : F) (w : world E) :
  ts <> [] ->
  odeint arith step x0 (ts ++ [t]) w
  = bind (odeint arith step x0 ts)
      (fun r =>
         bind get_prec (fun p =>
           bind (step (last ts t) (last r x0)
                      (sub (arith p) t (last ts t)))
                (fun x' => ret (r ++ [x'])))) w.
Proof.
  intros Hne.
  destruct ts as [|a ts'] using rev_ind; [contradiction|]. clear IHts'.
  unfold odeint.
  rewrite !length_app. simpl length.
  replace (length ts' + 1 + 1 - 1)%nat with (S (length ts')) by lia.
  replace (length ts' + 1 - 1)%nat with (length ts') by lia.
  rewrite seq_S. simpl plus.
  unfold bind at 1. rewrite odeint_loop_app.
  unfold bind at 1. rewrite odeint_loop_prefix.
  2:{ intros i Hi. apply in_seq in Hi. rewrite length_app. simpl. lia. }
  unfold bind, ret, get_prec.
  destruct (odeint_loop arith step (List.seq 0 (length ts')) (ts' ++ [a])
              x0 [x0] w) as [[[x1 r1]|e] w1|] eqn:Hloop; try reflexivity.
  apply (@odeint_loop_state (ts' ++ [a]) x0) in Hloop; [|reflexivity].
  destruct Hloop as [Hx1 _]. subst x1.
  cbn [fst snd odeint_loop]. rewrite last_last.
  assert (I1 : index ((ts' ++ [a]) ++ [t]) (length ts' + 1) = Ret t).
  { unfold index. rewrite nth_error_app2 by (rewrite length_app; simpl; lia).
    rewrite length_app. simpl.
    replace (length ts' + 1 - (length ts' + 1))%nat with 0%nat by lia.
    reflexivity. }
  assert (I0 : index ((ts' ++ [a]) ++ [t]) (length ts') = Ret a).
  { unfold index. rewrite nth_error_app1 by (rewrite length_app; simpl; lia).
    rewrite nth_error_app2 by lia. rewrite Nat.sub_diag. reflexivity. }
  unfold bind, get_prec, liftR, ret. rewrite I1, I0.
  destruct (step a (last r1 x0) (sub (arith (prec w1)) t a) w1)
    as [[x'|e] w2|]; reflexivity.
Qed.
End OdeintFacts.

Module OdeFacts.
Ltac run_step :=
  unfold QOde.rk4, QOde.euler, ODE_step_rk4, ODE_step_euler,
    QOde.quadrature_rhs, QOde.linear_rhs;
  cbv beta iota zeta delta
    [bind get_prec ret liftR vadd smul map List.length Nat.ltb Nat.leb
     forallb Nat.eqb andb vadd_entries vadd_entry index nth_error rbind
     rk4_combine List.seq hd].

(** X7.  For a single equation y' = g(x), whose right-hand side does not
    depend on y, a Runge-Kutta step in exact arithmetic is Simpson's rule:
    y + h/6 (g(x) + 4 g(x + h/2) + g(x + h)). *)
Theorem rk4_is_simpson (g : Q -> Q) (x y0 h : Q) (w : world Demo.log) :
  let xm := add (QNum.ops (prec w)) x (QOde.qldexp h (-1)) in
  let xe := add (QNum.ops (prec w)) x h in
  xm == x + h / 2 /\ xe == x + h /\
  exists v,
    QOde.rk4 x [y0] h (QOde.quadrature_rhs g) w = Done (Ret [v]) w /\
    v == y0 + h / 6 * (g x + 4 * g xm + g xe).
Proof.
  intros xm xe. split; [|split].
  - unfold xm, QOde.qldexp. cbn [QNum.ops add]. rewrite !Qred_correct.
    change (2 ^ (-1)) with (1 # 2). field.
  - unfold xe. cbn [QNum.ops add]. rewrite Qred_correct. reflexivity.
  - run_step. eexists. split; [reflexivity|].
    fold xm xe. cbn [QNum.ops add mul div mpf lift].
    rewrite !Qred_correct. field.
Qed.

(** X8.  For the single linear equation y' = lam * y, in exact
    arithmetic, an Euler step multiplies y by 1 + z and a Runge-Kutta
    step by 1 + z + z^2/2 + z^3/6 + z^4/24, where z = h * lam. *)
Theorem linear_test_equation (lam x y0 h : Q) (w : world Demo.log) :
  let z := h * lam in
  (exists v,
     QOde.euler x [y0] h (QOde.linear_rhs lam) w = Done (Ret [v]) w /\
     v == y0 * (1 + z)) /\
  (exists v,
     QOde.rk4 x [y0] h (QOde.linear_rhs lam) w = Done (Ret [v]) w /\
     v == y0 * (1 + z + z * z / 2 + z * z * z / 6 + z * z * z * z / 24)).
Proof.
  intros z. split.
  - run_step. eexists. split; [reflexivity|].
    cbn [QNum.ops add mul]. rewrite !Qred_correct. unfold z. ring.
  - run_step. eexists. split; [reflexivity|].
    cbn [QNum.ops add mul div mpf lift].
    rewrite !Qred_correct. unfold z. field.
Qed.
End OdeFacts.

Lemma vadd_assertions_witness :
  vadd (QNum.ops 53) [[1#1; 2#1]; [3#1]] = Raise AssertionError /\
  exists v, vadd (QNum.ops 53) [[1#1; 2#1]; [3#1; 4#1]; [5#1; 6#1]] = Ret v /\
            length v = 2%nat.
Proof.
  split.
  - apply (proj1 (@vadd_assertions Q (QNum.ops 53) [[1#1; 2#1]; [3#1]])).
    right. exists [3#1]. split; [simpl; auto | simpl; lia].
  - apply (proj2 (@vadd_assertions Q (QNum.ops 53)
                    [[1#1; 2#1]; [3#1; 4#1]; [5#1; 6#1]])).
    intros [H|[x [Hin Hx]]]; [simpl in H; lia|].
    simpl in Hin. destruct Hin as [<-|[<-|[<-|[]]]]; simpl in Hx; lia.
Defined.

Lemma odeint_length_witness :
  exists r w',
    odeint QNum.ops (fun t y dt => ret (E:=Demo.log) (map (Qplus dt) y))
           [1#1] [0#1; 1#2; 1#1] Demo.start = Done (Ret r) w' /\
    length r = 3%nat /\ nth_error r 0 = Some [1#1].
Proof.
  destruct (@odeint_length Demo.log Q QNum.ops
              (fun t y dt => ret (map (Qplus dt) y))
              [1#1] [0#1; 1#2; 1#1] Demo.start) as [Hlen Hret].
  destruct Hret as [r [w' Hr]].
  - intros t x dt w. unfold ret. eauto.
  - exists r, w'. split; [exact Hr|]. exact (Hlen r w' Hr).
Defined.

Lemma odeint_extend_witness :
  odeint QNum.ops (fun t y dt => QOde.euler t y dt (QOde.linear_rhs 1))
         [1#1] ([0#1; 1#2] ++ [1#1]) Demo.start
  = bind (odeint QNum.ops
            (fun t y dt => QOde.euler t y dt (QOde.linear_rhs 1))
            [1#1] [0#1; 1#2])
      (fun r =>
         bind get_prec (fun p =>
           bind (QOde.euler (last [0#1; 1#2] (1#1)) (last r [1#1])
                   (sub (QNum.ops p) (1#1) (last [0#1; 1#2] (1#1)))
                   (QOde.linear_rhs 1))
                (fun x' => ret (r ++ [x'])))) Demo.start.
Proof.
  apply (@odeint_extend Demo.log Q QNum.ops
           (fun t y dt => QOde.euler t y dt (QOde.linear_rhs 1))
           [1#1] [0#1; 1#2] (1#1) Demo.start).
  discriminate.
Defined.

(* ------------------------------------------------------------------ *)
(** * Properties of [fsum], [fprod] and [diff] *)

Module SumFacts.
Import QDiff.

Lemma fold_range_pure (op : NumOps Q -> Q -> Q -> Q) (g : Q -> Q) :
  forall ks v w,
    fold_range QNum.ops op (pure g) ks v w
    = Done (Ret (fold_left (fun acc k => op (QNum.ops (prec w)) acc
                                           (g (inject_Z k))) ks v)) w.
Proof.
  induction ks as [|k ks IH]; intros v w.
  - reflexivity.
  - cbn [fold_range]. unfold bind, get_prec, pure, ret.
    cbn [QNum.ops mpf]. apply IH.
Qed.

Lemma map_seq_shift {A} (f : nat -> A) :
  forall m n, map f (List.seq n m) = map (fun i => f (n + i)%nat) (List.seq 0 m).
Proof.
  induction m as [|m IH]; intros n; [reflexivity|].
  cbn [List.seq map]. rewrite Nat.add_0_r. f_equal.
  rewrite (IH (S n)), <- seq_shift, map_map.
  apply map_ext. intros i. f_equal. lia.
Qed.

Lemma xrange_split (a b c : Z) :
  (a <= b <= c)%Z -> xrange a c = xrange a b ++ xrange b c.
Proof.
  intros H. unfold xrange.
  replace (Z.to_nat (c - a)) with (Z.to_nat (b - a) + Z.to_nat (c - b))%nat
    by lia.
  rewrite seq_app, map_app. f_equal.
  rewrite Nat.add_0_l, map_seq_shift.
  apply map_ext. intros i. lia.
Qed.

Lemma fold_add_app (g : Q -> Q) (p : Z) :
  forall ks1 ks2 v,
    fold_left (fun acc k => add (QNum.ops p) acc (g (inject_Z k)))
              (ks1 ++ ks2) v
    == fold_left (fun acc k => add (QNum.ops p) acc (g (inject_Z k))) ks1 v
       + fold_left (fun acc k => add (QNum.ops p) acc (g (inject_Z k))) ks2 0.
Proof.
  intros ks1 ks2. revert ks1.
  induction ks2 as [|k ks2 IH] using rev_ind; intros ks1 v.
  - rewrite app_nil_r. simpl. ring.
  - rewrite app_assoc, (fold_left_app _ (ks1 ++ ks2)), (fold_left_app _ ks2).
    cbn [fold_left].
    specialize (IH ks1 v).
    set (A := fold_left _ (ks1 ++ ks2) v) in *.
    set (B := fold_left _ ks1 v) in *.
    set (C := fold_left _ ks2 _) in *.
    cbn [QNum.ops add]. rewrite !Qred_correct, IH. ring.
Qed.

Lemma fold_mul_app (g : Q -> Q) (p : Z) :
  forall ks1 ks2 v,
    fold_left (fun acc k => mul (QNum.ops p) acc (g (inject_Z k)))
              (ks1 ++ ks2) v
    == fold_left (fun acc k => mul (QNum.ops p) acc (g (inject_Z k))) ks1 v
       * fold_left (fun acc k => mul (QNum.ops p) acc (g (inject_Z k))) ks2 1.
Proof.
  intros ks1 ks2. revert ks1.
  induction ks2 as [|k ks2 IH] using rev_ind; intros ks1 v.
  - rewrite app_nil_r. simpl. ring.
  - rewrite app_assoc, (fold_left_app _ (ks1 ++ ks2)), (fold_left_app _ ks2).
    cbn [fold_left].
    specialize (IH ks1 v).
    set (A := fold_left _ (ks1 ++ ks2) v) in *.
    set (B := fold_left _ ks1 v) in *.
    set (C := fold_left _ ks2 _) in *.
    cbn [QNum.ops mul]. rewrite !Qred_correct, IH. ring.
Qed.

Lemma fold_args_range (op : NumOps Q -> Q -> Q -> Q) (unit : Z) (g : Q -> Q)
    (a b : Z) (w : world Demo.log) :
  fold_args QNum.ops op unit (Range (pure g) a b) w
  = Done (Ret (fold_left (fun acc k => op (QNum.ops (prec w + 10)) acc
                                         (g (inject_Z k)))
                         (xrange a (b + 1)) (inject_Z unit))) w.
Proof.
  unfold fold_args, bind, get_prec, try_finally, set_prec, ret.
  rewrite fold_range_pure. destruct w as [p e]. reflexivity.
Qed.

(** X10.  For a term function without effects and in exact arithmetic,
    a range can be cut anywhere: the sum over [a, c] is the sum over
    [a, b] plus the sum over [b+1, c], and the product over [a, c] the
    product of the two products, empty ranges (b = a-1 or b = c) counting
    for 0 and 1. *)
Theorem finite_range_split (g : Q -> Q) (a b c : Z) (w : world Demo.log) :
  (a <= b + 1 <= c + 1)%Z ->
  (exists s1 s2 s,
     fsum QNum.ops (Range (pure g) a b) w = Done (Ret s1) w /\
     fsum QNum.ops (Range (pure g) (b + 1) c) w = Done (Ret s2) w /\
     fsum QNum.ops (Range (pure g) a c) w = Done (Ret s) w /\
     s == s1 + s2) /\
  (exists p1 p2 p,
     fprod QNum.ops (Range (pure g) a b) w = Done (Ret p1) w /\
     fprod QNum.ops (Range (pure g) (b + 1) c) w = Done (Ret p2) w /\
     fprod QNum.ops (Range (pure g) a c) w = Done (Ret p) w /\
     p == p1 * p2).
Proof.
  intros H. unfold fsum, fprod. rewrite !fold_args_range.
  rewrite (@xrange_split a (b + 1) (c + 1)) by lia.
  split; do 3 eexists; (split; [reflexivity|]);
    (split; [reflexivity|]); (split; [reflexivity|]).
  - apply fold_add_app.
  - apply fold_mul_app.
Qed.
End SumFacts.

Section FinitePrecision.
Context {E F : Type}.
Variable arith : Z -> NumOps F.
Variable ldexp : F -> Z -> F.

Lemma restored_after {A} (body : M E A) (k : A -> Z -> F) (w w' : world E)
    (r : res F) :
  bind (try_finally body (set_prec (prec w)))
       (fun v => bind get_prec (fun p => ret (k v p))) w = Done r w' ->
  prec w' = prec w.
Proof.
  unfold bind at 1.
  destruct (try_finally _ _ w) as [[v|e] w1|] eqn:Htf; [| |discriminate].
  - apply try_finally_prec in Htf.
    unfold bind, get_prec, ret. intros [= _ <-]. exact Htf.
  - apply try_finally_prec in Htf. intros [= _ <-]. exact Htf.
Qed.

(** X9.  [fsum], [fprod] and, for an order n >= 1, [diff] leave the
    precision register as they found it, whether they return or raise and
    whatever the caller's function did to the register; [diff] of order
    0 is [f(x)] itself, so that the register is left as [f] leaves it. *)
Theorem finite_operations_restore_precision (w w' : world E) (r : res F) :
  (forall args, fsum arith args w = Done r w' -> prec w' = prec w) /\
  (forall args, fprod arith args w = Done r w' -> prec w' = prec w) /\
  (forall (f : F -> M E F) x n scale direction,
     (0 < n)%nat ->
     diff arith ldexp f x n scale direction w = Done r w' ->
     prec w' = prec w) /\
  (forall (f : F -> M E F) x scale direction,
     diff arith ldexp f x 0 scale direction = f x).
Proof.
  split; [|split; [|split]].
  - intros args. unfold fsum, fold_args.
    unfold bind at 1, get_prec at 1. apply restored_after.
  - intros args. unfold fprod, fold_args.
    unfold bind at 1, get_prec at 1. apply restored_after.
  - intros f x n scale direction Hn. unfold diff.
    destruct (Nat.eqb_spec n 0) as [->|_]; [lia|].
    unfold bind at 1, get_prec at 1. apply restored_after.
  - reflexivity.
Qed.
End FinitePrecision.

Module DiffFacts.
Import QDiff PolySpec.

Lemma diff_samples_pure (g : Q -> Q) (x h : Q) :
  forall steps w,
    diff_samples QNum.ops (pure g) x h steps w
    = Done (Ret (map (fun k => g (add (QNum.ops (prec w)) x
                                    (mul (QNum.ops (prec w))
                                         (lift (QNum.ops (prec w)) k) h)))
                     steps)) w.
Proof.
  induction steps as [|k steps IH]; intros w.
  - reflexivity.
  - cbn [diff_samples]. unfold bind at 1, get_prec at 1.
    unfold bind at 1, pure at 1, ret at 1. unfold bind at 1.
    rewrite IH. reflexivity.
Qed.

(** The points at which the central formula samples [f]. *)
Definition central_points (x h : Q) (n : nat) : list Q :=
  map (fun k => Qred (x + Qred (inject_Z k * h))) (central_steps n).

Lemma central_points_length (x h : Q) (n : nat) :
  length (central_points x h n) = S n.
Proof.
  unfold central_points, central_steps. now rewrite !length_map, length_seq.
Qed.

Lemma central_diff_run (g : Q -> Q) (x scale : Q) (n : nat)
    (w : world Demo.log) :
  (0 < n)%nat ->
  let h := step_size scale (prec w) in
  let O := QNum.ops ((prec w + 20) * (Z.of_nat n + 1)) in
  exists d,
    d == delta_sum n (map g (central_points x h n)) (n + 1) /\
    diffQ (pure g) x n scale 0 w
    = match pdiv O d (powi O (mul O (lift O 2) h) (Z.of_nat n)) with
      | Ret v => Done (Ret v) w
      | Raise e => Done (Raise e) w
      end.
Proof.
  intros Hn h O.
  destruct (@PolyFacts.delta_fold_Q ((prec w + 20) * (Z.of_nat n + 1))
              (map g (central_points x h n)) n (n + 1)%nat 0%nat 0)
    as [d [Hd1 Hd2]].
  { rewrite length_map, central_points_length. lia. }
  { reflexivity. }
  exists d. split; [exact Hd2|].
  unfold central_points in Hd1. rewrite map_map in Hd1.
  unfold diffQ, diff.
  destruct (Nat.eqb_spec n 0) as [->|_]; [lia|].
  unfold bind at 1, get_prec at 1. unfold bind at 1.
  unfold try_finally. unfold bind at 1, set_prec at 1.
  unfold bind at 1, get_prec at 1. cbn [prec ext].
  change (is_zero (QNum.ops ((prec w + 20) * (Z.of_nat n + 1))) 0)
    with true.
  cbn [negb]. unfold bind at 1. rewrite diff_samples_pure. cbn [prec].
  unfold bind at 1, get_prec at 1. cbn [prec]. unfold bind at 1, liftR at 1.
  rewrite PolyFacts.difference_delta_weights.
  match goal with
  | |- context [delta_fold ?O' ?l ?s ?m ?d0] =>
    replace (delta_fold O' l s m d0) with (Ret d) by (symmetry; exact Hd1)
  end.
  fold O. fold (step_size scale (prec w)). fold h.
  unfold liftR.
  destruct (pdiv O d _) as [v|e]; destruct w as [p e0]; reflexivity.
Qed.

Lemma step_size_value (scale : Q) (p : Z) :
  step_size scale p == scale * 2 ^ (- p - 10).
Proof. unfold step_size, QOde.qldexp. apply Qred_correct. Qed.

Lemma step_size_nonzero (scale : Q) (p : Z) :
  ~ scale == 0 -> ~ step_size scale p == 0.
Proof.
  intros Hs. rewrite step_size_value. intros H.
  apply Qmult_integral in H. destruct H as [H|H]; [now apply Hs|].
  revert H. apply Qpower_not_0. discriminate.
Qed.

(** X11.  In exact arithmetic and for a function without effects, the
    default [diff(f, x)] (first derivative, central differences) is exact
    on polynomials of degree two and [diff(f, x, 2)] on polynomials of
    degree three, for every nonzero [scale] and every working precision;
    with [scale] zero both raise ZeroDivisionError. *)
Theorem diff_exact_low_degree (a b c d x scale : Q) (w : world Demo.log) :
  (~ scale == 0 ->
   (exists v, diffQ (pure (quadratic a b c)) x 1 scale 0 w = Done (Ret v) w /\
              v == 2 * a * x + b) /\
   (exists v, diffQ (pure (cubic a b c d)) x 2 scale 0 w = Done (Ret v) w /\
              v == 6 * a * x + 2 * b)) /\
  (scale == 0 ->
   diffQ (pure (quadratic a b c)) x 1 scale 0 w
     = Done (Raise ZeroDivisionError) w /\
   diffQ (pure (cubic a b c d)) x 2 scale 0 w
     = Done (Raise ZeroDivisionError) w).
Proof.
  pose proof (@step_size_value scale (prec w)) as Hh.
  split.
  - intros Hs. pose proof (@step_size_nonzero scale (prec w) Hs) as Hnz.
    split.
    + destruct (@central_diff_run (quadratic a b c) x scale 1 w) as [v [Hv Hr]];
        [lia|].
      rewrite Hr. clear Hr. unfold pdiv.
      set (h := step_size scale (prec w)) in *.
      cbn [QNum.ops is_zero powi mul lift div Z.of_nat Pos.of_succ_nat].
      destruct (Qeq_bool _ 0) eqn:Hz.
      { exfalso. apply Qeq_bool_eq in Hz. rewrite !Qred_correct in Hz.
        apply Hnz. fold h. revert Hz. change (inject_Z 2) with 2.
        change ((2 * h) ^ 1) with (2 * h). intros Hz.
        setoid_replace h with ((2 * h) / 2) by field. rewrite Hz. reflexivity. }
      eexists. split; [reflexivity|].
      rewrite !Qred_correct, Hv.
      unfold central_points, central_steps.
      cbn [Nat.add List.seq map delta_sum nth].
      unfold quadratic. rewrite !Qred_correct.
      change (inject_Z 2) with 2. change ((2 * h) ^ 1) with (2 * h).
      cbn [Z.of_nat Pos.of_succ_nat Z.mul Z.sub Z.add Z.opp Z.pos_sub
           Nat.add Z.pow Z.pow_pos Pos.iter QNum.binom Pos.mul Pos.add
           Pos.succ Pos.pred_double Z.double Z.succ_double Z.pred_double
           inject_Z].
      field. exact Hnz.
    + destruct (@central_diff_run (cubic a b c d) x scale 2 w) as [v [Hv Hr]];
        [lia|].
      rewrite Hr. clear Hr. unfold pdiv.
      set (h := step_size scale (prec w)) in *.
      cbn [QNum.ops is_zero powi mul lift div Z.of_nat Pos.of_succ_nat
           Pos.succ].
      destruct (Qeq_bool _ 0) eqn:Hz.
      { exfalso. apply Qeq_bool_eq in Hz. rewrite !Qred_correct in Hz.
        revert Hz. apply Qpower_not_0. change (inject_Z 2) with 2.
        intros Hz. apply Hnz. fold h.
        setoid_replace h with ((2 * h) / 2) by field. rewrite Hz. reflexivity. }
      eexists. split; [reflexivity|].
      rewrite !Qred_correct, Hv.
      unfold central_points, central_steps.
      cbn [Nat.add List.seq map delta_sum nth].
      unfold cubic. rewrite !Qred_correct.
      change (inject_Z 2) with 2.
      change ((2 * h) ^ 2) with ((2 * h) * (2 * h)).
      cbn [Z.of_nat Pos.of_succ_nat Z.mul Z.sub Z.add Z.opp Z.pos_sub
           Nat.add Z.pow Z.pow_pos Pos.iter QNum.binom Pos.mul Pos.add
           Pos.succ Pos.pred_double Z.double Z.succ_double Z.pred_double
           inject_Z].
      field. exact Hnz.
  - intros Hs.
    assert (Hz : step_size scale (prec w) == 0).
    { rewrite Hh, Hs. ring. }
    split.
    + destruct (@central_diff_run (quadratic a b c) x scale 1 w) as [v [Hv Hr]];
        [lia|].
      rewrite Hr. unfold pdiv.
      cbn [QNum.ops is_zero powi mul lift Z.of_nat Pos.of_succ_nat].
      rewrite (Qeq_eq_bool _ 0); [reflexivity|].
      rewrite !Qred_correct, Hz. reflexivity.
    + destruct (@central_diff_run (cubic a b c d) x scale 2 w) as [v [Hv Hr]];
        [lia|].
      rewrite Hr. unfold pdiv.
      cbn [QNum.ops is_zero powi mul lift Z.of_nat Pos.of_succ_nat Pos.succ].
      rewrite (Qeq_eq_bool _ 0); [reflexivity|].
      rewrite !Qred_correct, Hz. reflexivity.
Qed.
End DiffFacts.

Lemma finite_operations_restore_precision_witness :
  (exists r w',
     fsum QNum.ops (Range (fun t => Demo.term Demo.two_pow (Fin t)) 1 3)
          Demo.start = Done r w' /\ prec w' = prec Demo.start) /\
  (exists r w',
     fprod QNum.ops (Range (fun t => Demo.failing (Fin t)) 1 3) Demo.start
     = Done r w' /\ prec w' = prec Demo.start) /\
  (exists r w',
     QDiff.diffQ (fun t => Demo.term (fun q => q * q) (Fin t)) 3 1 1 0 Demo.start
     = Done r w' /\ prec w' = prec Demo.start).
Proof.
  split; [|split].
  - destruct (fsum QNum.ops
                (Range (fun t => Demo.term Demo.two_pow (Fin t)) 1 3)
                Demo.start) as [r w'|] eqn:H.
    + exists r, w'. split; [reflexivity|].
      exact (proj1 (@finite_operations_restore_precision Demo.log Q QNum.ops
                      QOde.qldexp Demo.start w' r) _ H).
    + vm_compute in H. discriminate.
  - destruct (fprod QNum.ops (Range (fun t => Demo.failing (Fin t)) 1 3)
                Demo.start) as [r w'|] eqn:H.
    + exists r, w'. split; [reflexivity|].
      exact (proj1 (proj2 (@finite_operations_restore_precision Demo.log Q
                             QNum.ops QOde.qldexp Demo.start w' r)) _ H).
    + vm_compute in H. discriminate.
  - destruct (QDiff.diffQ (fun t => Demo.term (fun q => q * q) (Fin t)) 3 1 1 0
                Demo.start) as [r w'|] eqn:H.
    + exists r, w'. split; [reflexivity|].
      refine (proj1 (proj2 (proj2 (@finite_operations_restore_precision
                                     Demo.log Q QNum.ops QOde.qldexp
                                     Demo.start w' r)))
                _ 3 1%nat 1 0 _ H).
      lia.
    + vm_compute in H. discriminate.
Defined.

Lemma finite_range_split_witness :
  exists s1 s2 s,
    fsum QNum.ops (Range (QDiff.pure (fun k => k * k)) 1 2) Demo.start
      = Done (Ret s1) Demo.start /\
    fsum QNum.ops (Range (QDiff.pure (fun k => k * k)) (2 + 1) 4) Demo.start
      = Done (Ret s2) Demo.start /\
    fsum QNum.ops (Range (QDiff.pure (fun k => k * k)) 1 4) Demo.start
      = Done (Ret s) Demo.start /\
    s == s1 + s2.
Proof.
  apply (@SumFacts.finite_range_split (fun k => k * k) 1 2 4 Demo.start).
  lia.
Defined.

Lemma diff_exact_low_degree_witness :
  exists v,
    QDiff.diffQ (QDiff.pure (QDiff.quadratic 3 5 7)) 2 1 1 0 Demo.start
      = Done (Ret v) Demo.start /\
    v == 2 * 3 * 2 + 5.
Proof.
  apply (proj1 (proj1 (@DiffFacts.diff_exact_low_degree 3 5 7 0 2 1
                         Demo.start) ltac:(discriminate))).
Defined.

(* ------------------------------------------------------------------ *)
(** * Properties of [chebT] *)

Section AccumulateFacts.
Context {F : Type}.

Lemma zip_prefix_length (op : F -> F -> F) :
  forall cs tmp, length (zip_prefix op tmp cs) = length tmp.
Proof.
  induction cs as [|c cs IH]; intros [|t tmp]; simpl; try reflexivity.
  now rewrite IH.
Qed.

Lemma accumulate_offset (op : F -> F -> F) :
  forall cs pre tmp,
    (length cs <= length tmp)%nat ->
    accumulate (F:=F) op (pre ++ tmp)
      (combine (List.seq (length pre) (length cs)) cs)
    = Ret (pre ++ zip_prefix op tmp cs).
Proof.
  induction cs as [|c cs IH]; intros pre tmp H.
  - reflexivity.
  - destruct tmp as [|t tmp]; [simpl in H; lia|].
    cbn [length List.seq combine accumulate zip_prefix].
    unfold index. rewrite nth_error_app2 by lia. rewrite Nat.sub_diag.
    cbn [nth_error rbind]. unfold set_item.
    destruct (Nat.ltb_spec (length pre) (length (pre ++ t :: tmp))) as [_|Hl].
    2:{ rewrite length_app in Hl. simpl in Hl. lia. }
    cbn [rbind].
    rewrite firstn_app, firstn_all, Nat.sub_diag. cbn [firstn].
    rewrite app_nil_r.
    rewrite skipn_app, skipn_all2 by lia.
    replace (S (length pre) - length pre)%nat with 1%nat by lia.
    cbn [skipn app].
    specialize (IH (pre ++ [op t c]) tmp).
    rewrite length_app in IH. cbn [length] in IH.
    rewrite Nat.add_1_r in IH. rewrite <- app_assoc in IH. cbn [app] in IH.
    rewrite IH by (simpl in H; lia).
    rewrite <- app_assoc. reflexivity.
Qed.

Lemma accumulate_enumerate (op : F -> F -> F) (tmp cs : list F) :
  (length cs <= length tmp)%nat ->
  accumulate op tmp (enumerate cs) = Ret (zip_prefix op tmp cs).
Proof.
  intros H. unfold enumerate.
  exact (@accumulate_offset op cs [] tmp H).
Qed.
End AccumulateFacts.

Module ChebFacts.
Import ChebSpec.

Lemma eval_zip_prefix (op : Q -> Q -> Q) (k x : Q) :
  (forall t c, op t c == t + k * c) ->
  forall cs tmp,
    (length cs <= length tmp)%nat ->
    eval_asc (zip_prefix op tmp cs) x == eval_asc tmp x + k * eval_asc cs x.
Proof.
  intros Hop. induction cs as [|c cs IH]; intros tmp H.
  - simpl. ring.
  - destruct tmp as [|t tmp]; [simpl in H; lia|].
    cbn [zip_prefix eval_asc]. rewrite Hop, IH by (simpl in H; lia). ring.
Qed.

Lemma eval_scale (m x : Q) (cs : list Q) :
  eval_asc (map (fun t => Qred (m * t)) cs) x == m * eval_asc cs x.
Proof.
  induction cs as [|c cs IH]; cbn [map eval_asc].
  - ring.
  - rewrite Qred_correct, IH. ring.
Qed.

Lemma cheb_succ (y : Q) (n : nat) :
  cheb (S n) y = snd (cheb_pair y n).
Proof.
  unfold cheb. cbn [cheb_pair]. destruct (cheb_pair y n). reflexivity.
Qed.

Lemma cheb_recurrence (y : Q) (n : nat) :
  cheb (S (S n)) y = 2 * y * cheb (S n) y - cheb n y.
Proof.
  rewrite !cheb_succ. unfold cheb. cbn [cheb_pair].
  destruct (cheb_pair y n). reflexivity.
Qed.

Lemma chebT_state_Q (p : Z) (a b : Q) :
  forall m, exists Ta Tb,
    chebT_state (QNum.ops p) a b m = Ret (Ta, Tb) /\
    length Ta = S (S m) /\ length Tb = S m /\
    forall x, eval_asc Ta x == cheb (S m) (a * x + b) /\
              eval_asc Tb x == cheb m (a * x + b).
Proof.
  induction m as [|m IH].
  - exists [b; a], [1]. repeat split; unfold cheb; simpl; ring.
  - destruct IH as [Ta [Tb [Hst [HlA [HlB Hev]]]]].
    cbn [chebT_state]. rewrite Hst. cbv beta iota delta [rbind].
    unfold chebT_next.
    rewrite accumulate_enumerate by (cbn [length]; rewrite length_map; lia).
    cbv beta iota delta [rbind].
    rewrite accumulate_enumerate
      by (rewrite zip_prefix_length; cbn [length]; rewrite length_map; lia).
    cbv beta iota delta [rbind].
    eexists. eexists. split; [reflexivity|].
    split; [|split; [exact HlA|]].
    + rewrite !zip_prefix_length. cbn [length]. rewrite length_map. lia.
    + intros x. destruct (Hev x) as [HA HB]. split; [|exact HA].
      rewrite (@eval_zip_prefix _ (-1 # 1) x).
      2:{ intros t c. cbn [QNum.ops sub]. rewrite Qred_correct. ring. }
      2:{ rewrite zip_prefix_length. cbn [length]. rewrite length_map. lia. }
      rewrite (@eval_zip_prefix _ (2 * b) x).
      2:{ intros t c. cbn [QNum.ops add mul lift]. rewrite !Qred_correct.
          change (inject_Z 2) with 2. ring. }
      2:{ cbn [length]. rewrite length_map. lia. }
      cbn [eval_asc QNum.ops mul lift].
      rewrite eval_scale, Qred_correct, HA, HB, cheb_recurrence.
      change (inject_Z 0) with 0. change (inject_Z 2) with 2. ring.
Qed.

(** X12.  In exact arithmetic the n-th list that [chebT(a, b)] yields
    (counting from 0) has n+1 entries and is the expansion in powers of
    x, constant term first, of the Chebyshev polynomial T_n(a x + b); the
    generator's indexed updates never leave the lists. *)
Theorem chebT_expands_chebyshev (p : Z) (a b : Q) (n : nat) :
  exists cs,
    chebT (QNum.ops p) a b n = Ret cs /\
    length cs = S n /\
    forall x, eval_asc cs x == cheb n (a * x + b).
Proof.
  destruct n as [|m].
  - exists [1]. repeat split. intros x. unfold cheb. simpl. ring.
  - destruct (@chebT_state_Q p a b m) as [Ta [Tb [Hst [HlA [_ Hev]]]]].
    exists Ta. cbn [chebT]. rewrite Hst. split; [reflexivity|].
    split; [exact HlA|]. intros x. apply Hev.
Qed.
End ChebFacts.

(* ------------------------------------------------------------------ *)
(** * Properties of [chebyfit] *)

Section ChebTShape.
Context {F : Type} (O : NumOps F).

Lemma chebT_state_shape (a b : F) :
  forall m, exists Ta Tb,
    chebT_state O a b m = Ret (Ta, Tb) /\
    length Ta = S (S m) /\ length Tb = S m.
Proof.
  induction m as [|m IH].
  - exists [b; a], [lift O 1]. repeat split.
  - destruct IH as [Ta [Tb [Hst [HlA HlB]]]].
    cbn [chebT_state]. rewrite Hst. cbv beta iota delta [rbind].
    unfold chebT_next.
    rewrite accumulate_enumerate by (cbn [length]; rewrite length_map; lia).
    cbv beta iota delta [rbind].
    rewrite accumulate_enumerate
      by (rewrite zip_prefix_length; cbn [length]; rewrite length_map; lia).
    cbv beta iota delta [rbind].
    eexists. eexists. split; [reflexivity|]. split; [|exact HlA].
    rewrite !zip_prefix_length. cbn [length]. rewrite length_map. lia.
Qed.

Lemma chebT_shape (a b : F) (n : nat) :
  exists cs, chebT O a b n = Ret cs /\ length cs = S n.
Proof.
  destruct n as [|m].
  - exists [lift O 1]. split; reflexivity.
  - destruct (@chebT_state_shape a b m) as [Ta [Tb [Hst [HlA _]]]].
    exists Ta. cbn [chebT]. rewrite Hst. split; [reflexivity | exact HlA].
Qed.
End ChebTShape.

Section ChebyfitFacts.
Context {E F : Type}.
Variable arith : Z -> NumOps F.
Variable cos : Z -> F -> F.
Variable pi : Z -> F.
Variable half : F.

Local Abbreviation body := (chebyfit_body arith cos pi half).
Local Abbreviation fit := (chebyfit arith cos pi half).

Lemma set_item_length {A} (l l' : list A) (i : nat) (v : A) :
  set_item l i v = Ret l' -> length l' = length l.
Proof.
  unfold set_item. destruct (Nat.ltb_spec i (length l)) as [H|H];
    [|discriminate].
  intros H0.
  assert (Hl : l' = firstn i l ++ v :: skipn (S i) l) by congruence.
  rewrite Hl, length_app, length_firstn.
  change (length (v :: skipn (S i) l)) with (S (length (skipn (S i) l))).
  rewrite length_skipn. lia.
Qed.

Lemma set_item_some {A} (l : list A) (i : nat) (v : A) :
  (i < length l)%nat -> exists l', set_item l i v = Ret l'.
Proof.
  intros H. unfold set_item.
  destruct (Nat.ltb_spec i (length l)); [eauto | lia].
Qed.

Lemma cheb_add_row_ok (O : NumOps F) (c : list F) (k : nat) (Tk : list F) :
  (k < length c)%nat ->
  forall ixs d,
    (forall i, In i ixs -> (i < length d)%nat /\ (i < length Tk)%nat) ->
    exists d', cheb_add_row O c k Tk ixs d = (d', None) /\
               length d' = length d.
Proof.
  intros Hk. induction ixs as [|i ixs IH]; intros d H.
  - exists d. split; reflexivity.
  - cbn [cheb_add_row].
    destruct (H i (or_introl eq_refl)) as [Hd HT].
    destruct (@index_some _ d i Hd) as [di [-> _]].
    destruct (@index_some _ c k Hk) as [ck [-> _]].
    destruct (@index_some _ Tk i HT) as [t [-> _]].
    cbv beta iota delta [rbind].
    destruct (@set_item_some _ d i (add O di (mul O ck t)) Hd) as [d1 Hd1].
    rewrite Hd1. pose proof (set_item_length _ _ _ Hd1) as Hl.
    destruct (IH d1) as [d' [Hr Hl']].
    + intros j Hj. rewrite Hl. apply H. now right.
    + exists d'. split; [exact Hr | congruence].
Qed.

Lemma cheb_rows_ok (O : NumOps F) (c : list F) (A B : F) :
  forall ks d,
    (forall k, In k ks -> (k < length c)%nat /\ (k < length d)%nat) ->
    exists d', cheb_rows O c A B ks d = (d', None) /\ length d' = length d.
Proof.
  induction ks as [|k ks IH]; intros d H.
  - exists d. split; reflexivity.
  - cbn [cheb_rows].
    destruct (H k (or_introl eq_refl)) as [Hc Hd].
    destruct (@chebT_shape _ O A B k) as [Tk [-> HTk]].
    destruct (@cheb_add_row_ok O c k Tk Hc (List.seq 0 (length Tk)) d)
      as [d1 [-> Hl]].
    { intros i Hi. apply in_seq in Hi. lia. }
    destruct (IH d1) as [d' [Hr Hl']].
    + intros j Hj. rewrite Hl. apply H. now right.
    + exists d'. split; [exact Hr | congruence].
Qed.

Lemma polyval_value (O : NumOps F) (d : list F) (x : F) :
  exists v, polyval O d x false = Value v.
Proof.
  destruct d as [|c0 d]; cbn [polyval]; [eauto|].
  destruct (polyval_loop O d x false c0 (mpf O 0)) as [p q]. eauto.
Qed.

Section Total.
Variable f : F -> M E F.
Hypothesis f_total : forall x w, exists y, f x w = Done (Ret y) w.
Variables a b : F.

Lemma chebcoeff_loop_total (j N : nat) :
  forall ks s w, exists s',
    chebcoeff_loop arith cos pi half f a b j N ks s w = Done (Ret s') w.
Proof.
  induction ks as [|k ks IH]; intros s w.
  - exists s. reflexivity.
  - cbn [chebcoeff_loop]. unfold bind at 1, get_prec at 1. unfold bind at 1.
    match goal with
    | |- context [f ?x w] => destruct (f_total x w) as [y ->]
    end.
    unfold bind at 1, get_prec at 1. apply IH.
Qed.

Lemma chebcoeff_total (j N : nat) (w : world E) :
  (0 < N)%nat ->
  exists c, chebcoeff arith cos pi half f a b j N w = Done (Ret c) w.
Proof.
  intros HN. unfold chebcoeff. unfold bind at 1, get_prec at 1.
  unfold bind at 1.
  destruct (@chebcoeff_loop_total j N (List.seq 1 N)
              (mpf (arith (prec w)) 0) w) as [s ->].
  unfold bind, get_prec.
  destruct (Nat.eqb_spec N 0) as [->|_]; [lia|].
  unfold ret. eauto.
Qed.

Lemma chebcoeffs_total (N : nat) (w : world E) :
  (0 < N)%nat ->
  forall ks, exists cs,
    chebcoeffs arith cos pi half f a b N ks w = Done (Ret cs) w /\
    length cs = length ks.
Proof.
  intros HN. induction ks as [|k ks IH].
  - exists []. split; reflexivity.
  - cbn [chebcoeffs]. unfold bind at 1.
    destruct (@chebcoeff_total k N w HN) as [c ->].
    destruct IH as [cs [Hcs Hl]]. unfold bind at 1. rewrite Hcs.
    exists (c :: cs). split; [reflexivity | simpl; congruence].
Qed.

Lemma cheb_error_loop_total (N : nat) (d : list F) :
  forall ks err w, exists err',
    cheb_error_loop arith cos pi half f a b N ks d err w
    = Done (Ret (err', None)) w.
Proof.
  induction ks as [|k ks IH]; intros err w.
  - exists err. reflexivity.
  - cbn [cheb_error_loop]. unfold bind at 1, get_prec at 1.
    match goal with
    | |- context [f ?x w] => destruct (f_total x w) as [y ->]
    end.
    unfold bind at 1, get_prec at 1.
    match goal with
    | |- context [polyval ?O ?d ?x false] =>
      destruct (@polyval_value O d x) as [v ->]
    end.
    apply IH.
Qed.
End Total.

Lemma cheb_error_loop_no_raise (f : F -> M E F) (a b : F) (N : nat)
    (d : list F) :
  forall ks err w e w',
    cheb_error_loop arith cos pi half f a b N ks d err w
    <> Done (Raise e) w'.
Proof.
  induction ks as [|k ks IH]; intros err w e w'.
  - discriminate.
  - cbn [cheb_error_loop]. unfold bind at 1, get_prec at 1.
    destruct (f _ w) as [[y|e1] w1|]; [|discriminate..].
    unfold bind at 1, get_prec at 1.
    destruct (polyval _ d _ false); [apply IH | discriminate].
Qed.

Lemma chebyfit_body_no_raise (f : F -> M E F) (a b : F) (N : nat)
    (w w' : world E) (e : exn) :
  body f a b N w <> Done (Raise e) w'.
Proof.
  unfold chebyfit_body, attempt.
  destruct (chebcoeffs _ _ _ _ f a b N _ w) as [[c|e1] w1|];
    [|discriminate..].
  unfold bind at 1, get_prec at 1. unfold liftR at 1.
  destruct (rbind (index c 0) _) as [d|e1]; [|discriminate].
  unfold liftR at 1.
  destruct (rbind (pdiv _ _ _) _) as [AB|e1]; [|discriminate].
  destruct (cheb_rows _ c _ _ _ d) as [d1 [e1|]]; [discriminate|].
  unfold bind.
  destruct (cheb_error_loop _ _ _ _ f a b N _ _ _ w1) as [[r|e1] w2|] eqn:Hl;
    [discriminate| |discriminate].
  exfalso. eapply cheb_error_loop_no_raise. exact Hl.
Qed.

(** X13.  [chebyfit] never lets an exception of [f] through: when the
    function to approximate raises (here: at every point, any exception)
    and N >= 1, the caller gets UnboundLocalError instead, from the
    [return d] of the [finally] clause; the precision is restored. *)
Theorem chebyfit_masks_exception (f : F -> M E F) (e : exn) (a b : F)
    (N : nat) (error : bool) (w : world E) :
  (0 < N)%nat ->
  (forall x w0, exists w1, f x w0 = Done (Raise e) w1) ->
  exists w', fit f a b N error w = Done (Raise UnboundLocalError) w' /\
             prec w' = prec w.
Proof.
  intros HN Hf.
  assert (Hc : forall w1, exists w2,
             chebcoeffs arith cos pi half f a b N (List.seq 0 N) w1
             = Done (Raise e) w2).
  { intros w1. destruct N as [|N]; [lia|].
    cbn [List.seq chebcoeffs]. unfold bind at 1. unfold chebcoeff.
    unfold bind at 1, get_prec at 1. unfold bind at 1.
    cbn [List.seq chebcoeff_loop].
    unfold bind at 1, get_prec at 1. unfold bind at 1.
    match goal with
    | |- context [f ?x ?w0] => destruct (Hf x w0) as [w2 ->]
    end.
    exists w2. reflexivity. }
  unfold chebyfit.
  unfold bind at 1, get_prec at 1. unfold bind at 1, set_prec at 1.
  unfold bind at 1. unfold chebyfit_body, attempt.
  match goal with
  | |- context [chebcoeffs _ _ _ _ f a b N _ ?w1] =>
    destruct (Hc w1) as [w2 ->]
  end.
  cbn [fst loc_d]. unfold bind, set_prec, raise.
  eexists. split; reflexivity.
Qed.


(** X15.  For N >= 1, an interval of nonzero width and a function that
    returns at every point without effects, [chebyfit] returns N
    coefficients, and with [error=True] an error estimate beside them:
    its indexed reads and writes of [c], [d] and the lists of [chebT]
    stay in range.  Whenever it returns or raises, the precision is
    what it was at entry. *)
Theorem chebyfit_returns_N_coefficients (f : F -> M E F) (a b : F)
    (N : nat) (w : world E) :
  ((0 < N)%nat ->
   (forall x w0, exists y, f x w0 = Done (Ret y) w0) ->
   (forall p, is_zero (arith p) (sub (arith p) b a) = false) ->
   exists d err,
     fit f a b N false w = Done (Ret (d, None)) w /\
     fit f a b N true w = Done (Ret (d, Some err)) w /\
     length d = N) /\
  (forall error r w', fit f a b N error w = Done r w' -> prec w' = prec w).
Proof.
  split.
  - intros HN Hf Hz.
    set (w1 := {| prec := prec w + Z.sqrt (Z.of_nat N) + 20;
                  ext := ext w |}).
    set (O := arith (prec w1)).
    destruct (@chebcoeffs_total f Hf a b N w1 HN (List.seq 0 N))
      as [c [Hc Hlc]].
    rewrite length_seq in Hlc.
    assert (Hbody : exists d err,
              body f a b N w1
              = Done (Ret ({| loc_d := Some d; loc_err := Some err |},
                           None)) w1 /\ length d = N).
    { unfold chebyfit_body, attempt. rewrite Hc.
      unfold bind at 1, get_prec at 1. fold O.
      destruct (@index_some _ c 0%nat) as [c0 [Hc0 _]]; [lia|].
      unfold liftR at 1. rewrite Hc0. cbv beta iota delta [rbind].
      destruct (@set_item_some _ (repeat (mpf O 0) N) 0%nat
                  (div O (neg O c0) (lift O 2))) as [d0 Hd0].
      { rewrite repeat_length. lia. }
      rewrite Hd0. pose proof (set_item_length _ _ _ Hd0) as Hl0.
      rewrite repeat_length in Hl0.
      pose proof (Hz (prec w1)) as Hz'. fold O in Hz'.
      unfold liftR at 1, pdiv. rewrite !Hz'.
      cbv beta iota delta [rbind]. cbn [fst snd].
      match goal with
      | |- context [cheb_rows O c ?A ?B (List.seq 0 N) d0] =>
        destruct (@cheb_rows_ok O c A B (List.seq 0 N) d0) as [d1 [-> Hl1]]
      end.
      { intros k Hk. apply in_seq in Hk. lia. }
      unfold bind at 1.
      destruct (@cheb_error_loop_total f Hf a b N (rev d1) (List.seq 0 N)
                  (mpf O 0) w1) as [err ->].
      exists (rev d1), err. split; [reflexivity|].
      rewrite length_rev. congruence. }
    destruct Hbody as [d [err [Hbody Hl]]].
    exists d, (uplus (arith (prec w)) err).
    split; [|split; [|exact Hl]]; unfold chebyfit;
      unfold bind at 1, get_prec at 1; unfold bind at 1, set_prec at 1;
      fold w1; unfold bind at 1; rewrite Hbody;
      cbn [fst loc_d loc_err]; unfold bind, set_prec, ret, get_prec;
      cbn [prec ext w1]; destruct w as [p0 e0]; reflexivity.
  - intros error r w'. unfold chebyfit.
    unfold bind at 1, get_prec at 1. unfold bind at 1, set_prec at 1.
    unfold bind at 1.
    destruct (body f a b N _) as [[[loc pending]|e] w1|] eqn:Hb;
      [| |discriminate].
    + unfold bind at 1, set_prec at 1. cbn [fst].
      destruct (loc_d loc) as [d|].
      * destruct error.
        -- destruct (loc_err loc) as [err|].
           ++ unfold bind, get_prec, ret. intros [= _ <-]. reflexivity.
           ++ unfold raise. intros [= _ <-]. reflexivity.
        -- unfold ret. intros [= _ <-]. reflexivity.
      * unfold raise. intros [= _ <-]. reflexivity.
    + intros _.
      exfalso. eapply chebyfit_body_no_raise. eassumption.
Qed.
End ChebyfitFacts.

Lemma chebyfit_masks_exception_witness :
  exists w',
    QCheb.fit (fun t => Demo.failing (Fin t)) 0 1 2 false Demo.start
    = Done (Raise UnboundLocalError) w' /\ prec w' = prec Demo.start.
Proof.
  apply (@chebyfit_masks_exception Demo.log Q QNum.ops QCheb.cosq QCheb.piq
           (1 # 2) (fun t => Demo.failing (Fin t)) (UserError 1) 0 1 2 false
           Demo.start).
  - lia.
  - intros x w0. exists w0. reflexivity.
Defined.


Lemma chebyfit_returns_N_coefficients_witness :
  exists d err,
    QCheb.fit (QDiff.pure (fun t => t)) 0 1 2 false Demo.start
    = Done (Ret (d, None)) Demo.start /\
    QCheb.fit (QDiff.pure (fun t => t)) 0 1 2 true Demo.start
    = Done (Ret (d, Some err)) Demo.start /\
    length d = 2%nat.
Proof.
  apply (proj1 (@chebyfit_returns_N_coefficients Demo.log Q QNum.ops
                  QCheb.cosq QCheb.piq (1 # 2) (QDiff.pure (fun t => t)) 0 1
                  2 Demo.start)).
  - lia.
  - intros x w0. exists x. reflexivity.
  - intros p. reflexivity.
Defined.

(* ------------------------------------------------------------------ *)
(** * Properties of [pade] *)

Ltac nat_cases :=
  repeat match goal with
         | |- context [(?x <=? ?y)%nat] => destruct (Nat.leb_spec x y)
         | |- context [(?x <? ?y)%nat] => destruct (Nat.ltb_spec x y)
         | |- context [(?x =? ?y)%nat] => destruct (Nat.eqb_spec x y)
         end;
  subst; cbn [andb]; try reflexivity; try lia.

Section ListUpdates.
Context {A : Type}.

Lemma index_nth (l : list A) (n : nat) (d : A) :
  (n < length l)%nat -> index l n = Ret (nth n l d).
Proof.
  intros H. unfold index. now rewrite (nth_error_nth' l d H).
Qed.

Lemma set_item_ok (l : list A) (i : nat) (v d : A) :
  (i < length l)%nat ->
  exists l', set_item l i v = Ret l' /\ length l' = length l /\
             forall k, nth k l' d = if (k =? i)%nat then v else nth k l d.
Proof.
  intros H. unfold set_item.
  destruct (Nat.ltb_spec i (length l)) as [_|]; [|lia].
  eexists. split; [reflexivity|]. split.
  - rewrite length_app, length_firstn.
    change (length (v :: skipn (S i) l)) with (S (length (skipn (S i) l))).
    rewrite length_skipn. lia.
  - intros k. destruct (Nat.eqb_spec k i) as [->|Hne].
    + rewrite app_nth2; rewrite length_firstn; [|lia].
      replace (i - Nat.min i (length l))%nat with 0%nat by lia. reflexivity.
    + destruct (Nat.lt_ge_cases k i) as [Hlt|Hge].
      * rewrite app_nth1 by (rewrite length_firstn; lia).
        rewrite nth_firstn. destruct (Nat.ltb_spec k i); [reflexivity | lia].
      * rewrite app_nth2; rewrite length_firstn; [|lia].
        replace (k - Nat.min i (length l))%nat with (S (k - i - 1)) by lia.
        change (nth (S (k - i - 1)) (v :: skipn (S i) l) d)
          with (nth (k - i - 1) (skipn (S i) l) d).
        rewrite nth_skipn. f_equal. lia.
Qed.
End ListUpdates.

Section MatrixFacts.
Context {F : Type}.
Variable d : F.

(** The entry (j, i), [d] outside the matrix. *)
Definition mget (A : list (list F)) (j i : nat) : F := nth i (nth j A []) d.

Definition same_shape (A A' : list (list F)) : Prop :=
  length A' = length A /\
  forall j, length (nth j A' []) = length (nth j A []).

Lemma matrix_set_ok (A : list (list F)) (j i : nat) (v : F) :
  (j < length A)%nat -> (i < length (nth j A []))%nat ->
  exists A', matrix_set A j i v = Ret A' /\ same_shape A A' /\
             forall j' i', mget A' j' i'
                           = if ((j' =? j) && (i' =? i))%nat then v
                             else mget A j' i'.
Proof.
  intros Hj Hi. unfold matrix_set.
  rewrite (index_nth A [] Hj). cbv beta iota delta [rbind].
  destruct (@set_item_ok _ (nth j A []) i v d Hi) as [row' [-> [Hl Hn]]].
  cbv beta iota delta [rbind].
  destruct (@set_item_ok _ A j row' [] Hj) as [A' [-> [HlA HnA]]].
  exists A'. split; [reflexivity|]. split; [split; [exact HlA|]|].
  - intros j'. rewrite HnA. destruct (Nat.eqb_spec j' j) as [->|_];
      [exact Hl | reflexivity].
  - intros j' i'. unfold mget. rewrite HnA.
    destruct (Nat.eqb_spec j' j) as [->|_]; cbn [andb]; [apply Hn|reflexivity].
Qed.

Lemma pade_fill_row_ok (a : list F) (L j : nat) :
  (L + j < length a)%nat ->
  forall n i0 A,
    (j < length A)%nat -> (i0 + n <= length (nth j A []))%nat ->
    exists A', pade_fill_row a L j (List.seq i0 n) A = Ret A' /\
               same_shape A A' /\
               forall j' i',
                 mget A' j' i'
                 = if ((j' =? j) && (i0 <=? i') && (i' <? i0 + n))%nat
                   then nth (L + j - i') a d else mget A j' i'.
Proof.
  intros Ha. induction n as [|n IH]; intros i0 A Hj Hi.
  - exists A. split; [reflexivity|]. split; [split; reflexivity|].
    intros j' i'. rewrite Nat.add_0_r. nat_cases.
  - cbn [List.seq pade_fill_row].
    rewrite (@index_nth _ a (L + j - i0) d) by lia.
    cbv beta iota delta [rbind].
    destruct (@matrix_set_ok A j i0 (nth (L + j - i0) a d) Hj)
      as [A1 [-> [[Hl1 Hs1] Hg1]]]; [lia|].
    cbv beta iota delta [rbind].
    destruct (IH (S i0) A1) as [A' [-> [[Hl Hs] Hg]]].
    { now rewrite Hl1. }
    { rewrite Hs1. lia. }
    exists A'. split; [reflexivity|]. split.
    + split; [congruence|]. intros j'. now rewrite Hs, Hs1.
    + intros j' i'. rewrite Hg, Hg1. nat_cases.
Qed.

Lemma pade_fill_ok (a : list F) (L M : nat) :
  (L + M <= length a)%nat ->
  forall n j0 A,
    length A = M -> (forall j, (j < M)%nat -> length (nth j A []) = M) ->
    (j0 + n <= M)%nat ->
    exists A', pade_fill a L M (List.seq j0 n) A = Ret A' /\
               same_shape A A' /\
               forall j' i',
                 mget A' j' i'
                 = if ((j0 <=? j') && (j' <? j0 + n)
                       && (i' <? Nat.min M (L + j' + 1)))%nat
                   then nth (L + j' - i') a d else mget A j' i'.
Proof.
  intros Ha. induction n as [|n IH]; intros j0 A HlA Hrows Hn.
  - exists A. split; [reflexivity|]. split; [split; reflexivity|].
    intros j' i'. rewrite Nat.add_0_r. nat_cases.
  - cbn [List.seq pade_fill].
    destruct (@pade_fill_row_ok a L j0 ltac:(lia)
                (Nat.min M (L + j0 + 1)) 0%nat A)
      as [A1 [-> [[Hl1 Hs1] Hg1]]].
    { lia. }
    { rewrite Hrows by lia. lia. }
    cbv beta iota delta [rbind].
    destruct (IH (S j0) A1) as [A' [-> [[Hl Hs] Hg]]].
    { congruence. }
    { intros j Hj. rewrite Hs1. now apply Hrows. }
    { lia. }
    exists A'. split; [reflexivity|]. split.
    + split; [congruence|]. intros j'. now rewrite Hs, Hs1.
    + intros j' i'. rewrite Hg, Hg1. cbn [Nat.add]. nat_cases.
Qed.
End MatrixFacts.


Module PadeFacts.
Import PadeSpec.

Lemma mget_zero (p : Z) (M j i : nat) :
  mget 0 (matrix_zero (QNum.ops p) M) j i = 0.
Proof.
  unfold mget, matrix_zero. cbn [QNum.ops mpf].
  change (inject_Z 0) with 0.
  destruct (Nat.lt_ge_cases j M) as [Hj|Hj].
  - rewrite (nth_repeat_lt _ [] Hj).
    destruct (Nat.lt_ge_cases i M) as [Hi|Hi].
    + now rewrite (nth_repeat_lt _ 0 Hi).
    + apply nth_overflow. now rewrite repeat_length.
  - rewrite (nth_overflow _ []) by now rewrite repeat_length.
    now destruct i.
Qed.

Lemma dot_zero_tail (row x : list Q) (m : nat) :
  forall n, (m <= n)%nat ->
    (forall k, (m <= k < n)%nat -> nth k row 0 == 0) ->
    dot row x n == dot row x m.
Proof.
  induction n as [|n IH]; intros Hmn Hz.
  - replace m with 0%nat by lia. reflexivity.
  - destruct (Nat.eq_dec m (S n)) as [->|Hne]; [reflexivity|].
    cbn [dot]. rewrite IH by (try lia; intros k Hk; apply Hz; lia).
    rewrite (Hz n) by lia. ring.
Qed.

Lemma conv_shift (a x row : list Q) (i : nat) :
  forall n, (n <= i)%nat ->
    (forall k, (k < n)%nat -> nth k row 0 == nth (i - 1 - k) a 0) ->
    conv_sum a (1 :: x) i (S n) == nth i a 0 + dot row x n.
Proof.
  induction n as [|n IH]; intros Hn Hrow.
  - cbn [conv_sum dot nth]. rewrite Nat.sub_0_r. ring.
  - change (conv_sum a (1 :: x) i (S (S n)))
      with (conv_sum a (1 :: x) i (S n)
            + nth (S n) (1 :: x) 0 * nth (i - S n) a 0).
    rewrite IH by (try lia; intros k Hk; apply Hrow; lia).
    cbn [dot nth]. rewrite (Hrow n) by lia.
    replace (i - S n)%nat with (i - 1 - n)%nat by lia. ring.
Qed.

Lemma pade_num_inner_Q (p : Z) (a q : list Q) (i : nat) :
  (i < length a)%nat ->
  forall n j0 s,
    (j0 + n <= length q)%nat ->
    s == conv_sum a q i j0 ->
    exists s', pade_num_inner (QNum.ops p) a q i (List.seq j0 n) s = Ret s' /\
               s' == conv_sum a q i (j0 + n).
Proof.
  intros Hi. induction n as [|n IH]; intros j0 s Hq Hs.
  - exists s. split; [reflexivity|]. now rewrite Nat.add_0_r.
  - cbn [List.seq pade_num_inner].
    rewrite (@index_nth _ q j0 0) by lia.
    rewrite (@index_nth _ a (i - j0) 0) by lia.
    cbv beta iota delta [rbind].
    replace (j0 + S n)%nat with (S j0 + n)%nat by lia.
    apply IH; [lia|].
    cbn [QNum.ops add mul conv_sum]. rewrite !Qred_correct, Hs. reflexivity.
Qed.

Lemma pade_num_Q (p : Z) (a q : list Q) (M : nat) :
  length q = S M -> nth 0 q 0 == 1 ->
  forall n i0 pl,
    (i0 + n <= length pl)%nat -> (i0 + n <= length a)%nat ->
    exists pl', pade_num (QNum.ops p) a q M (List.seq i0 n) pl = Ret pl' /\
                length pl' = length pl /\
                forall k, (i0 <= k < i0 + n)%nat ->
                          nth k pl' 0 == product_coeff a q M k.
Proof.
  intros Hq Hq0. induction n as [|n IH]; intros i0 pl Hp Ha.
  - exists pl. split; [reflexivity|]. split; [reflexivity|]. intros k Hk. lia.
  - cbn [List.seq pade_num].
    rewrite (@index_nth _ a i0 0) by lia. cbv beta iota delta [rbind].
    destruct (@pade_num_inner_Q p a q i0 ltac:(lia) (Nat.min M i0) 1%nat
                (nth i0 a 0)) as [s [-> Hs]].
    { lia. }
    { cbn [conv_sum]. rewrite Hq0, Nat.sub_0_r. ring. }
    cbv beta iota delta [rbind].
    destruct (@set_item_ok _ pl i0 s 0 ltac:(lia)) as [pl1 [-> [Hl1 Hn1]]].
    cbv beta iota delta [rbind].
    destruct (IH (S i0) pl1) as [pl' [Hr [Hl Hn]]]; [lia | lia |].
    exists pl'. split; [exact Hr|]. split; [congruence|].
    intros k Hk. destruct (Nat.eq_dec k i0) as [->|Hne].
    + (* later passes do not touch the entry i0 *)
      clear Hn.
      assert (Hkeep : forall m j0 l l',
                 (i0 < j0)%nat ->
                 pade_num (QNum.ops p) a q M (List.seq j0 m) l = Ret l' ->
                 nth i0 l' 0 = nth i0 l 0).
      { induction m as [|m IHm]; intros j0 l l' Hj.
        - cbn [List.seq pade_num]. now intros [= <-].
        - cbn [List.seq pade_num].
          destruct (index a j0) as [s0|]; [|discriminate].
          cbv beta iota delta [rbind].
          destruct (pade_num_inner _ _ _ _ _ _) as [s1|]; [|discriminate].
          cbv beta iota delta [rbind]. unfold set_item.
          destruct (Nat.ltb_spec j0 (length l)) as [Hlt|]; [|discriminate].
          cbv beta iota delta [rbind]. intros Hrun.
          rewrite (IHm (S j0) _ _ ltac:(lia) Hrun).
          rewrite app_nth1 by (rewrite length_firstn; lia).
          rewrite nth_firstn. destruct (Nat.ltb_spec i0 j0); [reflexivity|lia]. }
      rewrite (Hkeep n (S i0) pl1 pl' ltac:(lia) Hr), Hn1, Nat.eqb_refl.
      exact Hs.
    + apply Hn. lia.
Qed.

Lemma solve1_sound (A : list (list Q)) (v x : list Q) :
  solve1 A v = Ret x -> solves A x v.
Proof.
  unfold solve1.
  destruct A as [|[|a [|]] [|]]; try discriminate.
  destruct v as [|b [|]]; try discriminate.
  destruct (Qeq_bool a 0) eqn:Ha; [discriminate|].
  intros Hx. assert (Hx' : x = [Qred (b / a)]) by congruence.
  rewrite Hx'. clear Hx Hx'. split; [reflexivity|].
  intros j Hj. cbn [length] in Hj.
  replace j with 0%nat by lia. cbn [length dot nth].
  rewrite Qred_correct. apply Qeq_bool_neq in Ha. field. exact Ha.
Qed.

(** X16.  With a linear solver whose results solve the system it is given
    and in exact arithmetic, [pade(a, L, M)] with (L, M) other than
    (0, 0) returns p with L+1 and q with M+1 coefficients, q[0] = 1, such
    that A(x) Q(x) = P(x) + O(x^(L+M+1)): the coefficient of x^i in the
    product is p[i] for i <= L and zero for L < i <= L+M.  Its only
    failures are those of the solver. *)
Theorem pade_order_condition (prc : Z)
    (lu_solve : list (list Q) -> list Q -> res (list Q))
    (a : list Q) (L M : nat) :
  (L + M + 1 <= length a)%nat -> (0 < L + M)%nat ->
  (forall A v x, lu_solve A v = Ret x -> solves A x v) ->
  match pade (QNum.ops prc) lu_solve a L M with
  | Ret (p, q) =>
    length p = S L /\ length q = S M /\ nth 0 q 0 == 1 /\
    (forall i, (i <= L)%nat -> nth i p 0 == product_coeff a q M i) /\
    (forall i, (L < i <= L + M)%nat -> product_coeff a q M i == 0)
  | Raise e => (0 < M)%nat /\ exists A v, lu_solve A v = Raise e
  end.
Proof.
  intros Hlen Hpos Hsound. unfold pade.
  destruct (Nat.ltb_spec (length a) (L + M + 1)) as [|_]; [lia|].
  destruct (Nat.eqb_spec M 0) as [->|HM].
  - destruct (Nat.eqb_spec L 0) as [->|HL]; [lia|].
    split; [|split; [reflexivity|split; [reflexivity|split]]].
    + rewrite length_firstn. lia.
    + intros i Hi. rewrite nth_firstn.
      destruct (Nat.ltb_spec i (L + 1)); [|lia].
      unfold product_coeff. cbn [Nat.min conv_sum nth].
      rewrite Nat.sub_0_r. cbn [QNum.ops mpf]. change (inject_Z 1) with 1.
      ring.
    + intros i Hi. lia.
  - destruct (@pade_fill_ok Q 0 a L M ltac:(lia) M 0%nat
                (matrix_zero (QNum.ops prc) M))
      as [A [-> [[HlA HsA] HgA]]].
    { unfold matrix_zero. now rewrite repeat_length. }
    { intros j Hj. unfold matrix_zero.
      rewrite (nth_repeat_lt _ [] Hj). now rewrite repeat_length. }
    { lia. }
    cbv beta iota delta [rbind].
    assert (HlenA : length A = M).
    { rewrite HlA. unfold matrix_zero. now rewrite repeat_length. }
    destruct (lu_solve A _) as [x|e] eqn:Hlu.
    2:{ cbv beta iota delta [rbind]. split; [lia|]. eauto. }
    cbv beta iota delta [rbind].
    destruct (Hsound _ _ _ Hlu) as [Hlx Hsol]. rewrite HlenA in Hlx, Hsol.
    destruct (@pade_num_Q prc a (mpf (QNum.ops prc) 1 :: x) M)
      with (n := (L + 1)%nat) (i0 := 0%nat)
           (pl := repeat (lift (QNum.ops prc) 0) (L + 1))
      as [p [-> [Hlp Hnp]]].
    { cbn [length]. now rewrite Hlx. }
    { reflexivity. }
    { rewrite repeat_length. lia. }
    { lia. }
    cbv beta iota delta [rbind].
    rewrite repeat_length in Hlp.
    split; [lia|]. split; [cbn [length]; now rewrite Hlx|].
    split; [reflexivity|]. split.
    + intros i Hi. apply Hnp. lia.
    + intros i Hi. unfold product_coeff.
      cbn [QNum.ops mpf]. change (inject_Z 1) with 1.
      set (j := (i - L - 1)%nat).
      assert (Hj : (j < M)%nat) by (unfold j; lia).
      rewrite (@conv_shift a x (nth j A []) i (Nat.min M i)).
      * specialize (Hsol j Hj).
        rewrite (@dot_zero_tail (nth j A []) x (Nat.min M i) M) in Hsol.
        -- rewrite Hsol.
           assert (Hv : nth j (map (neg (QNum.ops prc))
                                   (firstn M (skipn (L + 1) a))) 0
                        = neg (QNum.ops prc)
                            (nth j (firstn M (skipn (L + 1) a)) 0)).
           { change 0 with (neg (QNum.ops prc) 0) at 1. apply map_nth. }
           rewrite Hv, nth_firstn, nth_skipn.
           destruct (Nat.ltb_spec j M) as [_|]; [|lia].
           cbn [QNum.ops neg]. rewrite Qred_correct.
           replace (L + 1 + j)%nat with i by (unfold j; lia). ring.
        -- lia.
        -- intros k Hk. fold (mget 0 A j k). rewrite HgA, mget_zero.
           replace (Nat.min M (L + j + 1)) with (Nat.min M i)
             by (unfold j; lia).
           nat_cases.
      * lia.
      * intros k Hk. fold (mget 0 A j k). rewrite HgA.
        replace (Nat.min M (L + j + 1)) with (Nat.min M i)
          by (unfold j; lia).
        replace (L + j - k)%nat with (i - 1 - k)%nat by (unfold j; lia).
        nat_cases.
Qed.

(** X17.  [pade(a, 0, 0)] returns p = q = [1] whatever a[0] is, so that
    its result satisfies A(x) Q(x) = P(x) + O(x) only when a[0] is 1,
    unlike every other choice of (L, M). *)
Theorem pade_zero_zero (prc : Z)
    (lu_solve : list (list Q) -> list Q -> res (list Q)) (a : list Q) :
  (0 < length a)%nat ->
  pade (QNum.ops prc) lu_solve a 0 0 = Ret ([1], [1]) /\
  (nth 0 [1] 0 == product_coeff a [1] 0 0 <-> nth 0 a 0 == 1).
Proof.
  intros H. split.
  - unfold pade.
    destruct (Nat.ltb_spec (length a) (0 + 0 + 1)); [lia | reflexivity].
  - unfold product_coeff. cbn [Nat.min conv_sum nth Nat.sub].
    split; intros E.
    + rewrite E. ring.
    + rewrite E. ring.
Qed.
End PadeFacts.

Lemma pade_order_condition_witness :
  match pade (QNum.ops 53) PadeSpec.solve1 [1; 1; 1#2] 1 1 with
  | Ret (p, q) =>
    length p = 2%nat /\ length q = 2%nat /\ nth 0 q 0 == 1 /\
    (forall i, (i <= 1)%nat ->
       nth i p 0 == PadeSpec.product_coeff [1; 1; 1#2] q 1 i) /\
    (forall i, (1 < i <= 1 + 1)%nat ->
       PadeSpec.product_coeff [1; 1; 1#2] q 1 i == 0)
  | Raise e => (0 < 1)%nat /\ exists A v, PadeSpec.solve1 A v = Raise e
  end.
Proof.
  apply (@PadeFacts.pade_order_condition 53 PadeSpec.solve1 [1; 1; 1#2] 1 1).
  - simpl. lia.
  - lia.
  - exact PadeFacts.solve1_sound.
Defined.

Lemma pade_zero_zero_witness :
  pade (QNum.ops 53) PadeSpec.solve1 [2; 1] 0 0 = Ret ([1], [1]) /\
  (nth 0 [1] 0 == PadeSpec.product_coeff [2; 1] [1] 0 0
   <-> nth 0 [2; 1] 0 == 1).
Proof.
  apply (@PadeFacts.pade_zero_zero 53 PadeSpec.solve1 [2; 1]).
  simpl. lia.
Defined.

(* ------------------------------------------------------------------ *)
(** * [shanks] and [richardson] as Python runs them *)

(** The generator gives the draws of CPython's [Random]: after
    [seed(0)], [getrandbits(10)] returns 864, 394, 776, 911; after
    [seed(2)] it returns 978, and after [seed(1514)] it returns 0. *)
Lemma MT_first_draws :
  MT.draws 4 10 (MT.random_seed 0) = [864; 394; 776; 911]%Z /\
  MT.draws 1 10 (MT.random_seed 2) = [978]%Z /\
  MT.draws 1 10 (MT.random_seed 1514) = [0]%Z /\
  fst (MT.random_getrandbits (MT.random_seed 0) 70) = 892550237140533643213%Z.
Proof.
  vm_compute. repeat split.
Qed.


(** C6 as it is stated fails at a finite working precision: every
    operation of the recurrence and of the sum is rounded.  For the
    harmonic numbers H_1, ..., H_6 at 53 bits [richardson] keeps the
    sequence, so N = 2, and returns 1792057351724509/2^49, while the
    weighted sum 2 H_3 - 9 H_4 + 8 H_5 of the same six numbers is
    3584114703449017/2^50, a 53-bit number itself; [maxc] is the largest
    weight, 9.  In exact arithmetic the code returns the weighted sum. *)
Lemma richardson_rounded_value_differs :
  Harmonic.floats
  = [1; 3 # 2; 8256599316845909 # 4503599627370496;
     4691249611844267 # 2251799813685248;
     1285402393645329 # 562949953421312;
     2758454771764429 # 1125899906842624] /\
  richardson_seq (RNum.ops 53) Harmonic.floats = Ret Harmonic.floats /\
  richardson (RNum.ops 53) Harmonic.floats
  = Ret (1792057351724509 # 562949953421312, 9) /\
  RichardsonSpec.weighted_sum 2 Harmonic.floats 3
  == 3584114703449017 # 1125899906842624 /\
  ~ 1792057351724509 # 562949953421312
    == RichardsonSpec.weighted_sum 2 Harmonic.floats 3 /\
  richardson (QNum.ops 53) Harmonic.floats
  = Ret (3584114703449017 # 1125899906842624, 9).
Proof.
  split; [vm_compute; reflexivity|].
  split; [vm_compute; reflexivity|].
  split; [vm_compute; reflexivity|].
  split; [vm_compute; reflexivity|].
  split; [|vm_compute; reflexivity].
  intros H. vm_compute in H. discriminate H.
Qed.
